(** * Ghost-Diamonds: the replicated-state layer

    A shallow embedding of the persistence code of the scene:
    - [robust-diamond-persistence.ts]: retry with backoff, the coordinated
      write of the diamond counter, the retry queue, the reconciled read and
      the integrity check;
    - [ghost-positions-persistence.ts]: the save leader and the batch writer;
    - the diamond states persistence: lifecycle documents and collect timers.

    Conventions.  Module-level [let] variables become fields of a state
    record that every function takes and returns.  A [fetch] is answered by
    an outcome supplied by the caller of the model (rejected, answered with a
    non-ok status, answered ok): the model is a function of the network's
    behaviour.  An [async] function runs to completion in one step, and
    calls do not overlap.  A call that is not awaited (the takeover attempt
    started by [checkLeaderStatus], the drain of the retry queue started by
    a coordinated write) is run to its end as well; for the drain, the
    world at the moment the write returns, with the drain at its first
    [await], is modelled too.  A request that is rejected or answered
    non-ok leaves the remote document untouched.  Timestamps and counts
    are integers; the collect timers, which are computed with, are IEEE 754
    doubles (primitive floats); coordinates, which are only copied, are
    rationals. *)

From Stdlib Require Import ZArith QArith Qcanon Lia Floats Uint63.
From stdpp Require Import base tactics option list gmap strings pretty numbers sorting.

Local Open Scope Z_scope.

(** ** JavaScript values shared by the modules *)

Module Js.

(** What a [throw] carries: an [Error] object with its message, some other
    value, or [undefined]. *)
Inductive Thrown :=
  | ErrorObj (message : string)
  | NonError (shown : string)
  | Undefined.

(** How a call ends. *)
Inductive Completion (A : Type) :=
  | Return (a : A)
  | Throw (e : Thrown).
Global Arguments Return {A} a.
Global Arguments Throw {A} e.

(** [hay.includes(needle)] *)
Definition includes (needle hay : string) : bool :=
  match String.index 0 needle hay with
  | Some _ => true
  | None => false
  end.

(** [error instanceof Error && (error.message.includes('CancellationTokenSource')
    || error.message.includes('disposed'))] *)
Definition isTeardown (e : Thrown) : bool :=
  match e with
  | ErrorObj m => includes "CancellationTokenSource" m || includes "disposed" m
  | _ => false
  end.

(** Answer of the network to a [fetch] that writes (PUT, PATCH, DELETE). *)
Inductive WriteOutcome :=
  | WRejected (e : Thrown)
  | WStatus (ok : bool) (status : Z) (statusText : string).

(** Answer of the network to a [fetch] that reads: the fetch is rejected,
    the response is not ok, the response is ok but [r.json()] throws, or the
    response is ok and carries the document at the path ([null] when there
    is none). *)
Inductive ReadOutcome :=
  | RRejected (e : Thrown)
  | RNotOk
  | RBadJson
  | ROk.

(** [fetch(path).then(r => r.ok ? r.json() : null)] when the backend holds
    [doc] at the path: [None] is a rejected promise, [Some v] a promise
    fulfilled with [v]. *)
Definition fetched {A} (answer : ReadOutcome) (doc : option A) : option (option A) :=
  match answer with
  | RRejected _ | RBadJson => None
  | RNotOk => Some None
  | ROk => Some doc
  end.

Definition accepted (o : WriteOutcome) : bool :=
  match o with
  | WStatus true _ _ => true
  | _ => false
  end.

(** The number (a double) of an integer, exact below 2^53 in magnitude and
    rounded to the nearest double up to 2^63; the clock's readings and
    their differences are far below. *)
Definition toNumber (i : Z) : float :=
  match i with
  | Z0 => 0%float
  | Zpos _ => PrimFloat.of_uint63 (Uint63.of_Z i)
  | Zneg q => (- PrimFloat.of_uint63 (Uint63.of_Z (Zpos q)))%float
  end.

(** [Math.max(a, b)]: [NaN] when an argument is [NaN]; of two zeros, [+0]
    when one of them is. *)
Definition Math_max (a b : float) : float :=
  if PrimFloat.is_nan a || PrimFloat.is_nan b then nan
  else if (a <? b)%float then b
  else if (b <? a)%float then a
  else match PrimFloat.classify a with
       | NZero => b
       | _ => a
       end.

End Js.
Export Js.

(** ** retryWithBackoff *)

Module Retry.

Definition MAX_RETRY_ATTEMPTS : nat := 3.
Definition RETRY_DELAY_MS : Z := 1000.
Definition RETRY_BACKOFF_MULTIPLIER : Z := 2.

Section retry.
Context {State T : Type}.
(** [operation] may change the state; its answer may depend on which
    invocation it is (1 for the first). *)
Variable operation : nat → State → State * Completion T.
(** awaiting the timer for [delay] milliseconds *)
Variable sleep : Z → State → State.
(** [console.error] *)
Variable logError : State → State.
Variables (maxAttempts : nat) (baseDelay : Z).

(** The [for] loop from [attempt] on; [remaining] counts the iterations
    left, [maxAttempts + 1 - attempt]. *)
Fixpoint retryLoop (remaining attempt : nat) (lastError : Thrown) (s : State)
  : State * Completion T :=
  match remaining with
  | O => (s, Throw lastError)
  | S remaining' =>
      match operation attempt s with
      | (s1, Return v) => (s1, Return v)
      | (s1, Throw error) =>
          if isTeardown error then (s1, Throw error)
          else if Nat.eqb attempt maxAttempts then (logError s1, Throw error)
          else
            let delay :=
              baseDelay * RETRY_BACKOFF_MULTIPLIER ^ (Z.of_nat attempt - 1) in
            retryLoop remaining' (S attempt) error (sleep delay s1)
      end
  end.

Definition retryWithBackoff (s : State) : State * Completion T :=
  retryLoop maxAttempts 1%nat Undefined s.
End retry.






End Retry.

(** [Vector3] of the SDK: three numbers, only ever copied here. *)
Record Vector3 := mkVector3 { x : Qc; y : Qc; z : Qc }.

(** ** ghost-positions-persistence.ts *)

Module Ghost.

Definition SAVE_INTERVAL : Z := 10000.
Definition GHOST_COUNT : nat := 200.
Definition BATCH_SIZE : nat := 50.
Definition LEADER_TIMEOUT : Z := 30000.

Record GhostPosition := mkGhostPosition {
  gx : Qc; gy : Qc; gz : Qc;
  lastSaved : Z
}.

(** The document at [/ghostSaveLeader]; a [timestamp] that is missing or is
    not a number reads as [None] (comparisons with it are false). *)
Record LeaderToken := mkLeaderToken {
  leaderId : Z;
  timestamp : option Z
}.

Inductive Request :=
  | GetLeader
  | PutLeader (token : LeaderToken)
  | PatchPositions (body : list (string * GhostPosition)).

(** The module's variables. *)
Record GhostProcess := mkGhostProcess {
  ghostPositionsData : gmap string GhostPosition;
  lastSaveTime : Z;
  lastLeaderCheckTime : Z;
  isInitialized : bool;
  isLeader : bool
}.

(** The backend, with the requests it was sent, oldest first. *)
Record GhostRemote := mkGhostRemote {
  ghostPositions : gmap string GhostPosition;
  ghostSaveLeader : option LeaderToken;
  sent : list Request
}.

Definition send (q : Request) (r : GhostRemote) : GhostRemote :=
  mkGhostRemote (ghostPositions r) (ghostSaveLeader r) (sent r ++ [q]).

Definition putLeader (token : LeaderToken) (r : GhostRemote) : GhostRemote :=
  mkGhostRemote (ghostPositions r) (Some token) (sent r).

(** [Object.assign(target, batchData)], also what PATCH does remotely *)
Definition assign (target : gmap string GhostPosition)
    (batchData : list (string * GhostPosition)) : gmap string GhostPosition :=
  foldl (λ m kv, <[kv.1 := kv.2]> m) target batchData.

Definition patchPositions (body : list (string * GhostPosition)) (r : GhostRemote)
  : GhostRemote :=
  mkGhostRemote (assign (ghostPositions r) body) (ghostSaveLeader r) (sent r).

Definition with_positions (d : gmap string GhostPosition) (p : GhostProcess) : GhostProcess :=
  mkGhostProcess d (lastSaveTime p) (lastLeaderCheckTime p) (isInitialized p) (isLeader p).
Definition with_lastSaveTime (t : Z) (p : GhostProcess) : GhostProcess :=
  mkGhostProcess (ghostPositionsData p) t (lastLeaderCheckTime p) (isInitialized p) (isLeader p).
Definition with_lastLeaderCheckTime (t : Z) (p : GhostProcess) : GhostProcess :=
  mkGhostProcess (ghostPositionsData p) (lastSaveTime p) t (isInitialized p) (isLeader p).
Definition with_isLeader (b : bool) (p : GhostProcess) : GhostProcess :=
  mkGhostProcess (ghostPositionsData p) (lastSaveTime p) (lastLeaderCheckTime p)
    (isInitialized p) b.

(** [`ghost_${i}`] *)
Definition ghostKey (i : nat) : string := "ghost_" +:+ pretty i.

(** [Math.ceil(n / d)] on lengths *)
Definition ceilDiv (n d : nat) : nat := ((n + d - 1) / d)%nat.

(** The inner loop: the entries of [positions] from [start] to [end_ - 1];
    [if (pos)] drops an index that holds nothing. *)
Definition buildBatch (now : Z) (positions : list Vector3) (start end_ : nat)
  : list (string * GhostPosition) :=
  omap (λ i, pos ← positions !! i;
             Some (ghostKey i, mkGhostPosition (x pos) (y pos) (z pos) now))
       (seq start (end_ - start)).

(** The network's answer to the PATCH of each batch. *)
Record BatchEnv := mkBatchEnv {
  batch_now : Z;
  patch : nat → WriteOutcome
}.

(** The outer loop over the batch indexes; [false] when a [fetch] threw and
    the [catch] around the loop ended the save.  ([savedCount] is only
    printed and is left out.) *)
Fixpoint saveBatches (e : BatchEnv) (positions : list Vector3)
    (batches : list nat) (p : GhostProcess) (r : GhostRemote) : GhostProcess * GhostRemote * bool :=
  match batches with
  | [] => (p, r, true)
  | batchIndex :: rest =>
      let start := (batchIndex * BATCH_SIZE)%nat in
      let end_ := Nat.min (start + BATCH_SIZE) (length positions) in
      let batchData := buildBatch (batch_now e) positions start end_ in
      let r1 := send (PatchPositions batchData) r in
      match patch e batchIndex with
      | WRejected _ => (p, r1, false)
      | WStatus false _ _ => saveBatches e positions rest p r1
      | WStatus true _ _ =>
          saveBatches e positions rest
            (with_positions (assign (ghostPositionsData p) batchData) p)
            (patchPositions batchData r1)
      end
  end.

Definition saveGhostPositions (e : BatchEnv) (positions : list Vector3)
    (p : GhostProcess) (r : GhostRemote) : GhostProcess * GhostRemote :=
  if negb (isLeader p) then (p, r)
  else
    let numBatches := ceilDiv (length positions) BATCH_SIZE in
    match saveBatches e positions (seq 0 numBatches) p r with
    | (p1, r1, true) => (with_lastSaveTime (batch_now e) p1, r1)
    | (p1, r1, false) => (p1, r1)
    end.

(** What [becomeLeader] meets: the answer to its GET, the answer to its PUT
    and the four readings of [Date.now()], in program order. *)
Record AcquireEnv := mkAcquireEnv {
  readLeader : ReadOutcome;
  writeLeader : WriteOutcome;
  now_age : Z;
  now_id : Z;
  now_timestamp : Z;
  now_check : Z
}.

(** [leaderAge < LEADER_TIMEOUT] for the token the GET returned *)
Definition stillLeading (now : Z) (currentLeader : option LeaderToken) : bool :=
  match currentLeader with
  | Some token =>
      match timestamp token with
      | Some ts => bool_decide (now - ts < LEADER_TIMEOUT)
      | None => false
      end
  | None => false
  end.

Definition becomeLeader (e : AcquireEnv) (p : GhostProcess) (r : GhostRemote)
  : GhostProcess * GhostRemote * bool :=
  let r0 := send GetLeader r in
  match fetched (readLeader e) (ghostSaveLeader r) with
  | None => (p, r0, false)
  | Some currentLeader =>
      if stillLeading (now_age e) currentLeader then (p, r0, false)
      else
        let token := mkLeaderToken (now_id e) (Some (now_timestamp e)) in
        let r1 := send (PutLeader token) r0 in
        match writeLeader e with
        | WRejected _ => (p, r1, false)
        | WStatus false _ _ => (p, r1, false)
        | WStatus true _ _ =>
            (with_lastLeaderCheckTime (now_check e) (with_isLeader true p),
             putLeader token r1, true)
        end
  end.

Record RenewEnv := mkRenewEnv {
  renew_now : Z;
  renew_id : Z;
  renewPut : WriteOutcome
}.

Definition checkAndRenewLeadership (e : RenewEnv) (p : GhostProcess) (r : GhostRemote)
  : GhostProcess * GhostRemote :=
  if negb (isLeader p) then (p, r)
  else
    let now := renew_now e in
    if bool_decide (now - lastLeaderCheckTime p > 5000) then
      let p1 := with_lastLeaderCheckTime now p in
      let token := mkLeaderToken (renew_id e) (Some now) in
      let r1 := send (PutLeader token) r in
      if accepted (renewPut e) then (p1, putLeader token r1) else (p1, r1)
    else (p, r).

Definition shouldSavePositions (currentTime : Z) (p : GhostProcess) : bool :=
  if negb (isLeader p) then false
  else bool_decide (currentTime - lastSaveTime p >= SAVE_INTERVAL).

Definition patchBodies (log : list Request)
  : list (list (string * GhostPosition)) :=
  omap (λ q, match q with PatchPositions b => Some b | _ => None end) log.

Definition leaderPuts (log : list Request) : list LeaderToken :=
  omap (λ q, match q with PutLeader t => Some t | _ => None end) log.

(** The body of the PATCH of the batch [b], as [saveBatches] builds it. *)
Definition batchOf (now : Z) (positions : list Vector3) (b : nat)
  : list (string * GhostPosition) :=
  buildBatch now positions (b * BATCH_SIZE)
    (Nat.min (b * BATCH_SIZE + BATCH_SIZE) (length positions)).

(** [Object.keys(batchData)] *)
Definition keys (body : list (string * GhostPosition)) : list string := body.*1.

(** Sample inputs: 120 ghosts at the origin, a process that leads, an empty
    backend, a network that answers every PATCH, one that rejects the first
    PATCH, one that rejects the second, a token written at 1000, attempts
    at 5000 and 61000 and an attempt whose read is answered 503. *)
Definition ghosts120 : list Vector3 := replicate 120 (mkVector3 0 0 0).
Definition leading : GhostProcess := mkGhostProcess ∅ 0 10000 true true.
Definition following : GhostProcess := mkGhostProcess ∅ 0 0 true false.
Definition noRemote : GhostRemote := mkGhostRemote ∅ None [].
Definition online (now : Z) : BatchEnv := mkBatchEnv now (λ _, WStatus true 200 "OK").
Definition cutOff (now : Z) : BatchEnv :=
  mkBatchEnv now (λ b, if Nat.eqb b 0 then WRejected (ErrorObj "Failed to fetch")
                      else WStatus true 200 "OK").
Definition cutSecond (now : Z) : BatchEnv :=
  mkBatchEnv now (λ b, if Nat.eqb b 1 then WRejected (ErrorObj "Failed to fetch")
                      else WStatus true 200 "OK").
Definition heldToken : LeaderToken := mkLeaderToken 1000 (Some 1000).
Definition heldRemote : GhostRemote := mkGhostRemote ∅ (Some heldToken) [].
Definition attemptAt (now : Z) : AcquireEnv :=
  mkAcquireEnv ROk (WStatus true 200 "OK") now now now now.
Definition unreadAt (now : Z) : AcquireEnv :=
  mkAcquireEnv RNotOk (WStatus true 200 "OK") now now now now.
Definition failedRenewal : RenewEnv :=
  mkRenewEnv 20000 20000 (WRejected (ErrorObj "Failed to fetch")).

(** *** The rest of the module *)

Definition with_isInitialized (b : bool) (p : GhostProcess) : GhostProcess :=
  mkGhostProcess (ghostPositionsData p) (lastSaveTime p) (lastLeaderCheckTime p)
    b (isLeader p).

(** [loadGhostPositions]: the answer to its GET decides; [data || {}] is
    the stored collection.  (The request log keeps the leader requests and
    the PATCHes only.) *)
Definition loadGhostPositions (answer : ReadOutcome) (p : GhostProcess)
    (r : GhostRemote) : GhostProcess * gmap string GhostPosition :=
  match answer with
  | RRejected _ | RBadJson => (p, ∅)
  | RNotOk => (p, ∅)
  | ROk =>
      let data := ghostPositions r in
      (with_positions data p, data)
  end.

Definition getGhostPosition (ghostIndex : nat) (p : GhostProcess) : option Vector3 :=
  match ghostPositionsData p !! ghostKey ghostIndex with
  | None => None
  | Some posData => Some (mkVector3 (gx posData) (gy posData) (gz posData))
  end.

Definition hasGhostPosition (ghostIndex : nat) (p : GhostProcess) : bool :=
  match ghostPositionsData p !! ghostKey ghostIndex with
  | None => false
  | Some _ => true
  end.

Definition getAllGhostPositions (p : GhostProcess) : gmap string GhostPosition :=
  ghostPositionsData p.

(** [checkLeaderStatus]: the call of [becomeLeader] is not awaited, so the
    value returned is the flag as it was read before the attempt. *)
Definition checkLeaderStatus (e : AcquireEnv) (p : GhostProcess) (r : GhostRemote)
  : GhostProcess * GhostRemote * bool :=
  if negb (isLeader p) && negb (isInitialized p) then
    let p1 := with_isInitialized true p in
    let '(p2, r2, _) := becomeLeader e p1 r in
    (p2, r2, isLeader p1)
  else (p, r, isLeader p).

Definition initializeGhostPersistence (answer : ReadOutcome) (e : AcquireEnv)
    (p : GhostProcess) (r : GhostRemote) : GhostProcess * GhostRemote :=
  if isInitialized p then (p, r)
  else
    let p1 := with_isInitialized true p in
    let '(p2, _) := loadGhostPositions answer p1 r in
    let '(p3, r3, _) := becomeLeader e p2 r in
    (p3, r3).

Definition markSaved (currentTime : Z) (p : GhostProcess) : GhostProcess :=
  with_lastSaveTime currentTime p.

(** The calls a scene makes on the module, and a run of them. *)
Inductive GhostCall :=
  | CallLoad (answer : ReadOutcome)
  | CallSave (e : BatchEnv) (positions : list Vector3)
  | CallBecomeLeader (e : AcquireEnv)
  | CallCheckStatus (e : AcquireEnv)
  | CallInitialize (answer : ReadOutcome) (e : AcquireEnv)
  | CallRenew (e : RenewEnv)
  | CallMarkSaved (currentTime : Z).

Definition ghostCall (c : GhostCall) (pr : GhostProcess * GhostRemote)
  : GhostProcess * GhostRemote :=
  let '(p, r) := pr in
  match c with
  | CallLoad answer => ((loadGhostPositions answer p r).1, r)
  | CallSave e positions => saveGhostPositions e positions p r
  | CallBecomeLeader e => (becomeLeader e p r).1
  | CallCheckStatus e => (checkLeaderStatus e p r).1
  | CallInitialize answer e => initializeGhostPersistence answer e p r
  | CallRenew e => checkAndRenewLeadership e p r
  | CallMarkSaved currentTime => (markSaved currentTime p, r)
  end.

Definition ghostCalls (cs : list GhostCall) (pr : GhostProcess * GhostRemote)
  : GhostProcess * GhostRemote :=
  foldl (λ st c, ghostCall c st) pr cs.

(** The entries [saveGhostPositions] writes for a whole collection. *)
Definition allEntries (now : Z) (positions : list Vector3)
  : list (string * GhostPosition) :=
  buildBatch now positions 0 (length positions).

(** Sample inputs: three ghosts and a network that answers the PATCHes. *)
Definition ghosts3 : list Vector3 :=
  [mkVector3 (Qc_of_Z 1) 0 (Qc_of_Z 2); mkVector3 (Qc_of_Z 3) 0 (Qc_of_Z 4);
   mkVector3 (Qc_of_Z 5) 0 (Qc_of_Z 6)].

End Ghost.

(** ** Diamond states persistence *)

Module DiamondStates.

Inductive Phase :=
  | available | collected | dropped | hidden | emerging
  | collectible | disappearing | respawning | carried.

Record DiamondState := mkDiamondState {
  state : Phase;
  collectedBy : option string;
  collectedAt : option Z;
  spawnPosition : Vector3;
  spawnedAt : Z;
  dropPosition : option Vector3;
  droppedAt : option Z;
  droppedBy : option string;
  collectTimer : float;
  collectTimerStartedAt : option Z;
  expiresAt : Z;
  respawnCount : option Z
}.

(** [Partial<DiamondState>]: [None] is a field the object does not have. *)
Record PartialState := mkPartialState {
  p_state : option Phase;
  p_collectedBy : option (option string);
  p_collectedAt : option (option Z);
  p_spawnPosition : option Vector3;
  p_spawnedAt : option Z;
  p_dropPosition : option (option Vector3);
  p_droppedAt : option (option Z);
  p_droppedBy : option (option string);
  p_collectTimer : option float;
  p_collectTimerStartedAt : option (option Z);
  p_expiresAt : option Z;
  p_respawnCount : option (option Z)
}.

(** [{}] *)
Definition noFields : PartialState :=
  mkPartialState None None None None None None None None None None None None.

(** [{ collectTimer: timer, collectTimerStartedAt: startedAt }] *)
Definition timerFields (timer : float) (startedAt : option Z) : PartialState :=
  mkPartialState None None None None None None None None
    (Some timer) (Some startedAt) None None.

(** [{ ...currentState, ...data, state }] *)
Definition merge (currentState : DiamondState) (data : PartialState)
    (newState : Phase) : DiamondState :=
  {| state := newState;
     collectedBy := default (collectedBy currentState) (p_collectedBy data);
     collectedAt := default (collectedAt currentState) (p_collectedAt data);
     spawnPosition := default (spawnPosition currentState) (p_spawnPosition data);
     spawnedAt := default (spawnedAt currentState) (p_spawnedAt data);
     dropPosition := default (dropPosition currentState) (p_dropPosition data);
     droppedAt := default (droppedAt currentState) (p_droppedAt data);
     droppedBy := default (droppedBy currentState) (p_droppedBy data);
     collectTimer := default (collectTimer currentState) (p_collectTimer data);
     collectTimerStartedAt :=
       default (collectTimerStartedAt currentState) (p_collectTimerStartedAt data);
     expiresAt := default (expiresAt currentState) (p_expiresAt data);
     respawnCount := default (respawnCount currentState) (p_respawnCount data) |}.

(** The document used when the map has none for the key; the two readings
    of [Date.now()] are [now1] and [now2]. *)
Definition defaultState (now1 now2 : Z) : DiamondState :=
  {| state := available;
     collectedBy := None;
     collectedAt := None;
     spawnPosition := mkVector3 0 0 0;
     spawnedAt := now1;
     dropPosition := None;
     droppedAt := None;
     droppedBy := None;
     collectTimer := 0%float;
     collectTimerStartedAt := None;
     expiresAt := now2 + 10 * 60 * 1000;
     respawnCount := None |}.

(** The module's variables. *)
Record StatesProcess := mkStatesProcess {
  playerDiamondStates : gmap string DiamondState;
  playerDiamondStatesLoaded : bool;
  currentPlayerId : option string
}.

(** The documents at [/players/{playerId}/diamonds/{key}], with the PUT
    bodies sent, oldest first. *)
Record StatesRemote := mkStatesRemote {
  diamonds : gmap (string * string) DiamondState;
  puts : list (string * string * DiamondState)
}.

(** [`diamond_${index}`] *)
Definition diamondKey (index : Z) : string := "diamond_" +:+ pretty index.

(** [currentPlayerId] when it is truthy: neither [null] nor the empty string *)
Definition playerSet (p : StatesProcess) : option string :=
  match currentPlayerId p with
  | Some id => if bool_decide (id = "") then None else Some id
  | None => None
  end.

Record PutEnv := mkPutEnv {
  now_spawned : Z;
  now_expires : Z;
  put : WriteOutcome
}.

Definition saveDiamondState (e : PutEnv) (index : Z) (newState : Phase)
    (data : PartialState) (p : StatesProcess) (r : StatesRemote) : StatesProcess * StatesRemote * bool :=
  match playerSet p with
  | None => (p, r, false)
  | Some playerId =>
      let key := diamondKey index in
      let currentState :=
        default (defaultState (now_spawned e) (now_expires e))
                (playerDiamondStates p !! key) in
      let updatedState := merge currentState data newState in
      let p1 := mkStatesProcess (<[key := updatedState]> (playerDiamondStates p))
                  (playerDiamondStatesLoaded p) (currentPlayerId p) in
      let r1 := mkStatesRemote (diamonds r) (puts r ++ [(playerId, key, updatedState)]) in
      match put e with
      | WRejected _ => (p1, r1, false)
      | WStatus ok _ _ =>
          (p1,
           if ok then mkStatesRemote (<[(playerId, key) := updatedState]> (diamonds r1)) (puts r1)
           else r1,
           ok)
      end
  end.

Definition getDiamondState (index : Z) (p : StatesProcess) : option DiamondState :=
  playerDiamondStates p !! diamondKey index.

Definition updateDiamondCollectTimer (e : PutEnv) (index : Z) (timer : float)
    (startedAt : Z) (p : StatesProcess) (r : StatesRemote) : StatesProcess * StatesRemote :=
  let currentDiamondState :=
    match getDiamondState index p with
    | Some currentState => state currentState
    | None => hidden
    end in
  (saveDiamondState e index currentDiamondState
     (timerFields timer (Some startedAt)) p r).1.

(** [!state.collectTimerStartedAt]: [null] and [0] are both falsy *)
Definition startedAtTruthy (startedAt : option Z) : option Z :=
  match startedAt with
  | Some t => if bool_decide (t = 0) then None else Some t
  | None => None
  end.

(** [now] is the reading of [Date.now()]; the division and the
    subtraction are those of doubles. *)
Definition getDiamondCollectTimer (now : Z) (index : Z) (p : StatesProcess) : float :=
  match getDiamondState index p with
  | None => 0%float
  | Some st =>
      match startedAtTruthy (collectTimerStartedAt st) with
      | None => 0%float
      | Some startedAt =>
          let elapsed := (toNumber (now - startedAt) / 1000)%float in
          let remaining := Math_max 0%float (collectTimer st - elapsed)%float in
          remaining
      end
  end.

(** [now] is the reading of [Date.now()] in [startDiamondCollectTimer]. *)
Definition startDiamondCollectTimer (e : PutEnv) (now : Z) (index : Z)
    (duration : float) (p : StatesProcess) (r : StatesRemote) : StatesProcess * StatesRemote :=
  updateDiamondCollectTimer e index duration now p r.

Definition stopDiamondCollectTimer (e : PutEnv) (index : Z)
    (p : StatesProcess) (r : StatesRemote) : StatesProcess * StatesRemote :=
  let currentDiamondState :=
    match getDiamondState index p with
    | Some currentState => state currentState
    | None => hidden
    end in
  (saveDiamondState e index currentDiamondState (timerFields 0%float None) p r).1.

(** Sample inputs: a player with no documents yet, a player whose diamond 0
    carries a 30 s timer started at 5000, one whose timer carries the start
    timestamp 0, an empty backend, a PUT that is answered 503. *)
Definition newPlayer : StatesProcess := mkStatesProcess ∅ true (Some "0xabc").
Definition timedDocument : DiamondState :=
  merge (defaultState 1000 1000) (timerFields 30%float (Some 5000)) collectible.
Definition timedPlayer : StatesProcess :=
  mkStatesProcess {[diamondKey 0 := timedDocument]} true (Some "0xabc").
Definition startedAtZero : StatesProcess :=
  mkStatesProcess
    {[diamondKey 0 := merge (defaultState 0 0) (timerFields 30%float (Some 0)) collectible]}
    true (Some "0xabc").
Definition noDocuments : StatesRemote := mkStatesRemote ∅ [].
Definition refused (now : Z) : PutEnv :=
  mkPutEnv now now (WStatus false 503 "Service Unavailable").

(** *** The rest of the module *)

(** The document tree at [/players/{playerId}/diamonds]: [data || {}]. *)
Definition docsOf (playerId : string) (m : gmap (string * string) DiamondState)
  : gmap string DiamondState :=
  default ∅ (map_curry (M1:=gmap string) (M2:=gmap string) m !! playerId).

Definition initPlayerDiamondStates (answer : ReadOutcome) (playerId : string)
    (p : StatesProcess) (r : StatesRemote) : StatesProcess :=
  if bool_decide (currentPlayerId p = Some playerId) && playerDiamondStatesLoaded p
  then p
  else
    match answer with
    | RRejected _ | RBadJson => mkStatesProcess ∅ true (Some playerId)
    | RNotOk => mkStatesProcess ∅ true (Some playerId)
    | ROk => mkStatesProcess (docsOf playerId (diamonds r)) true (Some playerId)
    end.

Definition loadPlayerDiamondStates (answer : ReadOutcome) (p : StatesProcess)
    (r : StatesRemote) : StatesProcess * gmap string DiamondState :=
  match playerSet p with
  | None => (p, ∅)
  | Some playerId =>
      if playerDiamondStatesLoaded p then (p, playerDiamondStates p)
      else
        let p1 := initPlayerDiamondStates answer playerId p r in
        (p1, playerDiamondStates p1)
  end.

Definition reloadPlayerDiamondStates (answer : ReadOutcome) (p : StatesProcess)
    (r : StatesRemote) : StatesProcess * gmap string DiamondState :=
  match playerSet p with
  | None => (p, ∅)
  | Some _ =>
      loadPlayerDiamondStates answer
        (mkStatesProcess (playerDiamondStates p) false (currentPlayerId p)) r
  end.

Definition getAllDiamondStates (p : StatesProcess) : gmap string DiamondState :=
  playerDiamondStates p.

(** In the four functions below [now], [now1], [now2] are the readings of
    [Date.now()] made while the argument object is built; the readings made
    inside [saveDiamondState] come with [e]. *)
Definition updateDiamondSpawnPosition (e : PutEnv) (now1 now2 : Z) (index : Z)
    (position : Vector3) (p : StatesProcess) (r : StatesRemote)
  : StatesProcess * StatesRemote * bool :=
  saveDiamondState e index available
    (mkPartialState None None None (Some position) (Some now1) None None None None None
       (Some (now2 + 10 * 60 * 1000)) None) p r.

Definition updateDiamondDropPosition (e : PutEnv) (now : Z) (index : Z)
    (position : Vector3) (by_ : string) (p : StatesProcess) (r : StatesRemote)
  : StatesProcess * StatesRemote * bool :=
  saveDiamondState e index dropped
    (mkPartialState None None None None None (Some (Some position)) (Some (Some now))
       (Some (Some by_)) None None None None) p r.

Definition markDiamondCollected (e : PutEnv) (now : Z) (index : Z) (by_ : string)
    (p : StatesProcess) (r : StatesRemote) : StatesProcess * StatesRemote * bool :=
  saveDiamondState e index collected
    (mkPartialState None (Some (Some by_)) (Some (Some now)) None None None None None
       None None None None) p r.

Definition markDiamondHidden (e : PutEnv) (index : Z) (p : StatesProcess)
    (r : StatesRemote) : StatesProcess * StatesRemote * bool :=
  saveDiamondState e index hidden noFields p r.

Definition phase_eqb (a b : Phase) : bool :=
  match a, b with
  | available, available | collected, collected | dropped, dropped
  | hidden, hidden | emerging, emerging | collectible, collectible
  | disappearing, disappearing | respawning, respawning | carried, carried => true
  | _, _ => false
  end.

Definition isDiamondAvailable (now : Z) (index : Z) (p : StatesProcess) : bool :=
  match getDiamondState index p with
  | None => false
  | Some st =>
      if bool_decide (now > expiresAt st) then false
      else phase_eqb (state st) available
  end.

Definition isDiamondCollected (index : Z) (p : StatesProcess) : bool :=
  match getDiamondState index p with
  | Some st => phase_eqb (state st) collected
  | None => false
  end.

Definition isDiamondDropped (index : Z) (p : StatesProcess) : bool :=
  match getDiamondState index p with
  | Some st => phase_eqb (state st) dropped
  | None => false
  end.

Definition getDiamondSpawnPosition (index : Z) (p : StatesProcess) : option Vector3 :=
  match getDiamondState index p with
  | Some st => Some (spawnPosition st)
  | None => None
  end.

Definition getDiamondDropPosition (index : Z) (p : StatesProcess) : option Vector3 :=
  match getDiamondState index p with
  | Some st => dropPosition st
  | None => None
  end.

(** [cleanupOldDiamondStates]: the loop over the indexes 0..4; [now] is
    read once, [e i] is what the save of index [i] meets. *)
Definition cleanupOne (e : nat → PutEnv) (now : Z) (i : nat)
    (pr : StatesProcess * StatesRemote) : StatesProcess * StatesRemote :=
  let '(p, r) := pr in
  match playerDiamondStates p !! diamondKey (Z.of_nat i) with
  | Some st =>
      if bool_decide (now - spawnedAt st > 24 * 60 * 60 * 1000) then
        (saveDiamondState (e i) (Z.of_nat i) available
           (mkPartialState None (Some None) (Some None) (Some (spawnPosition st))
              (Some now) (Some None) (Some None) (Some None) None None
              (Some (now + 10 * 60 * 1000)) None) p r).1
      else (p, r)
  | None => (p, r)
  end.

Definition cleanupOldDiamondStates (e : nat → PutEnv) (now : Z)
    (p : StatesProcess) (r : StatesRemote) : StatesProcess * StatesRemote :=
  match playerSet p with
  | None => (p, r)
  | Some _ => foldl (λ pr i, cleanupOne e now i pr) (p, r) (seq 0 5)
  end.

(** [createInitialDiamondsIfNeeded]: [now1 i] and [now2 i] are the two
    readings of the clock for the diamond [i]. *)
Definition createOne (e : nat → PutEnv) (now1 now2 : nat → Z) (i : nat)
    (pr : StatesProcess * StatesRemote) : StatesProcess * StatesRemote :=
  let '(p, r) := pr in
  (saveDiamondState (e i) (Z.of_nat i) emerging
     (mkPartialState None None None (Some (mkVector3 0 0 0)) (Some (now1 i)) None None
        None (Some 0%float) (Some None) (Some (now2 i + 5 * 60 * 1000)) None) p r).1.

Definition createInitialDiamondsIfNeeded (e : nat → PutEnv) (now1 now2 : nat → Z)
    (p : StatesProcess) (r : StatesRemote) : StatesProcess * StatesRemote :=
  match playerSet p with
  | None => (p, r)
  | Some _ =>
      let hasAnyDiamond := bool_decide (0 < size (playerDiamondStates p))%nat in
      if negb hasAnyDiamond then
        foldl (λ pr i, createOne e now1 now2 i pr) (p, r) (seq 0 5)
      else (p, r)
  end.

Definition initDiamondStatesPersistence (answer : ReadOutcome)
    (create cleanup : nat → PutEnv) (now1 now2 : nat → Z) (now : Z)
    (playerId : string) (p : StatesProcess) (r : StatesRemote)
  : StatesProcess * StatesRemote :=
  let p1 := initPlayerDiamondStates answer playerId p r in
  let '(p2, r2) := createInitialDiamondsIfNeeded create now1 now2 p1 r in
  cleanupOldDiamondStates cleanup now p2 r2.

(** Sample inputs: a PUT that is accepted, a process that has not loaded
    anything. *)
Definition agreed (now : Z) : PutEnv := mkPutEnv now now (WStatus true 200 "OK").
Definition blankProcess : StatesProcess := mkStatesProcess ∅ false None.

End DiamondStates.

(** ** robust-diamond-persistence.ts *)

Module Robust.
Import Retry.

Definition MAX_BACKUPS_PER_PLAYER : nat := 3.
Definition WRITE_TIMEOUT : Z := 10000.

Record FailedSave := mkFailedSave {
  fs_address : string;
  fs_name : string;
  fs_diamonds : Z;
  attempts : nat;
  lastAttempt : Z
}.

Record LocalDiamondData := mkLocalDiamondData {
  l_address : string;
  l_name : string;
  l_diamonds : Z;
  l_timestamp : Z;
  l_version : Z
}.

Record SaveMetrics := mkSaveMetrics {
  totalAttempts : nat;
  successfulSaves : nat;
  failedSaves : nat;
  retryAttempts : nat;
  localBackupsUsed : nat;
  lastSaveTime : Z
}.

Record DiamondBackup := mkDiamondBackup {
  b_diamonds : Z;
  b_timestamp : Z;
  b_version : Z;
  b_source : string
}.

(** [PlayerDiamondData], the document at [/players/{address}/diamondCount] *)
Record PlayerDiamondData := mkPlayerDiamondData {
  pd_name : string;
  pd_diamonds : Z;
  pd_timestamp : Z;
  pd_version : Z;
  pd_backup1 : option DiamondBackup;
  pd_backup2 : option DiamondBackup
}.

(** An entry of [/globalDiamondBackup] *)
Record GlobalEntry := mkGlobalEntry {
  g_name : string;
  g_diamonds : Z;
  g_timestamp : Z;
  g_version : Z
}.

(** The module's variables and the three remote collections, each keyed by
    the player's address. *)
Record World := mkWorld {
  writeMutex : bool;
  failedSavesQueue : list FailedSave;
  isProcessingQueue : bool;
  localDiamondStorage : gmap string LocalDiamondData;
  saveMetrics : SaveMetrics;
  primary : gmap string PlayerDiamondData;
  diamondBackups : gmap string DiamondBackup;
  globalDiamondBackup : gmap string GlobalEntry
}.

Definition with_writeMutex (b : bool) (w : World) : World :=
  mkWorld b (failedSavesQueue w) (isProcessingQueue w) (localDiamondStorage w)
    (saveMetrics w) (primary w) (diamondBackups w) (globalDiamondBackup w).
Definition with_queue (q : list FailedSave) (w : World) : World :=
  mkWorld (writeMutex w) q (isProcessingQueue w) (localDiamondStorage w)
    (saveMetrics w) (primary w) (diamondBackups w) (globalDiamondBackup w).
Definition with_isProcessingQueue (b : bool) (w : World) : World :=
  mkWorld (writeMutex w) (failedSavesQueue w) b (localDiamondStorage w)
    (saveMetrics w) (primary w) (diamondBackups w) (globalDiamondBackup w).
Definition with_local (l : gmap string LocalDiamondData) (w : World) : World :=
  mkWorld (writeMutex w) (failedSavesQueue w) (isProcessingQueue w) l
    (saveMetrics w) (primary w) (diamondBackups w) (globalDiamondBackup w).
Definition with_metrics (m : SaveMetrics) (w : World) : World :=
  mkWorld (writeMutex w) (failedSavesQueue w) (isProcessingQueue w)
    (localDiamondStorage w) m (primary w) (diamondBackups w) (globalDiamondBackup w).
Definition with_primary (m : gmap string PlayerDiamondData) (w : World) : World :=
  mkWorld (writeMutex w) (failedSavesQueue w) (isProcessingQueue w)
    (localDiamondStorage w) (saveMetrics w) m (diamondBackups w) (globalDiamondBackup w).
Definition with_backups (m : gmap string DiamondBackup) (w : World) : World :=
  mkWorld (writeMutex w) (failedSavesQueue w) (isProcessingQueue w)
    (localDiamondStorage w) (saveMetrics w) (primary w) m (globalDiamondBackup w).
Definition with_global (m : gmap string GlobalEntry) (w : World) : World :=
  mkWorld (writeMutex w) (failedSavesQueue w) (isProcessingQueue w)
    (localDiamondStorage w) (saveMetrics w) (primary w) (diamondBackups w) m.

(** [v || 0] on a count or a timestamp: 0 is the one falsy number *)
Definition orZero (v : Z) : Z := if bool_decide (v = 0) then 0 else v.

(** What one coordinated write meets: the reading of the clock, the answers
    to the PUT of the primary record (per invocation by [retryWithBackoff]),
    to the PUT of the backup and to the PATCH of the global index, and the
    answers to the three GETs and to the DELETEs of [limitPlayerBackups]. *)
Record SaveEnv := mkSaveEnv {
  save_now : Z;
  primaryPut : nat → WriteOutcome;
  backupPut : WriteOutcome;
  globalPatch : WriteOutcome;
  limitPrimary : ReadOutcome;
  limitBackup : ReadOutcome;
  limitGlobal : ReadOutcome;
  limitDelete : nat → WriteOutcome
}.

(** The operation handed to [retryWithBackoff] by [savePlayerDiamondsPrimary] *)
Definition putPrimary (e : SaveEnv) (address : string) (data : PlayerDiamondData)
    (attempt : nat) (w : World) : World * Completion unit :=
  match primaryPut e attempt with
  | WRejected err => (w, Throw err)
  | WStatus true _ _ => (with_primary (<[address := data]> (primary w)) w, Return ())
  | WStatus false status statusText =>
      (w, Throw (ErrorObj ("HTTP " +:+ pretty status +:+ ": " +:+ statusText)))
  end.

(** [acquireWriteMutex] fails when the flag is set; the timer that clears
    the flag after [WRITE_TIMEOUT] does not fire within a call and is left
    out.  The [finally] clears the flag. *)
Definition savePlayerDiamondsPrimary (e : SaveEnv) (address name : string)
    (diamonds : Z) (w : World) : World * bool :=
  if writeMutex w then (w, false)
  else
    let w1 := with_writeMutex true w in
    let now := save_now e in
    let data :=
      mkPlayerDiamondData name diamonds now 2
        (Some (mkDiamondBackup diamonds now 2 "backup1"))
        (Some (mkDiamondBackup diamonds now 2 "backup2")) in
    let '(w2, outcome) :=
      retryWithBackoff (putPrimary e address data) (λ _ s, s) (λ s, s)
        MAX_RETRY_ATTEMPTS RETRY_DELAY_MS w1 in
    (with_writeMutex false w2,
     match outcome with Return _ => true | Throw _ => false end).

Definition savePlayerDiamondsBackup (e : SaveEnv) (address name : string)
    (diamonds : Z) (w : World) : World * bool :=
  let data := mkDiamondBackup diamonds (save_now e) 2 "backup1" in
  match backupPut e with
  | WRejected _ => (w, false)
  | WStatus false _ _ => (w, false)
  | WStatus true _ _ =>
      (with_backups (<[address := data]> (diamondBackups w)) w, true)
  end.

Definition saveGlobalDiamondBackup (e : SaveEnv) (address name : string)
    (diamonds : Z) (w : World) : World * bool :=
  let entry := mkGlobalEntry name diamonds (save_now e) 2 in
  match globalPatch e with
  | WRejected _ => (w, false)
  | WStatus false _ _ => (w, false)
  | WStatus true _ _ =>
      (with_global (<[address := entry]> (globalDiamondBackup w)) w, true)
  end.

Definition savePlayerDiamondsLocally (now : Z) (address name : string)
    (diamonds : Z) (w : World) : World :=
  let localData := mkLocalDiamondData address name diamonds now 2 in
  let m := saveMetrics w in
  with_metrics
    (mkSaveMetrics (totalAttempts m) (successfulSaves m) (failedSaves m)
       (retryAttempts m) (S (localBackupsUsed m)) (lastSaveTime m))
    (with_local (<[address := localData]> (localDiamondStorage w)) w).

Definition loadPlayerDiamondsLocally (address : string) (w : World) : Z :=
  match localDiamondStorage w !! address with
  | Some localData => l_diamonds localData
  | None => 0
  end.

(** *** limitPlayerBackups *)

Inductive BackupSource := SrcPrimary | SrcBackup | SrcGlobal.

Record BackupRef := mkBackupRef {
  source : BackupSource;
  ref_timestamp : Z
}.

(** One of the three blocks that collect the existing copies: [None] when
    [json()] throws, which ends the function in its [catch]. *)
Definition collect {A} (answer : ReadOutcome) (doc : option A)
    (src : BackupSource) (ts : A → Z) : option (list BackupRef) :=
  match answer with
  | RRejected _ | RNotOk => Some []
  | RBadJson => None
  | ROk =>
      Some match doc with
           | Some data => [mkBackupRef src (orZero (ts data))]
           | None => []
           end
  end.

(** [backups.sort((a, b) => b.timestamp - a.timestamp)] *)
Definition newerFirst (a b : BackupRef) : Prop := ref_timestamp b ≤ ref_timestamp a.
Global Instance newerFirst_dec : RelDecision newerFirst.
Proof. intros a b. unfold newerFirst. apply _. Defined.

(** The loop over [toDelete]; the [k]-th DELETE is answered by
    [limitDelete e k], and a rejected one ends the function. *)
Fixpoint deleteOld (e : SaveEnv) (address : string) (k : nat)
    (toDelete : list BackupRef) (w : World) : World :=
  match toDelete with
  | [] => w
  | backup :: rest =>
      match source backup with
      | SrcPrimary => deleteOld e address k rest w
      | SrcBackup =>
          match limitDelete e k with
          | WRejected _ => w
          | WStatus ok _ _ =>
              deleteOld e address (S k) rest
                (if ok then with_backups (delete address (diamondBackups w)) w else w)
          end
      | SrcGlobal =>
          match limitDelete e k with
          | WRejected _ => w
          | WStatus ok _ _ =>
              deleteOld e address (S k) rest
                (if ok then with_global (delete address (globalDiamondBackup w)) w else w)
          end
      end
  end.

Definition limitPlayerBackups (e : SaveEnv) (address : string) (w : World) : World :=
  match collect (limitPrimary e) (primary w !! address) SrcPrimary pd_timestamp,
        collect (limitBackup e) (diamondBackups w !! address) SrcBackup b_timestamp,
        collect (limitGlobal e) (globalDiamondBackup w !! address) SrcGlobal g_timestamp
  with
  | Some fromPrimary, Some fromBackup, Some fromGlobal =>
      let backups := merge_sort newerFirst (fromPrimary ++ fromBackup ++ fromGlobal) in
      if bool_decide (MAX_BACKUPS_PER_PLAYER < length backups)%nat then
        deleteOld e address 0 (drop MAX_BACKUPS_PER_PLAYER backups) w
      else w
  | _, _, _ => w
  end.

(** *** The coordinated write and the retry queue *)

Definition countAttempt (now : Z) (w : World) : World :=
  let m := saveMetrics w in
  with_metrics
    (mkSaveMetrics (S (totalAttempts m)) (successfulSaves m) (failedSaves m)
       (retryAttempts m) (localBackupsUsed m) now) w.

Definition countOutcome (successCount : nat) (w : World) : World :=
  let m := saveMetrics w in
  with_metrics
    (if bool_decide (0 < successCount)%nat then
       mkSaveMetrics (totalAttempts m) (S (successfulSaves m)) (failedSaves m)
         (retryAttempts m) (localBackupsUsed m) (lastSaveTime m)
     else
       mkSaveMetrics (totalAttempts m) (successfulSaves m) (S (failedSaves m))
         (retryAttempts m) (localBackupsUsed m) (lastSaveTime m)) w.

Definition countRetry (w : World) : World :=
  let m := saveMetrics w in
  with_metrics
    (mkSaveMetrics (totalAttempts m) (successfulSaves m) (failedSaves m)
       (S (retryAttempts m)) (localBackupsUsed m) (lastSaveTime m)) w.

(** The body of [savePlayerDiamondsRobust]; [process] is what the call
    [processFailedSavesQueue()] at its end does (the call is not awaited:
    its effects are applied here, its outcome is dropped).  The three remote
    saves of [Promise.allSettled] touch different collections and are run
    in the order of the array. *)
Definition saveWith (process : World → World) (e : SaveEnv)
    (address name : string) (diamonds : Z) (w : World) : World * Completion bool :=
  let w0 := countAttempt (save_now e) w in
  let '(w1, r1) := savePlayerDiamondsPrimary e address name diamonds w0 in
  let '(w2, r2) := savePlayerDiamondsBackup e address name diamonds w1 in
  let '(w3, r3) := saveGlobalDiamondBackup e address name diamonds w2 in
  let results := [r1; r2; r3] in
  let successCount := length (filter (λ r, r = true) results) in
  let w4 := countOutcome successCount w3 in
  let w5 := limitPlayerBackups e address w4 in
  let w6 := savePlayerDiamondsLocally (save_now e) address name diamonds w5 in
  let w7 :=
    if bool_decide (successCount = 0%nat) then
      let failedSave := mkFailedSave address name diamonds 0 (save_now e) in
      let w' := with_queue (failedSavesQueue w6 ++ [failedSave]) w6 in
      if negb (isProcessingQueue w') then process w' else w'
    else w6 in
  (w7, Return true).

(** What a drain of the queue meets: the reading of the clock and, for the
    entry at each index, what its re-attempted write meets. *)
Record DrainEnv := mkDrainEnv {
  drain_now : Z;
  retryEnv : nat → SaveEnv
}.

(** [failedSavesQueue.splice(i, 1)] *)
Definition splice (i : nat) (w : World) : World :=
  with_queue (delete i (failedSavesQueue w)) w.

(** One turn of the loop of [processFailedSavesQueue], for the index [i].
    The write it awaits is [savePlayerDiamondsRobust] entered while
    [isProcessingQueue] is set: its own call of the drain returns at once,
    hence [saveWith (λ w, w)].  An index past the end of the queue reads
    [undefined], and reading its [lastAttempt] throws. *)
Definition retryEntry (d : DrainEnv) (i : nat) (w : World) : World * Completion unit :=
  match failedSavesQueue w !! i with
  | None =>
      (w, Throw (ErrorObj "Cannot read properties of undefined (reading 'lastAttempt')"))
  | Some failedSave =>
      if bool_decide (drain_now d - lastAttempt failedSave < 5000) then (w, Return ())
      else
        let retried :=
          mkFailedSave (fs_address failedSave) (fs_name failedSave)
            (fs_diamonds failedSave) (S (attempts failedSave)) (drain_now d) in
        let w1 := with_queue (<[i := retried]> (failedSavesQueue w)) w in
        let w2 := countRetry w1 in
        match saveWith (λ s, s) (retryEnv d i) (fs_address retried)
                (fs_name retried) (fs_diamonds retried) w2 with
        | (w3, Return success) =>
            if success then (splice i w3, Return ())
            else if bool_decide (MAX_RETRY_ATTEMPTS ≤ attempts retried)%nat
                 then (splice i w3, Return ())
                 else (w3, Return ())
        | (w3, Throw err) => (w3, Throw err)
        end
  end.

(** The loop [for (let i = k - 1; i >= 0; i--)] *)
Fixpoint drainFrom (d : DrainEnv) (k : nat) (w : World) : World * Completion unit :=
  match k with
  | O => (w, Return ())
  | S i =>
      match retryEntry d i w with
      | (w1, Return _) => drainFrom d i w1
      | (w1, Throw err) => (w1, Throw err)
      end
  end.

(** The second component tells whether the timer for the next drain is set. *)
Definition processFailedSavesQueue (d : DrainEnv) (w : World) : World * bool :=
  if isProcessingQueue w || bool_decide (length (failedSavesQueue w) = 0%nat)
  then (w, false)
  else
    let w1 := with_isProcessingQueue true w in
    match drainFrom d (length (failedSavesQueue w1)) w1 with
    | (w2, Return _) =>
        let w3 := with_isProcessingQueue false w2 in
        (w3, bool_decide (0 < length (failedSavesQueue w3))%nat)
    | (w2, Throw _) => (w2, false)
    end.

Definition savePlayerDiamondsRobust (e : SaveEnv) (d : DrainEnv)
    (address name : string) (diamonds : Z) (w : World) : World * Completion bool :=
  saveWith (λ s, (processFailedSavesQueue d s).1) e address name diamonds w.

(** *** The reconciled read *)

Record LoadEnv := mkLoadEnv {
  getPrimary : ReadOutcome;
  getBackup : ReadOutcome;
  getGlobal : ReadOutcome
}.

(** One turn of [sources.forEach] over the results of [Promise.allSettled]:
    the count is pushed when the promise is fulfilled with a document and
    the count is above 0. *)
Definition analyse {A} (result : option (option A)) (count : A → Z)
    (diamonds : list Z) : list Z :=
  match result with
  | Some (Some data) =>
      let diamondCount := orZero (count data) in
      if bool_decide (diamondCount > 0) then diamonds ++ [diamondCount] else diamonds
  | _ => diamonds
  end.

(** [Math.max(...diamonds)] for a list that is not empty *)
Definition maxOf (diamonds : list Z) : Z :=
  match diamonds with
  | [] => 0
  | first :: rest => foldl Z.max first rest
  end.

(** The list [diamonds] when [loadPlayerDiamondsRobust] has gone through
    the sources. *)
Definition gathered (e : LoadEnv) (address : string) (w : World) : list Z :=
  let diamonds := [] in
  let diamonds := analyse (fetched (getPrimary e) (primary w !! address)) pd_diamonds diamonds in
  let diamonds := analyse (fetched (getBackup e) (diamondBackups w !! address)) b_diamonds diamonds in
  let diamonds := analyse (fetched (getGlobal e) (globalDiamondBackup w !! address)) g_diamonds diamonds in
  let localDiamonds := loadPlayerDiamondsLocally address w in
  if bool_decide (localDiamonds > 0) then diamonds ++ [localDiamonds] else diamonds.

Definition loadPlayerDiamondsRobust (e : LoadEnv) (address : string) (w : World) : Z :=
  let diamonds := gathered e address w in
  if bool_decide (length diamonds = 0%nat) then 0
  else maxOf diamonds.

(** *** Recovery and the integrity check *)

Definition recoverPlayerDiamonds (l : LoadEnv) (e : SaveEnv) (d : DrainEnv)
    (address name : string) (currentDiamonds : Z) (w : World) : World * Completion Z :=
  let recoveredDiamonds := loadPlayerDiamondsRobust l address w in
  if bool_decide (recoveredDiamonds > currentDiamonds) then
    match savePlayerDiamondsRobust e d address name recoveredDiamonds w with
    | (w1, Return _) => (w1, Return recoveredDiamonds)
    | (w1, Throw err) => (w1, Throw err)
    end
  else (w, Return currentDiamonds).

Definition verifyDiamondIntegrity (l : LoadEnv) (e : SaveEnv) (d : DrainEnv)
    (address name : string) (currentDiamonds : Z) (w : World) : World * Completion Z :=
  let verifiedDiamonds := loadPlayerDiamondsRobust l address w in
  if bool_decide (verifiedDiamonds ≠ currentDiamonds) then
    let correctedDiamonds := Z.max currentDiamonds verifiedDiamonds in
    if bool_decide (correctedDiamonds > currentDiamonds) then
      match savePlayerDiamondsRobust e d address name correctedDiamonds w with
      | (w1, Return _) => (w1, Return correctedDiamonds)
      | (w1, Throw err) => (w1, Throw err)
      end
    else (w, Return currentDiamonds)
  else (w, Return currentDiamonds).

(** *** Runs: writes and timer-driven drains, one after the other *)

Inductive Step :=
  | WriteStep (e : SaveEnv) (d : DrainEnv) (address name : string) (diamonds : Z)
  | DrainStep (d : DrainEnv).

Definition step (s : Step) (w : World) : World :=
  match s with
  | WriteStep e d address name diamonds =>
      (savePlayerDiamondsRobust e d address name diamonds w).1
  | DrainStep d => (processFailedSavesQueue d w).1
  end.

Definition run (steps : list Step) (w : World) : World :=
  foldl (λ s st, step st s) w steps.

(** The values the writes of a run carry for [address] *)
Definition written (address : string) (steps : list Step) : list Z :=
  omap (λ s, match s with
             | WriteStep _ _ a _ v => if bool_decide (a = address) then Some v else None
             | DrainStep _ => None
             end) steps.

(** A world where nothing is stored or pending. *)
Definition emptyWorld : World :=
  mkWorld false [] false ∅ (mkSaveMetrics 0 0 0 0 0 0) ∅ ∅ ∅.

(** Every request of a write or a drain is answered ok. *)
Definition calm (now : Z) : SaveEnv :=
  mkSaveEnv now (λ _, WStatus true 200 "OK") (WStatus true 200 "OK")
    (WStatus true 200 "OK") ROk ROk ROk (λ _, WStatus true 200 "OK").
Definition calmDrain (now : Z) : DrainEnv := mkDrainEnv now (λ _, calm now).
Definition calmLoad : LoadEnv := mkLoadEnv ROk ROk ROk.

(** Every request of a write is answered 503. *)
Definition down (now : Z) : SaveEnv :=
  mkSaveEnv now (λ _, WStatus false 503 "Service Unavailable")
    (WStatus false 503 "Service Unavailable")
    (WStatus false 503 "Service Unavailable") RNotOk RNotOk RNotOk
    (λ _, WStatus false 503 "Service Unavailable").
Definition downDrain (now : Z) : DrainEnv := mkDrainEnv now (λ _, down now).

(** Sample runs for player [0xabc]: a write of 5 and then a write of 3 on a
    calm network; a write of 5 while the backend is down, followed by
    drains every six seconds while it stays down; a world where every
    source holds 3; a world where every source holds -2. *)
Definition twoWrites : list Step :=
  [WriteStep (calm 1000) (calmDrain 1000) "0xabc" "Ann" 5;
   WriteStep (calm 2000) (calmDrain 2000) "0xabc" "Ann" 3].
Definition outage : list Step :=
  [WriteStep (down 1000) (downDrain 1000) "0xabc" "Ann" 5].
Definition fourDrains : list Step :=
  [DrainStep (downDrain 7000); DrainStep (downDrain 13000);
   DrainStep (downDrain 19000); DrainStep (downDrain 25000)].
Definition holding3 : World :=
  run [WriteStep (calm 1000) (calmDrain 1000) "0xabc" "Ann" 3] emptyWorld.
Definition holdingMinus2 : World :=
  run [WriteStep (calm 1000) (calmDrain 1000) "0xabc" "Ann" (-2)] emptyWorld.

(** *** Vocabulary of the statements *)

(** The documents a read gets from a remote source: the one at the path
    when the request is answered ok and there is one. *)
Definition answered {A} (answer : ReadOutcome) (doc : option A) : list A :=
  match fetched answer doc with
  | Some (Some data) => [data]
  | _ => []
  end.

(** The counts a reconciled read obtains from the four sources. *)
Definition readings (e : LoadEnv) (address : string) (w : World) : list Z :=
  (pd_diamonds <$> answered (getPrimary e) (primary w !! address))
  ++ (b_diamonds <$> answered (getBackup e) (diamondBackups w !! address))
  ++ (g_diamonds <$> answered (getGlobal e) (globalDiamondBackup w !! address))
  ++ (l_diamonds <$> option_list (localDiamondStorage w !! address)).

(** The counts the four sources hold for [address]. *)
Definition stored (address : string) (w : World) : list Z :=
  (pd_diamonds <$> option_list (primary w !! address))
  ++ (b_diamonds <$> option_list (diamondBackups w !! address))
  ++ (g_diamonds <$> option_list (globalDiamondBackup w !! address))
  ++ (l_diamonds <$> option_list (localDiamondStorage w !! address)).

(** The counts waiting in the retry queue for [address]. *)
Definition queued (address : string) (w : World) : list Z :=
  fs_diamonds <$> filter (λ fs, fs_address fs = address) (failedSavesQueue w).

(** A remote collection after a save of [diamonds] for [address] that may
    or may not have landed. *)
Definition touched {A} (count : A → Z) (address : string) (diamonds : Z)
    (before after : gmap string A) : Prop :=
  after = before ∨ ∃ data, count data = diamonds ∧ after = <[address := data]> before.

(** The world [w'] is [w] after the remote saves, the metrics and the local
    save of one coordinated write, before the queue is looked at. *)
Record Saved (now : Z) (address name : string) (diamonds : Z) (w w' : World)
  : Prop := mkSaved {
  saved_local :
    localDiamondStorage w'
    = <[address := mkLocalDiamondData address name diamonds now 2]>
        (localDiamondStorage w);
  saved_primary : touched pd_diamonds address diamonds (primary w) (primary w');
  saved_backup :
    touched b_diamonds address diamonds (diamondBackups w) (diamondBackups w');
  saved_global :
    touched g_diamonds address diamonds (globalDiamondBackup w) (globalDiamondBackup w');
  saved_queue : failedSavesQueue w' = failedSavesQueue w;
  saved_processing : isProcessingQueue w' = isProcessingQueue w;
  saved_used :
    localBackupsUsed (saveMetrics w') = S (localBackupsUsed (saveMetrics w))
}.

(** The world with the entry of a write whose remote saves all failed. *)
Definition enqueue (e : SaveEnv) (address name : string) (diamonds : Z)
    (w : World) : World :=
  with_queue
    (failedSavesQueue w ++ [mkFailedSave address name diamonds 0 (save_now e)]) w.

(** Every count that [w'] stores or queues for [address] was stored or
    queued in [w] or is one of [extra], and the local cache keeps its entry
    for [address]. *)
Definition follows (address : string) (extra : list Z) (w w' : World) : Prop :=
  (∀ v, v ∈ stored address w' ++ queued address w' →
        v ∈ stored address w ++ queued address w ∨ v ∈ extra)
  ∧ (is_Some (localDiamondStorage w !! address) →
     is_Some (localDiamondStorage w' !! address)).

(** *** The rest of the module *)

(** [loadPlayerDiamondsDirect]: the count of the primary record when the
    GET is answered ok with a document, the local cache in every other
    case (response not ok, no document, [json()] or [fetch] throwing). *)
Definition loadPlayerDiamondsDirect (answer : ReadOutcome) (address : string)
    (w : World) : Z :=
  match answer with
  | RRejected _ | RBadJson => loadPlayerDiamondsLocally address w
  | RNotOk => loadPlayerDiamondsLocally address w
  | ROk =>
      match primary w !! address with
      | Some data => pd_diamonds data
      | None => loadPlayerDiamondsLocally address w
      end
  end.

Definition getSaveMetrics (w : World) : SaveMetrics := saveMetrics w.

Definition resetSaveMetrics (w : World) : World :=
  with_metrics (mkSaveMetrics 0 0 0 0 0 0) w.

(** Between two calls neither the write mutex nor the drain flag is held,
    and no queued entry has been re-attempted. *)
Definition settled (w : World) : Prop :=
  writeMutex w = false ∧ isProcessingQueue w = false
  ∧ Forall (λ fs, attempts fs = 0%nat) (failedSavesQueue w).

(** The counters add up: every attempt was counted as a success or as a
    failure, was followed by a local save, and no re-attempt went
    uncounted as an attempt. *)
Definition accounted (m : SaveMetrics) : Prop :=
  (totalAttempts m = successfulSaves m + failedSaves m
   ∧ retryAttempts m ≤ totalAttempts m
   ∧ totalAttempts m ≤ localBackupsUsed m)%nat.

(** No entry of the queue is due at [now]. *)
Definition noneDue (now : Z) (w : World) : Prop :=
  Forall (λ fs, now - lastAttempt fs < 5000) (failedSavesQueue w).

(** A world where a write of 3 for [0xabc] waits in the queue. *)
Definition waiting3 : World :=
  run [WriteStep (down 1000) (downDrain 1000) "0xabc" "Ann" 3] emptyWorld.

(** *** The moment a coordinated write returns

    [savePlayerDiamondsRobust] calls [processFailedSavesQueue()] without
    awaiting it, so its promise resolves when the drain has run up to its
    first [await] only.  [savePlayerDiamondsRobust] above is the world once
    that drain has finished; what follows is the world at the moment the
    promise resolves. *)

(** The loop of [processFailedSavesQueue] up to its first [await]: entries
    that are not due are passed over; at the first one that is due the
    entry and [retryAttempts] are updated and [savePlayerDiamondsRobust] is
    entered, which counts the attempt, reads the clock and starts its three
    saves, of which [savePlayerDiamondsPrimary] takes the write mutex.
    [Return true]: the loop is suspended there; [Return false]: it has
    gone through the queue. *)
Fixpoint startDrainFrom (d : DrainEnv) (k : nat) (w : World) : World * Completion bool :=
  match k with
  | O => (w, Return false)
  | S i =>
      match failedSavesQueue w !! i with
      | None =>
          (w, Throw (ErrorObj "Cannot read properties of undefined (reading 'lastAttempt')"))
      | Some failedSave =>
          if bool_decide (drain_now d - lastAttempt failedSave < 5000)
          then startDrainFrom d i w
          else
            let retried :=
              mkFailedSave (fs_address failedSave) (fs_name failedSave)
                (fs_diamonds failedSave) (S (attempts failedSave)) (drain_now d) in
            let w1 := with_queue (<[i := retried]> (failedSavesQueue w)) w in
            let w2 := countRetry w1 in
            let w3 := countAttempt (save_now (retryEnv d i)) w2 in
            (with_writeMutex true w3, Return true)
      end
  end.

(** [processFailedSavesQueue()] up to its first [await] *)
Definition startDrain (d : DrainEnv) (w : World) : World :=
  if isProcessingQueue w || bool_decide (length (failedSavesQueue w) = 0%nat)
  then w
  else
    let w1 := with_isProcessingQueue true w in
    match startDrainFrom d (length (failedSavesQueue w1)) w1 with
    | (w2, Return true) => w2
    | (w2, Return false) => with_isProcessingQueue false w2
    | (w2, Throw _) => w2
    end.

(** The world when the promise of [savePlayerDiamondsRobust] resolves. *)
Definition savePlayerDiamondsRobustReturns (e : SaveEnv) (d : DrainEnv)
    (address name : string) (diamonds : Z) (w : World) : World :=
  (saveWith (startDrain d) e address name diamonds w).1.

(** A drain is in flight: the flag and the write mutex are held, and one
    queued entry, the one being re-attempted, has [attempts = 1]. *)
Definition draining (w : World) : Prop :=
  isProcessingQueue w = true ∧ writeMutex w = true
  ∧ ∃ i failedSave,
      failedSavesQueue w !! i = Some failedSave ∧ attempts failedSave = 1%nat
      ∧ ∀ j other, j ≠ i → failedSavesQueue w !! j = Some other →
                   attempts other = 0%nat.

(** The counters while the write of a re-attempt is in flight: its attempt
    is counted, its outcome and its local save are not yet. *)
Definition accountedInFlight (m : SaveMetrics) : Prop :=
  (totalAttempts m = S (successfulSaves m + failedSaves m)
   ∧ retryAttempts m ≤ totalAttempts m
   ∧ totalAttempts m ≤ S (localBackupsUsed m))%nat.

End Robust.

(** ** shared-seed.ts *)

Module SharedSeed.

(** [deterministicRandom]: the new value of [sharedSeed] and the number
    returned.  The seed is a JavaScript number; for an integer seed in
    [0, 2^32) every intermediate value is an integer below 2^53, so the
    arithmetic on doubles is the arithmetic on integers, and the division
    by 2^32 is exact. *)
Definition nextSeed (sharedSeed : Z) : Z :=
  Z.rem (sharedSeed * 1664525 + 1013904223) 4294967296.

Definition deterministicRandom (sharedSeed : Z) : Z * Qc :=
  let sharedSeed := nextSeed sharedSeed in
  (sharedSeed, (Qc_of_Z sharedSeed / Qc_of_Z 4294967296)%Qc).

(** The seeds and the numbers of [n] successive calls. *)
Fixpoint draws (n : nat) (sharedSeed : Z) : Z * list Qc :=
  match n with
  | O => (sharedSeed, [])
  | S n =>
      let '(sharedSeed, value) := deterministicRandom sharedSeed in
      let '(last, values) := draws n sharedSeed in
      (last, value :: values)
  end.

End SharedSeed.

(** * Properties *)

(** ** retryWithBackoff *)

Section retry_facts.
Import Retry.
Context {T : Type}.
Implicit Types (answer : nat → Completion T).



End retry_facts.


(** ** The save leader *)

Section leader_facts.
Import Ghost.
Implicit Types (p : GhostProcess) (r : GhostRemote).

Lemma stillLeading_fresh now token τ :
  timestamp token = Some τ → now - τ < LEADER_TIMEOUT →
  stillLeading now (Some token) = true.
Proof. intros Hts Hage. unfold stillLeading. rewrite Hts. by apply bool_decide_eq_true. Qed.

Lemma stillLeading_expired now token τ :
  timestamp token = Some τ → now - τ >= LEADER_TIMEOUT →
  stillLeading now (Some token) = false.
Proof.
  intros Hts Hage. unfold stillLeading. rewrite Hts.
  apply bool_decide_eq_false. lia.
Qed.

Lemma leaderPuts_app l1 l2 : leaderPuts (l1 ++ l2) = leaderPuts l1 ++ leaderPuts l2.
Proof. apply omap_app. Qed.

(** C5, amended.  What decides an attempt is what its read of the token
    returns.  When the read is answered ok with a token whose [now - τ] is
    below 30000, the attempt fails: it returns [false], sends no PUT,
    leaves the process as it was and the token in place.  When the read
    returns no token, because the backend holds none or because the
    response is not ok (whatever the backend holds), or returns a token
    with [now - τ >= 30000] or without a timestamp, the attempt sends one
    PUT of a token whose [leaderId] and [timestamp] are the clock's
    readings at that moment; it wins exactly when the PUT is accepted, and
    then the process leads and the backend holds the new token.  When the
    read is rejected or its body does not parse, the attempt fails without
    a PUT. *)
Theorem becomeLeader_lease (e : AcquireEnv) p r :
  (∀ token τ,
      readLeader e = ROk → ghostSaveLeader r = Some token →
      timestamp token = Some τ →
      now_age e - τ < LEADER_TIMEOUT →
      ∃ r', becomeLeader e p r = (p, r', false)
            ∧ ghostSaveLeader r' = Some token
            ∧ leaderPuts (sent r') = leaderPuts (sent r))
  ∧ (readLeader e = RNotOk
     ∨ (readLeader e = ROk
        ∧ (ghostSaveLeader r = None
           ∨ ∃ token, ghostSaveLeader r = Some token
                      ∧ (timestamp token = None
                         ∨ ∃ τ, timestamp token = Some τ
                                ∧ now_age e - τ >= LEADER_TIMEOUT))) →
      let fresh := mkLeaderToken (now_id e) (Some (now_timestamp e)) in
      ∃ p' r' won,
        becomeLeader e p r = (p', r', won)
        ∧ leaderPuts (sent r') = leaderPuts (sent r) ++ [fresh]
        ∧ won = accepted (writeLeader e)
        ∧ (accepted (writeLeader e) = true →
             isLeader p' = true ∧ ghostSaveLeader r' = Some fresh)
        ∧ (accepted (writeLeader e) = false →
             p' = p ∧ ghostSaveLeader r' = ghostSaveLeader r))
  ∧ ((∃ err, readLeader e = RRejected err) ∨ readLeader e = RBadJson →
      ∃ r', becomeLeader e p r = (p, r', false)
            ∧ ghostSaveLeader r' = ghostSaveLeader r
            ∧ leaderPuts (sent r') = leaderPuts (sent r)).
Proof.
  split; [|split].
  - intros token τ Hread Htoken Hts Hage. unfold becomeLeader.
    rewrite Hread, Htoken. cbn [fetched].
    rewrite (stillLeading_fresh _ _ _ Hts Hage).
    eexists. split; [reflexivity|]. cbn. split; [done|].
    rewrite leaderPuts_app. cbn. by rewrite app_nil_r.
  - intros Hfree fresh.
    assert (∃ currentLeader,
              fetched (readLeader e) (ghostSaveLeader r) = Some currentLeader
              ∧ stillLeading (now_age e) currentLeader = false)
      as (currentLeader & Hread & Hstill).
    { destruct Hfree as [->|[-> [->|(token & -> & [Hts|(τ & Hts & Hage)])]]].
      - by exists None.
      - by exists None.
      - exists (Some token). split; [done|]. unfold stillLeading. by rewrite Hts.
      - exists (Some token). split; [done|]. by eapply stillLeading_expired. }
    unfold becomeLeader. rewrite Hread, Hstill.
    destruct (writeLeader e) as [err|[] status text]; cbn;
      do 3 eexists; (split; [reflexivity|]); cbn;
      rewrite !leaderPuts_app; cbn; rewrite app_nil_r;
      (split; [done|]); (split; [done|]); split; intros; by simplify_eq.
  - intros Hfailed. unfold becomeLeader.
    assert (fetched (readLeader e) (ghostSaveLeader r) = None) as ->.
    { by destruct Hfailed as [[err ->]| ->]. }
    eexists. split; [reflexivity|]. cbn. split; [done|].
    rewrite leaderPuts_app. cbn. by rewrite app_nil_r.
Qed.

Lemma becomeLeader_lease_witness :
  (∃ r', becomeLeader (attemptAt 5000) following heldRemote = (following, r', false)
         ∧ ghostSaveLeader r' = Some heldToken
         ∧ leaderPuts (sent r') = leaderPuts (sent heldRemote))
  ∧ ∃ p' r' won,
      becomeLeader (attemptAt 61000) following heldRemote = (p', r', won)
      ∧ leaderPuts (sent r')
        = leaderPuts (sent heldRemote) ++ [mkLeaderToken 61000 (Some 61000)]
      ∧ won = true
      ∧ (true = true →
         isLeader p' = true ∧ ghostSaveLeader r' = Some (mkLeaderToken 61000 (Some 61000)))
      ∧ (true = false → p' = following ∧ ghostSaveLeader r' = Some heldToken).
Proof.
  split.
  - apply (proj1 (becomeLeader_lease (attemptAt 5000) following heldRemote) heldToken 1000);
      [reflexivity|reflexivity|reflexivity|]. vm_compute. reflexivity.
  - apply (proj1 (proj2 (becomeLeader_lease (attemptAt 61000) following heldRemote))).
    right. split; [reflexivity|]. right. exists heldToken. split; [reflexivity|].
    right. exists 1000. split; [reflexivity|]. vm_compute. discriminate.
Defined.

(** C5 as stated fails: the token on the backend is 4 s old when the
    attempt is made, the attempt's read is answered 503, and the attempt
    puts its own token and wins. *)
Lemma becomeLeader_over_unexpired_token :
  ghostSaveLeader heldRemote = Some (mkLeaderToken 1000 (Some 1000))
  ∧ now_age (unreadAt 5000) - 1000 < LEADER_TIMEOUT
  ∧ readLeader (unreadAt 5000) = RNotOk
  ∧ (becomeLeader (unreadAt 5000) following heldRemote).2 = true
  ∧ isLeader (becomeLeader (unreadAt 5000) following heldRemote).1.1 = true
  ∧ ghostSaveLeader (becomeLeader (unreadAt 5000) following heldRemote).1.2
    = Some (mkLeaderToken 5000 (Some 5000)).
Proof. vm_compute. done. Qed.

(** C6.  A renewal step run by a process that leads leaves [isLeader] set,
    whatever happens to its PUT.  When the PUT is not accepted the token in
    the backend stays as it was, and the process goes on answering
    [shouldSavePositions] as a leader does. *)
Theorem renewal_never_demotes (e : RenewEnv) p r :
  isLeader p = true →
  isLeader (checkAndRenewLeadership e p r).1 = true
  ∧ (accepted (renewPut e) = false →
       ghostSaveLeader (checkAndRenewLeadership e p r).2 = ghostSaveLeader r)
  ∧ ∀ currentTime,
      shouldSavePositions currentTime (checkAndRenewLeadership e p r).1
      = bool_decide (currentTime - lastSaveTime p >= SAVE_INTERVAL).
Proof.
  intros Hlead. unfold checkAndRenewLeadership. rewrite Hlead. cbn [negb].
  case_bool_decide.
  - destruct (accepted (renewPut e)) eqn:Hput; cbn; unfold shouldSavePositions; cbn;
      rewrite Hlead; done.
  - cbn. unfold shouldSavePositions. rewrite Hlead. done.
Qed.

Lemma renewal_never_demotes_witness :
  isLeader (checkAndRenewLeadership failedRenewal leading heldRemote).1 = true
  ∧ ghostSaveLeader (checkAndRenewLeadership failedRenewal leading heldRemote).2
    = Some heldToken.
Proof.
  destruct (renewal_never_demotes failedRenewal leading heldRemote eq_refl)
    as (Hflag & Htoken & _).
  split; [exact Hflag | exact (Htoken eq_refl)].
Defined.
End leader_facts.

(** ** The batch writer *)

Section batch_facts.
Import Ghost.
Implicit Types (p : GhostProcess) (r : GhostRemote) (positions : list Vector3).
Local Open Scope nat_scope.

Lemma ceilDiv_spec n : n ≤ BATCH_SIZE * ceilDiv n BATCH_SIZE
                       ∧ (0 < n → BATCH_SIZE * (ceilDiv n BATCH_SIZE - 1) < n).
Proof.
  unfold ceilDiv, BATCH_SIZE.
  pose proof (Nat.div_mod_eq (n + 50 - 1) 50).
  pose proof (Nat.mod_upper_bound (n + 50 - 1) 50). lia.
Qed.

Lemma buildBatch_keys now positions start end_ :
  end_ ≤ length positions →
  (buildBatch now positions start end_).*1 = ghostKey <$> seq start (end_ - start).
Proof.
  intros Hend. unfold buildBatch.
  assert (∀ i, i ∈ seq start (end_ - start) → i < length positions) as Hin.
  { intros i Hi. apply elem_of_seq in Hi. lia. }
  induction (seq start (end_ - start)) as [|i l IH]; [done|].
  cbn. destruct (lookup_lt_is_Some_2 positions i) as [pos Hpos].
  { apply Hin. left. }
  rewrite Hpos. cbn. f_equal. apply IH. intros j Hj. apply Hin. by right.
Qed.

Lemma concat_fmap {A B} (f : A → B) (ls : list (list A)) :
  concat (fmap (M:=list) f <$> ls) = f <$> concat ls.
Proof. induction ls as [|l ls IH]; [done|]. cbn. by rewrite fmap_app, IH. Qed.

Lemma patchBodies_app l1 l2 : patchBodies (l1 ++ l2) = patchBodies l1 ++ patchBodies l2.
Proof. apply omap_app. Qed.

Lemma patchBodies_patches bodies : patchBodies (PatchPositions <$> bodies) = bodies.
Proof. induction bodies as [|b l IH]; [done|]. cbn. by f_equal. Qed.

Lemma saveBatches_sent e positions batches p r :
  (∀ b err, b ∈ batches → patch e b ≠ WRejected err) →
  ∃ p' r',
    saveBatches e positions batches p r = (p', r', true)
    ∧ isLeader p' = isLeader p
    ∧ sent r' = sent r ++ (PatchPositions <$> (batchOf (batch_now e) positions <$> batches)).
Proof.
  revert p r. induction batches as [|b rest IH]; intros p r Hans.
  - exists p, r. cbn. by rewrite app_nil_r.
  - cbn [saveBatches].
    assert (∀ b' err, b' ∈ rest → patch e b' ≠ WRejected err) as Hrest.
    { intros b' err Hb'. apply Hans. by right. }
    destruct (patch e b) as [err|[] status text] eqn:Hb.
    + exfalso. eapply (Hans b err); [left|done].
    + edestruct (IH (with_positions
                       (assign (ghostPositionsData p) (batchOf (batch_now e) positions b)) p)
                    (patchPositions (batchOf (batch_now e) positions b)
                       (send (PatchPositions (batchOf (batch_now e) positions b)) r)) Hrest)
        as (p' & r' & Heq & Hlead & Hsent).
      exists p', r'. unfold batchOf in *. rewrite Heq. split; [done|]. split; [done|].
      rewrite Hsent. cbn. by rewrite <- app_assoc.
    + edestruct (IH p (send (PatchPositions (batchOf (batch_now e) positions b)) r) Hrest)
        as (p' & r' & Heq & Hlead & Hsent).
      exists p', r'. unfold batchOf in *. rewrite Heq. split; [done|]. split; [done|].
      rewrite Hsent. cbn. by rewrite <- app_assoc.
Qed.

Lemma ranges_cover k n :
  n ≤ BATCH_SIZE * k →
  concat ((λ b, seq (b * BATCH_SIZE)
                  (Nat.min (b * BATCH_SIZE + BATCH_SIZE) n - b * BATCH_SIZE)) <$> seq 0 k)
  = seq 0 n.
Proof.
  revert n. induction k as [|k IH]; intros n Hn.
  - assert (n = 0) as -> by lia. done.
  - rewrite seq_S, fmap_app, concat_app. cbn [fmap list_fmap concat]. rewrite app_nil_r.
    transitivity (seq 0 (Nat.min n (BATCH_SIZE * k))
                  ++ seq (k * BATCH_SIZE)
                       (Nat.min (k * BATCH_SIZE + BATCH_SIZE) n - k * BATCH_SIZE)).
    + f_equal. rewrite <- (IH (Nat.min n (BATCH_SIZE * k))) by lia.
      f_equal. apply list_fmap_ext. intros i b Hb.
      apply lookup_seq in Hb as [-> Hb]. cbn.
      f_equal. unfold BATCH_SIZE in *. lia.
    + unfold BATCH_SIZE in *. destruct (decide (n ≤ 50 * k)).
      * replace (Nat.min (k * 50 + 50) n - k * 50) with 0 by lia.
        rewrite app_nil_r. f_equal. lia.
      * replace (Nat.min n (50 * k)) with (k * 50) by lia.
        replace (Nat.min (k * 50 + 50) n - k * 50) with (n - k * 50) by lia.
        transitivity (seq 0 (k * 50 + (n - k * 50))); [by rewrite seq_app|].
        f_equal. lia.
Qed.

Lemma saveBatches_cut e positions pre k post p r err :
  (∀ b err', b ∈ pre → patch e b ≠ WRejected err') →
  patch e k = WRejected err →
  ∃ p' r',
    saveBatches e positions (pre ++ k :: post) p r = (p', r', false)
    ∧ lastSaveTime p' = lastSaveTime p
    ∧ sent r'
      = sent r ++ (PatchPositions <$> (batchOf (batch_now e) positions <$> (pre ++ [k]))).
Proof.
  intros Hpre Hk. revert p r. induction pre as [|b pre IH]; intros p r.
  - cbn [app saveBatches]. rewrite Hk. by eexists _, _.
  - cbn [app saveBatches].
    assert (∀ b' err', b' ∈ pre → patch e b' ≠ WRejected err') as Hrest.
    { intros b' err' Hb'. apply Hpre. by right. }
    specialize (IH Hrest).
    destruct (patch e b) as [err'|[] status text] eqn:Hb.
    + exfalso. eapply (Hpre b err'); [left|done].
    + edestruct (IH (with_positions
                       (assign (ghostPositionsData p) (batchOf (batch_now e) positions b)) p)
                    (patchPositions (batchOf (batch_now e) positions b)
                       (send (PatchPositions (batchOf (batch_now e) positions b)) r)))
        as (p' & r' & Heq & Htime & Hsent).
      exists p', r'. unfold batchOf in *. rewrite Heq. split; [done|]. split; [done|].
      rewrite Hsent. cbn. by rewrite <- app_assoc.
    + edestruct (IH p (send (PatchPositions (batchOf (batch_now e) positions b)) r))
        as (p' & r' & Heq & Htime & Hsent).
      exists p', r'. unfold batchOf in *. rewrite Heq. split; [done|]. split; [done|].
      rewrite Hsent. cbn. by rewrite <- app_assoc.
Qed.

(** C7, amended.  When the process leads, [saveGhostPositions] given [n]
    positions goes through [ceil(n/50)] batches; batch [b] carries the keys
    [ghost_i] for [i] from [50 b] to [min (50 b + 50, n) - 1], at most 50 of
    them, and the batches together carry every index below [n] once, in
    order; for 120 positions these are the indexes 0..49, 50..99 and
    100..119.  When no PATCH request is rejected (responses that are not ok
    are allowed) exactly these requests are sent.  When the request of
    batch [k] is the first to be rejected, the requests of the batches 0 to
    [k] are sent and no other: the save ends there, and [lastSaveTime] is
    left as it was. *)
Theorem saveGhostPositions_batches (e : BatchEnv) positions p r :
  isLeader p = true →
  let n := length positions in
  let bodies := batchOf (batch_now e) positions <$> seq 0 (ceilDiv n BATCH_SIZE) in
  ((∀ b err, b < ceilDiv n BATCH_SIZE → patch e b ≠ WRejected err) →
     patchBodies (sent (saveGhostPositions e positions p r).2)
     = patchBodies (sent r) ++ bodies)
  ∧ (∀ k err, k < ceilDiv n BATCH_SIZE → patch e k = WRejected err →
       (∀ b err', b < k → patch e b ≠ WRejected err') →
       patchBodies (sent (saveGhostPositions e positions p r).2)
       = patchBodies (sent r) ++ take (S k) bodies
       ∧ length (take (S k) bodies) = S k
       ∧ lastSaveTime (saveGhostPositions e positions p r).1 = lastSaveTime p)
  ∧ length bodies = ceilDiv n BATCH_SIZE
  ∧ (∀ b, b < ceilDiv n BATCH_SIZE →
       keys <$> bodies !! b
       = Some (ghostKey <$> seq (b * 50) (Nat.min (b * 50 + 50) n - b * 50))
       ∧ Nat.min (b * 50 + 50) n - b * 50 ≤ 50)
  ∧ concat (keys <$> bodies) = ghostKey <$> seq 0 n
  ∧ (n = 120 →
       keys <$> bodies
       = [ghostKey <$> seq 0 50; ghostKey <$> seq 50 50; ghostKey <$> seq 100 20]).
Proof.
  intros Hlead n bodies.
  assert (∀ b, keys (batchOf (batch_now e) positions b)
               = ghostKey <$> seq (b * 50) (Nat.min (b * 50 + 50) n - b * 50)) as Hkeys.
  { intros b. unfold keys, batchOf, BATCH_SIZE. rewrite buildBatch_keys. 2: lia. done. }
  split; [|split; [|split; [|split; [|split]]]].
  - intros Hans. unfold saveGhostPositions. rewrite Hlead. cbn [negb].
    destruct (saveBatches_sent e positions (seq 0 (ceilDiv n BATCH_SIZE)) p r)
      as (p' & r' & Heq & _ & Hsent).
    { intros b err Hb. apply Hans. apply elem_of_seq in Hb. unfold n in *. lia. }
    fold n. rewrite Heq. cbn [snd]. rewrite Hsent, patchBodies_app. f_equal.
    apply patchBodies_patches.
  - intros k err Hk Hrej Hbefore.
    assert (seq 0 (ceilDiv n BATCH_SIZE)
            = seq 0 k ++ k :: seq (S k) (ceilDiv n BATCH_SIZE - S k)) as Hsplit.
    { replace (ceilDiv n BATCH_SIZE) with (k + S (ceilDiv n BATCH_SIZE - S k)) at 1 by lia.
      by rewrite seq_app. }
    assert (take (S k) bodies = batchOf (batch_now e) positions <$> (seq 0 k ++ [k]))
      as Htake.
    { unfold bodies. rewrite <- fmap_take, take_seq, <- seq_S. f_equal. f_equal. lia. }
    destruct (saveBatches_cut e positions (seq 0 k) k
                (seq (S k) (ceilDiv n BATCH_SIZE - S k)) p r err)
      as (p' & r' & Heq & Htime & Hsent); [|done|].
    { intros b err' Hb%elem_of_seq. apply Hbefore. lia. }
    unfold saveGhostPositions. rewrite Hlead. cbn [negb]. fold n.
    rewrite Hsplit, Heq. cbn [fst snd]. rewrite Hsent, patchBodies_app, Htake.
    split; [f_equal; apply patchBodies_patches|]. split; [|done].
    rewrite length_fmap, length_app, length_seq. cbn. lia.
  - unfold bodies. by rewrite length_fmap, length_seq.
  - intros b Hb. split; [|lia]. unfold bodies.
    rewrite list_lookup_fmap, lookup_seq_lt by done.
    cbn [fmap option_fmap option_map Nat.add]. by rewrite Hkeys.
  - rewrite <- (ranges_cover (ceilDiv n BATCH_SIZE) n) by apply ceilDiv_spec.
    rewrite <- concat_fmap. f_equal. unfold bodies.
    rewrite <- !list_fmap_compose. apply list_fmap_ext. intros i b _. cbn.
    apply Hkeys.
  - intros Hn. unfold bodies. rewrite Hn.
    change (ceilDiv 120 BATCH_SIZE) with 3. cbn [seq fmap list_fmap].
    rewrite !Hkeys, Hn. reflexivity.
Qed.

Lemma saveGhostPositions_batches_witness :
  keys <$> patchBodies (sent (saveGhostPositions (online 7000) ghosts120 leading noRemote).2)
  = [ghostKey <$> seq 0 50; ghostKey <$> seq 50 50; ghostKey <$> seq 100 20]
  ∧ keys <$> patchBodies
               (sent (saveGhostPositions (cutSecond 7000) ghosts120 leading noRemote).2)
    = [ghostKey <$> seq 0 50; ghostKey <$> seq 50 50].
Proof.
  destruct (saveGhostPositions_batches (online 7000) ghosts120 leading noRemote eq_refl)
    as (Hsent & _ & _ & _ & _ & H120).
  destruct (saveGhostPositions_batches (cutSecond 7000) ghosts120 leading noRemote eq_refl)
    as (_ & Hcut & _).
  split.
  - rewrite Hsent; [exact (H120 eq_refl)|]. intros b err _. discriminate.
  - destruct (Hcut 1 (ErrorObj "Failed to fetch")) as (Hsent' & _ & _).
    + vm_compute. lia.
    + reflexivity.
    + intros b err' Hb. assert (b = 0) as -> by lia. discriminate.
    + rewrite Hsent'. vm_compute. reflexivity.
Defined.

(** C7 as stated fails: a leader given 120 positions whose first PATCH is
    rejected sends one request, not [ceil(120/50) = 3]; the [catch] around
    the loop ends the save. *)
Lemma saveGhostPositions_rejected_patch :
  isLeader leading = true
  ∧ length ghosts120 = 120
  ∧ ceilDiv 120 BATCH_SIZE = 3
  ∧ keys <$> patchBodies (sent (saveGhostPositions (cutOff 7000) ghosts120 leading noRemote).2)
    = [ghostKey <$> seq 0 50].
Proof. vm_compute. done. Qed.
End batch_facts.


(** ** Diamond states *)

Section diamond_state_facts.
Import DiamondStates.
Implicit Types (p : StatesProcess) (r : StatesRemote) (e : PutEnv).

(** The map in memory after [saveDiamondState], for any answer to the PUT. *)
Lemma saveDiamondState_memory e index newState data p r playerId :
  playerSet p = Some playerId →
  getDiamondState index (saveDiamondState e index newState data p r).1.1
  = Some (merge (default (defaultState (now_spawned e) (now_expires e))
                   (getDiamondState index p)) data newState).
Proof.
  intros Hplayer. unfold saveDiamondState. rewrite Hplayer.
  destruct (put e) as [err|ok status text]; cbn;
    unfold getDiamondState; cbn; by rewrite lookup_insert_eq.
Qed.

(** C10.  With a current player set, [saveDiamondState] stores the merged
    document in memory, sends that very document in its PUT, and returns
    whether the PUT was accepted.  The merged document has the new [state];
    each other field is the one of the partial object when the partial
    object has it, and otherwise the one of the document loaded for the
    index, or of the default document when none is loaded.  When the PUT is
    not accepted, the call returns [false], the backend is unchanged, and
    [getDiamondState] still returns the merged document. *)
Theorem saveDiamondState_not_rolled_back e index newState data p r playerId :
  playerSet p = Some playerId →
  let current :=
    match getDiamondState index p with
    | Some loaded => loaded
    | None =>
        mkDiamondState available None None (mkVector3 0 0 0) (now_spawned e) None None
          None 0%float None (now_expires e + 600000) None
    end in
  let merged :=
    merge (default (defaultState (now_spawned e) (now_expires e))
             (getDiamondState index p)) data newState in
  let '(p', r', ok) := saveDiamondState e index newState data p r in
  getDiamondState index p' = Some merged
  ∧ state merged = newState
  ∧ (collectedBy merged
       = match p_collectedBy data with Some v => v | None => collectedBy current end
     ∧ collectedAt merged
       = match p_collectedAt data with Some v => v | None => collectedAt current end
     ∧ spawnPosition merged
       = match p_spawnPosition data with Some v => v | None => spawnPosition current end
     ∧ spawnedAt merged
       = match p_spawnedAt data with Some v => v | None => spawnedAt current end
     ∧ dropPosition merged
       = match p_dropPosition data with Some v => v | None => dropPosition current end
     ∧ droppedAt merged
       = match p_droppedAt data with Some v => v | None => droppedAt current end
     ∧ droppedBy merged
       = match p_droppedBy data with Some v => v | None => droppedBy current end
     ∧ collectTimer merged
       = match p_collectTimer data with Some v => v | None => collectTimer current end
     ∧ collectTimerStartedAt merged
       = match p_collectTimerStartedAt data with
         | Some v => v | None => collectTimerStartedAt current end
     ∧ expiresAt merged
       = match p_expiresAt data with Some v => v | None => expiresAt current end
     ∧ respawnCount merged
       = match p_respawnCount data with Some v => v | None => respawnCount current end)
  ∧ puts r' = puts r ++ [(playerId, diamondKey index, merged)]
  ∧ ok = accepted (put e)
  ∧ (accepted (put e) = false →
       ok = false ∧ diamonds r' = diamonds r ∧ getDiamondState index p' = Some merged).
Proof.
  intros Hplayer current merged.
  assert (default (defaultState (now_spawned e) (now_expires e))
            (getDiamondState index p) = current) as Hcurrent.
  { subst current. by destruct (getDiamondState index p). }
  assert (merged = merge current data newState) as Hmerged
    by (subst merged; by rewrite Hcurrent).
  pose proof (saveDiamondState_memory e index newState data p r playerId Hplayer) as Hmem.
  fold merged in Hmem.
  assert (puts (saveDiamondState e index newState data p r).1.2
          = puts r ++ [(playerId, diamondKey index, merged)]
          ∧ (saveDiamondState e index newState data p r).2 = accepted (put e)
          ∧ (accepted (put e) = false →
             diamonds (saveDiamondState e index newState data p r).1.2 = diamonds r))
    as (Hputs & Hok & Hkept).
  { unfold saveDiamondState. rewrite Hplayer.
    by destruct (put e) as [err|[] status text]. }
  destruct (saveDiamondState e index newState data p r) as [[p' r'] ok].
  cbn [fst snd] in *. split; [done|]. split; [done|]. split.
  - rewrite Hmerged. unfold merge, default. cbn. repeat split.
  - split; [done|]. split; [done|]. intros Hrefused.
    rewrite Hok, Hrefused. auto.
Qed.

Lemma saveDiamondState_not_rolled_back_witness :
  (saveDiamondState (refused 5000) 0 collectible (timerFields 30%float (Some 5000))
     newPlayer noDocuments).2 = false
  ∧ getDiamondState 0
      (saveDiamondState (refused 5000) 0 collectible
         (timerFields 30%float (Some 5000)) newPlayer noDocuments).1.1
    = Some (mkDiamondState collectible None None (mkVector3 0 0 0) 5000 None None None
              30%float (Some 5000) 605000 None)
  ∧ (collectTimer <$> getDiamondState 0
       (saveDiamondState (refused 5000) 0 collectible
          (timerFields 30%float (Some 5000)) newPlayer noDocuments).1.1)
    = Some 30%float.
Proof.
  pose proof (saveDiamondState_not_rolled_back (refused 5000) 0 collectible
                (timerFields 30%float (Some 5000)) newPlayer noDocuments "0xabc"
                eq_refl) as H.
  destruct (saveDiamondState _ _ _ _ _ _) as [[p' r'] ok].
  destruct H as (Hmem & _ & Hfields & _ & _ & Hfail).
  destruct (Hfail eq_refl) as (-> & _ & _). split; [reflexivity|].
  cbn [fst]. rewrite Hmem. split; [reflexivity|].
  cbn [fmap option_fmap option_map].
  destruct Hfields as (_ & _ & _ & _ & _ & _ & _ & -> & _). reflexivity.
Defined.

(** *** The collect timer *)

Lemma Math_max_zero (remaining : float) :
  ((0 <? remaining)%float = true → Math_max 0 remaining = remaining)
  ∧ ((remaining <=? 0)%float = true → Math_max 0 remaining = 0%float)
  ∧ (PrimFloat.is_nan remaining = true → Math_max 0 remaining = nan)
  ∧ (Math_max 0 remaining <? 0)%float = false.
Proof.
  unfold Math_max. change (PrimFloat.is_nan 0) with false. cbn [orb].
  change (PrimFloat.classify 0) with PZero.
  assert (PrimFloat.is_nan remaining = true → (0 <? remaining)%float = false
                                              ∧ (remaining <=? 0)%float = false) as Hnan.
  { unfold PrimFloat.is_nan.
    rewrite FloatAxioms.eqb_spec, FloatAxioms.ltb_spec, FloatAxioms.leb_spec.
    change (Prim2SF 0) with (S754_zero false).
    destruct (Prim2SF remaining) as [[]|[]| |[] m k]; cbn; try discriminate; try done.
    all: unfold SFeqb; cbn; rewrite ?Z.compare_refl, ?Pos.compare_cont_refl;
      discriminate. }
  assert ((0 <? remaining)%float = true → (remaining <? 0)%float = false
                                          ∧ (remaining <=? 0)%float = false) as Hpos.
  { rewrite !FloatAxioms.ltb_spec, FloatAxioms.leb_spec.
    change (Prim2SF 0) with (S754_zero false).
    by destruct (Prim2SF remaining) as [[]|[]| |[] m k]. }
  assert ((remaining <? 0)%float = true → (remaining <=? 0)%float = true) as Hneg.
  { rewrite !FloatAxioms.ltb_spec, FloatAxioms.leb_spec.
    change (Prim2SF 0) with (S754_zero false).
    by destruct (Prim2SF remaining) as [[]|[]| |[] m k]. }
  destruct (PrimFloat.is_nan remaining) eqn:Hn.
  { destruct (Hnan eq_refl) as [H1 H2]. rewrite H1, H2. done. }
  destruct (0 <? remaining)%float eqn:Hlt.
  { destruct (Hpos eq_refl) as [H1 H2]. rewrite H1, H2. done. }
  destruct (remaining <? 0)%float eqn:Hgt; done.
Qed.

Lemma getDiamondCollectTimer_started now index p doc t0 :
  getDiamondState index p = Some doc →
  collectTimerStartedAt doc = Some t0 → t0 ≠ 0 →
  getDiamondCollectTimer now index p
  = Math_max 0 (collectTimer doc - toNumber (now - t0) / 1000)%float.
Proof.
  intros Hdoc Hstart Hnz. unfold getDiamondCollectTimer. rewrite Hdoc, Hstart.
  cbn. by rewrite bool_decide_eq_false_2.
Qed.

(** C8, amended.  For a document with duration [collectTimer = d] and a
    start timestamp [t0] other than 0, reading the timer when the clock
    shows [t0 + Δ] ms computes, in double arithmetic, the quotient of [Δ]
    by 1000 and its difference from [d]: the result is that difference when
    it is above 0, it is 0 when the difference is 0 or below, and it is
    never below 0.  The elapsed time comes from the stored timestamp and
    the clock.  The same holds right after
    [startDiamondCollectTimer(index, d)] run at [t0].  Without a start
    timestamp, or with the timestamp 0, the result is 0. *)
Theorem collect_timer_resumes index p doc :
  getDiamondState index p = Some doc →
  (∀ t0 Δ, collectTimerStartedAt doc = Some t0 → t0 ≠ 0 →
      let remaining := (collectTimer doc - toNumber Δ / 1000)%float in
      let result := getDiamondCollectTimer (t0 + Δ) index p in
      ((0 <? remaining)%float = true → result = remaining)
      ∧ ((remaining <=? 0)%float = true → result = 0%float)
      ∧ (PrimFloat.is_nan remaining = true → result = nan)
      ∧ (result <? 0)%float = false)
  ∧ (∀ now, collectTimerStartedAt doc = None ∨ collectTimerStartedAt doc = Some 0 →
      getDiamondCollectTimer now index p = 0%float)
  ∧ (∀ e r d t0 Δ, is_Some (playerSet p) → t0 ≠ 0 →
      let remaining := (d - toNumber Δ / 1000)%float in
      let result :=
        getDiamondCollectTimer (t0 + Δ) index
          (startDiamondCollectTimer e t0 index d p r).1 in
      ((0 <? remaining)%float = true → result = remaining)
      ∧ ((remaining <=? 0)%float = true → result = 0%float)
      ∧ (PrimFloat.is_nan remaining = true → result = nan)
      ∧ (result <? 0)%float = false).
Proof.
  intros Hdoc. split; [|split].
  - intros t0 Δ Hstart Hnz. cbn zeta.
    rewrite (getDiamondCollectTimer_started _ _ _ _ _ Hdoc Hstart Hnz).
    replace (t0 + Δ - t0) with Δ by lia. apply Math_max_zero.
  - intros now Hnone. unfold getDiamondCollectTimer. rewrite Hdoc.
    by destruct Hnone as [-> | ->].
  - intros e r d t0 Δ [playerId Hplayer] Hnz. cbn zeta.
    unfold startDiamondCollectTimer, updateDiamondCollectTimer.
    set (phase := match getDiamondState index p with
                  | Some currentState => state currentState | None => hidden end).
    pose proof (saveDiamondState_memory e index phase
                  (timerFields d (Some t0)) p r playerId Hplayer) as Hmem.
    destruct (saveDiamondState e index phase (timerFields d (Some t0)) p r)
      as [[p' r'] ok].
    cbn [fst] in *. rewrite (getDiamondCollectTimer_started _ _ _ _ t0 Hmem); [|done|done].
    cbn [collectTimer merge timerFields p_collectTimer default].
    replace (t0 + Δ - t0) with Δ by lia. apply Math_max_zero.
Qed.

Lemma collect_timer_resumes_witness :
  getDiamondCollectTimer 17000 0 timedPlayer = 18%float
  ∧ getDiamondCollectTimer 35000 0 timedPlayer = 0%float.
Proof.
  destruct (collect_timer_resumes 0 timedPlayer timedDocument eq_refl) as (Hrun & _ & _).
  split.
  - destruct (Hrun 5000 12000 eq_refl ltac:(discriminate)) as (Habove & _).
    exact (Habove eq_refl).
  - destruct (Hrun 5000 30000 eq_refl ltac:(discriminate)) as (_ & Hbelow & _).
    exact (Hbelow eq_refl).
Defined.

(** C8 as stated fails.  A timer of 30 s whose persisted start timestamp
    is 0 reads 0 one second later, not 29.  And the value is the one of the
    double arithmetic: with 30 s started at 5000, the reading at 34999 is
    [0x1.0624dd2f1c000p-10], which is not the double nearest to
    [30 - 29.999 = 0.001]. *)
Lemma collect_timer_not_exact :
  getDiamondCollectTimer 1000 0 startedAtZero = 0%float
  ∧ (collectTimer <$> getDiamondState 0 startedAtZero) = Some 30%float
  ∧ getDiamondCollectTimer 34999 0 timedPlayer = (0x1.0624dd2f1c000p-10)%float
  ∧ (getDiamondCollectTimer 34999 0 timedPlayer =? 1 / 1000)%float = false.
Proof. vm_compute. done. Qed.
End diamond_state_facts.

(** ** The diamond counter *)

Section robust_facts.
Import Retry Robust.
Implicit Types (w : World) (e : SaveEnv) (d : DrainEnv) (l : LoadEnv).
Implicit Types (address name : string) (diamonds : Z).

(** *** The sub-saves *)

Lemma touched_refl {A} (count : A → Z) address diamonds (m : gmap string A) :
  touched count address diamonds m m.
Proof. by left. Qed.

Lemma touched_insert {A} (count : A → Z) address (m : gmap string A) data :
  touched count address (count data) m (<[address := data]> m).
Proof. right. by exists data. Qed.

Lemma collect_length {A} answer (doc : option A) src ts refs :
  collect answer doc src ts = Some refs → (length refs ≤ 1)%nat.
Proof.
  unfold collect. destruct answer, doc; intros; simplify_eq/=; lia.
Qed.

Lemma limitPlayerBackups_noop e address w : limitPlayerBackups e address w = w.
Proof.
  unfold limitPlayerBackups.
  destruct (collect (limitPrimary e) _ _ _) as [l1|] eqn:H1; [|done].
  destruct (collect (limitBackup e) _ _ _) as [l2|] eqn:H2; [|done].
  destruct (collect (limitGlobal e) _ _ _) as [l3|] eqn:H3; [|done].
  apply collect_length in H1, H2, H3.
  rewrite bool_decide_eq_false_2; [done|].
  rewrite (Permutation_length (merge_sort_Permutation newerFirst _)).
  rewrite !length_app. unfold MAX_BACKUPS_PER_PLAYER. lia.
Qed.

Lemma retryLoop_putPrimary e address data remaining attempt lastError w :
  let '(w', outcome) :=
    retryLoop (putPrimary e address data) (λ _ s, s) (λ s, s)
      MAX_RETRY_ATTEMPTS RETRY_DELAY_MS remaining attempt lastError w in
  (w' = w ∧ ∃ err, outcome = Throw err)
  ∨ (w' = with_primary (<[address := data]> (primary w)) w ∧ outcome = Return ()).
Proof.
  revert attempt lastError. induction remaining as [|remaining IH];
    intros attempt lastError; cbn [retryLoop].
  - left. eauto.
  - unfold putPrimary at 1.
    destruct (primaryPut e attempt) as [err|[] status text].
    + destruct (isTeardown err); [left; eauto|].
      destruct (attempt =? MAX_RETRY_ATTEMPTS)%nat; [left; eauto|]. apply IH.
    + right. done.
    + destruct (isTeardown _); [left; eauto|].
      destruct (attempt =? MAX_RETRY_ATTEMPTS)%nat; [left; eauto|]. apply IH.
Qed.

Lemma with_writeMutex_same w : with_writeMutex (writeMutex w) w = w.
Proof. by destruct w. Qed.

Lemma savePlayerDiamondsPrimary_spec e address name diamonds w :
  ∃ w' ok,
    savePlayerDiamondsPrimary e address name diamonds w = (w', ok)
    ∧ touched pd_diamonds address diamonds (primary w) (primary w')
    ∧ (ok = false → primary w' = primary w)
    ∧ w' = with_primary (primary w') w.
Proof.
  unfold savePlayerDiamondsPrimary. destruct (writeMutex w) eqn:Hmutex.
  { exists w, false. repeat split; [by left|by destruct w]. }
  set (data := mkPlayerDiamondData _ _ _ _ _ _).
  pose proof (retryLoop_putPrimary e address data MAX_RETRY_ATTEMPTS 1 Undefined
                (with_writeMutex true w)) as Hloop.
  unfold retryWithBackoff.
  destruct (retryLoop _ _ _ _ _ _ _ _ _) as [w2 outcome].
  destruct Hloop as [[-> [err ->]]|[-> ->]]; eexists _, _; (split; [reflexivity|]).
  - cbn. repeat split; [by left|]. destruct w; cbn in *; by subst.
  - cbn. split; [apply (touched_insert pd_diamonds)|]. split; [done|].
    destruct w; cbn in *; by subst.
Qed.

Lemma savePlayerDiamondsBackup_spec e address name diamonds w :
  ∃ w' ok,
    savePlayerDiamondsBackup e address name diamonds w = (w', ok)
    ∧ touched b_diamonds address diamonds (diamondBackups w) (diamondBackups w')
    ∧ (ok = false → diamondBackups w' = diamondBackups w)
    ∧ w' = with_backups (diamondBackups w') w.
Proof.
  unfold savePlayerDiamondsBackup.
  destruct (backupPut e) as [err|[] status text]; eexists _, _;
    (split; [reflexivity|]); cbn.
  - repeat split; [by left|by destruct w].
  - split; [apply (touched_insert b_diamonds)|]. split; [done|]. by destruct w.
  - repeat split; [by left|by destruct w].
Qed.

Lemma saveGlobalDiamondBackup_spec e address name diamonds w :
  ∃ w' ok,
    saveGlobalDiamondBackup e address name diamonds w = (w', ok)
    ∧ touched g_diamonds address diamonds (globalDiamondBackup w) (globalDiamondBackup w')
    ∧ (ok = false → globalDiamondBackup w' = globalDiamondBackup w)
    ∧ w' = with_global (globalDiamondBackup w') w.
Proof.
  unfold saveGlobalDiamondBackup.
  destruct (globalPatch e) as [err|[] status text]; eexists _, _;
    (split; [reflexivity|]); cbn.
  - repeat split; [by left|by destruct w].
  - split; [apply (touched_insert g_diamonds)|]. split; [done|]. by destruct w.
  - repeat split; [by left|by destruct w].
Qed.

(** *** The coordinated write *)

Lemma saveWith_spec e address name diamonds w :
  ∃ w6 (failedAll : bool),
    Saved (save_now e) address name diamonds w w6
    ∧ (failedAll = true →
         primary w6 = primary w ∧ diamondBackups w6 = diamondBackups w
         ∧ globalDiamondBackup w6 = globalDiamondBackup w)
    ∧ ∀ process, saveWith process e address name diamonds w
      = (if failedAll then
           if negb (isProcessingQueue w6) then process (enqueue e address name diamonds w6)
           else enqueue e address name diamonds w6
         else w6, Return true).
Proof.
  unfold saveWith.
  destruct (savePlayerDiamondsPrimary_spec e address name diamonds
              (countAttempt (save_now e) w)) as (w1 & r1 & -> & Ht1 & Hf1 & Hw1).
  destruct (savePlayerDiamondsBackup_spec e address name diamonds w1)
    as (w2 & r2 & -> & Ht2 & Hf2 & Hw2).
  destruct (saveGlobalDiamondBackup_spec e address name diamonds w2)
    as (w3 & r3 & -> & Ht3 & Hf3 & Hw3).
  rewrite limitPlayerBackups_noop.
  set (successCount := length (filter (λ r, r = true) [r1; r2; r3])).
  set (w6 := savePlayerDiamondsLocally _ _ _ _ _).
  exists w6, (bool_decide (successCount = 0%nat)).
  pose proof (f_equal diamondBackups Hw1) as Hb1.
  pose proof (f_equal globalDiamondBackup Hw1) as Hg1.
  pose proof (f_equal primary Hw2) as Hp2.
  pose proof (f_equal globalDiamondBackup Hw2) as Hg2.
  pose proof (f_equal primary Hw3) as Hp3.
  pose proof (f_equal diamondBackups Hw3) as Hb3.
  cbn in Hb1, Hg1, Hp2, Hg2, Hp3, Hb3.
  assert (Saved (save_now e) address name diamonds w w6) as Hsaved.
  { subst w6. constructor; cbn.
    - by rewrite Hw3, Hw2, Hw1.
    - by rewrite Hp3, Hp2.
    - by rewrite Hb3, <- Hb1.
    - by rewrite <- Hg1, <- Hg2.
    - by rewrite Hw3, Hw2, Hw1.
    - by rewrite Hw3, Hw2, Hw1.
    - rewrite Hw3, Hw2, Hw1. cbn. by case_bool_decide. }
  split; [done|]. split.
  - intros Hall%bool_decide_eq_true.
    assert (r1 = false ∧ r2 = false ∧ r3 = false) as (-> & -> & ->).
    { subst successCount. destruct r1, r2, r3; cbn in Hall; try done. }
    subst w6. cbn. rewrite Hp3, Hp2, Hf1, Hb3, Hf2, Hb1, Hf3, Hg2, Hg1 by done.
    done.
  - intros process. case_bool_decide; [|done]. cbn zeta.
    change (isProcessingQueue (with_queue _ w6)) with (isProcessingQueue w6).
    done.
Qed.

Lemma saveWith_returns process e address name diamonds w :
  (saveWith process e address name diamonds w).2 = Return true.
Proof.
  destruct (saveWith_spec e address name diamonds w) as (w6 & f & _ & _ & ->).
  done.
Qed.

(** *** What the sources and the queue hold *)

Lemma touched_lookup {A} (count : A → Z) address' diamonds (m m' : gmap string A)
    address v :
  touched count address' diamonds m m' →
  v ∈ count <$> option_list (m' !! address) →
  v ∈ count <$> option_list (m !! address) ∨ (address' = address ∧ v = diamonds).
Proof.
  intros [->|(data & Hcount & ->)] Hv; [by left|].
  destruct (decide (address' = address)) as [->|Hne].
  - rewrite lookup_insert_eq in Hv. cbn in Hv.
    apply list_elem_of_singleton in Hv. right. by subst.
  - rewrite lookup_insert_ne in Hv by done. by left.
Qed.

Lemma stored_saved now address' name diamonds w w6 address v :
  Saved now address' name diamonds w w6 →
  v ∈ stored address w6 →
  v ∈ stored address w ∨ (address' = address ∧ v = diamonds).
Proof.
  intros [Hl Hp Hb Hg _ _ _]. unfold stored. rewrite !elem_of_app.
  intros [Hv|[Hv|[Hv|Hv]]].
  - destruct (touched_lookup _ _ _ _ _ _ _ Hp Hv); auto.
  - destruct (touched_lookup _ _ _ _ _ _ _ Hb Hv); auto.
  - destruct (touched_lookup _ _ _ _ _ _ _ Hg Hv); auto.
  - rewrite Hl in Hv.
    destruct (touched_lookup l_diamonds address' diamonds (localDiamondStorage w) _
                address v (touched_insert l_diamonds address' _
                             (mkLocalDiamondData address' name diamonds now 2)) Hv);
      auto.
Qed.

Lemma local_saved now address' name diamonds w w6 address :
  Saved now address' name diamonds w w6 →
  (is_Some (localDiamondStorage w !! address) ∨ address' = address) →
  is_Some (localDiamondStorage w6 !! address).
Proof.
  intros [Hl _ _ _ _ _ _] Hsome. rewrite Hl.
  destruct (decide (address' = address)) as [->|Hne].
  - rewrite lookup_insert_eq. eauto.
  - rewrite lookup_insert_ne by done. by destruct Hsome.
Qed.

Lemma queued_app address w q :
  queued address (with_queue (failedSavesQueue w ++ q) w)
  = queued address w ++ (fs_diamonds <$> filter (λ fs, fs_address fs = address) q).
Proof. unfold queued. cbn. by rewrite filter_app, fmap_app. Qed.

Lemma follows_refl address extra w : follows address extra w w.
Proof. split; auto. Qed.

Lemma follows_trans address extra1 extra2 w1 w2 w3 :
  follows address extra1 w1 w2 → follows address extra2 w2 w3 →
  follows address (extra1 ++ extra2) w1 w3.
Proof.
  intros [H12 K12] [H23 K23]. split; [|auto].
  intros v Hv. rewrite (elem_of_app extra1).
  destruct (H23 v Hv) as [Hv2|?]; [destruct (H12 v Hv2) as [?|?]|]; tauto.
Qed.

Lemma follows_weaken address extra extra' w w' :
  (∀ v, v ∈ extra → v ∈ stored address w ++ queued address w ∨ v ∈ extra') →
  follows address extra w w' → follows address extra' w w'.
Proof.
  intros Hsub [H K]. split; [|done]. intros v Hv.
  destruct (H v Hv) as [?|Hx]; [tauto|]. destruct (Hsub v Hx); tauto.
Qed.

(** The values a write of [diamonds] for [address'] adds for [address]. *)
Lemma follows_saveWith process e address' name diamonds w address :
  (∀ s, follows address [] s (process s)) →
  follows address (if decide (address' = address) then [diamonds] else [])
    w (saveWith process e address' name diamonds w).1
  ∧ (address' = address →
     is_Some (localDiamondStorage (saveWith process e address' name diamonds w).1
                !! address)).
Proof.
  intros Hprocess.
  destruct (saveWith_spec e address' name diamonds w)
    as (w6 & failedAll & Hsaved & _ & ->). cbn [fst].
  assert (∀ v, address' = address ∧ v = diamonds →
               v ∈ (if decide (address' = address) then [diamonds] else [])) as Hextra.
  { intros v [-> ->]. rewrite decide_True by done. by left. }
  assert (∀ w', localDiamondStorage w' = localDiamondStorage w6 →
                stored address w' = stored address w6 →
                (∀ v, v ∈ queued address w' →
                      v ∈ queued address w6 ∨ (address' = address ∧ v = diamonds)) →
                follows address (if decide (address' = address) then [diamonds] else [])
                  w w'
                ∧ (address' = address → is_Some (localDiamondStorage w' !! address)))
    as Hgen.
  { intros w' Hloc Hst Hq. split; [split|].
    - intros v. rewrite !elem_of_app, Hst. intros [Hv|Hv].
      + destruct (stored_saved _ _ _ _ _ _ _ _ Hsaved Hv); auto.
      + destruct (Hq v Hv) as [Hv'|]; [|auto].
        unfold queued in Hv'. rewrite (saved_queue _ _ _ _ _ _ Hsaved) in Hv'. auto.
    - intros Hsome. rewrite Hloc. eapply local_saved; eauto.
    - intros Heq. rewrite Hloc. eapply local_saved; eauto. }
  destruct failedAll; [|apply Hgen; auto].
  assert (∀ v, v ∈ queued address (enqueue e address' name diamonds w6) →
               v ∈ queued address w6 ∨ (address' = address ∧ v = diamonds)) as Hq.
  { intros v. unfold enqueue. rewrite queued_app, elem_of_app. intros [|Hv]; [auto|].
    right. cbn in Hv. case_decide; [|by apply elem_of_nil in Hv].
    apply list_elem_of_singleton in Hv. done. }
  destruct (Hgen (enqueue e address' name diamonds w6)) as [Hf Hs]; [done..|].
  destruct (negb (isProcessingQueue w6)); [|done].
  destruct (Hprocess (enqueue e address' name diamonds w6)) as [Hp Hk]. split.
  - pose proof (follows_trans _ _ _ _ _ _ Hf (Hprocess _)) as H.
    by rewrite app_nil_r in H.
  - auto.
Qed.

Lemma elem_of_list_insert_inv {A} (l : list A) i x y :
  y ∈ <[i := x]> l → y = x ∨ y ∈ l.
Proof.
  intros [j Hj]%list_elem_of_lookup.
  apply list_lookup_insert_Some in Hj as [(_ & -> & _)|[_ Hj]]; [by left|].
  right. apply list_elem_of_lookup. eauto.
Qed.

Lemma queued_elem address w v :
  v ∈ queued address w ↔
  ∃ fs, fs ∈ failedSavesQueue w ∧ fs_address fs = address ∧ fs_diamonds fs = v.
Proof.
  unfold queued. rewrite list_elem_of_fmap. split.
  - intros (fs & -> & [Ha Hin]%list_elem_of_filter). eauto.
  - intros (fs & Hin & Ha & <-). exists fs. split; [done|].
    apply list_elem_of_filter. done.
Qed.

Lemma stored_with_queue address q w : stored address (with_queue q w) = stored address w.
Proof. done. Qed.

Lemma follows_queue address q w :
  (∀ fs, fs ∈ q → fs_address fs = address →
         ∃ fs', fs' ∈ failedSavesQueue w ∧ fs_address fs' = address
                ∧ fs_diamonds fs' = fs_diamonds fs) →
  follows address [] w (with_queue q w).
Proof.
  intros Hq. split; [|done]. intros v. rewrite stored_with_queue, !elem_of_app.
  intros [?|Hv]; [tauto|]. left. right.
  apply queued_elem in Hv as (fs & Hin & Ha & <-).
  apply queued_elem. destruct (Hq fs Hin Ha) as (fs' & ? & ? & ?). eauto.
Qed.

Lemma follows_retryEntry d i w address : follows address [] w (retryEntry d i w).1.
Proof.
  unfold retryEntry. destruct (failedSavesQueue w !! i) as [fs|] eqn:Hi;
    [|apply follows_refl].
  case_bool_decide as Hdue; [apply follows_refl|].
  set (retried := mkFailedSave _ _ _ _ _).
  set (w2 := countRetry _).
  assert (fs ∈ failedSavesQueue w) as Hfs by (apply list_elem_of_lookup; eauto).
  assert (follows address [] w w2) as H02.
  { subst w2. unfold countRetry.
    apply (follows_queue address (<[i := retried]> (failedSavesQueue w)) w).
    intros fs' [->|Hin]%elem_of_list_insert_inv Ha; eauto. }
  destruct (follows_saveWith (λ s, s) (retryEnv d i) (fs_address retried)
              (fs_name retried) (fs_diamonds retried) w2 address) as [H23 _].
  { intros s. apply follows_refl. }
  pose proof (saveWith_returns (λ s, s) (retryEnv d i) (fs_address retried)
                (fs_name retried) (fs_diamonds retried) w2) as Hret.
  destruct (saveWith _ _ _ _ _ w2) as [w3 outcome]. cbn in Hret, H23. subst outcome.
  cbn [fst].
  assert (follows address [] w3 (splice i w3)) as H34.
  { apply follows_queue. intros fs' Hin%list_elem_of_delete_inv Ha. eauto. }
  pose proof (follows_trans _ _ _ _ _ _ (follows_trans _ _ _ _ _ _ H02 H23) H34) as Hall.
  revert Hall. apply follows_weaken. cbn. rewrite app_nil_r.
  intros v Hv. left. case_decide as Ha; [|by apply elem_of_nil in Hv].
  apply list_elem_of_singleton in Hv as ->.
  apply elem_of_app. right. apply queued_elem. eauto.
Qed.

Lemma follows_drainFrom d k w address : follows address [] w (drainFrom d k w).1.
Proof.
  revert w. induction k as [|i IH]; intros w; [apply follows_refl|].
  cbn [drainFrom].
  pose proof (follows_retryEntry d i w address) as H1.
  destruct (retryEntry d i w) as [w1 [[]|err]]; cbn in H1; [|done].
  apply (follows_trans _ [] [] _ _ _ H1 (IH w1)).
Qed.

Lemma follows_flag address b w : follows address [] w (with_isProcessingQueue b w).
Proof. split; auto. Qed.

Lemma follows_processFailedSavesQueue d w address :
  follows address [] w (processFailedSavesQueue d w).1.
Proof.
  unfold processFailedSavesQueue.
  destruct (isProcessingQueue w || _); [apply follows_refl|].
  set (w1 := with_isProcessingQueue true w).
  pose proof (follows_drainFrom d (length (failedSavesQueue w1)) w1 address) as Hd.
  destruct (drainFrom _ _ _) as [w2 [[]|err]]; cbn in *.
  - apply (follows_trans _ [] [] _ _ _ (follows_flag _ true w)).
    apply (follows_trans _ [] [] _ _ _ Hd). apply follows_flag.
  - apply (follows_trans _ [] [] _ _ _ (follows_flag _ true w) Hd).
Qed.

Lemma follows_savePlayerDiamondsRobust e d address' name diamonds w address :
  follows address (if decide (address' = address) then [diamonds] else [])
    w (savePlayerDiamondsRobust e d address' name diamonds w).1
  ∧ (address' = address →
     is_Some (localDiamondStorage
                (savePlayerDiamondsRobust e d address' name diamonds w).1 !! address)).
Proof.
  apply follows_saveWith. intros s. apply follows_processFailedSavesQueue.
Qed.

Lemma follows_step s w address :
  follows address (written address [s]) w (step s w)
  ∧ (written address [s] ≠ [] → is_Some (localDiamondStorage (step s w) !! address)).
Proof.
  destruct s as [e d address' name diamonds|d]; cbn.
  - destruct (follows_savePlayerDiamondsRobust e d address' name diamonds w address)
      as [Hf Hs].
    case_bool_decide as Ha; rewrite ?decide_True, ?decide_False in Hf by done; auto.
    split; [done|]. by intros [].
  - split; [apply follows_processFailedSavesQueue|]. by intros [].
Qed.

Lemma written_app address steps1 steps2 :
  written address (steps1 ++ steps2) = written address steps1 ++ written address steps2.
Proof. apply omap_app. Qed.

Lemma follows_run steps w address :
  follows address (written address steps) w (run steps w)
  ∧ (written address steps ≠ [] → is_Some (localDiamondStorage (run steps w) !! address)).
Proof.
  induction steps as [|s steps IH] using rev_ind.
  - split; [apply follows_refl|done].
  - unfold run in *. rewrite foldl_app, written_app. cbn [foldl].
    destruct IH as [Hf Hs].
    destruct (follows_step s (foldl (λ s st, step st s) w steps) address) as [Hf' Hs'].
    split; [by eapply follows_trans|].
    intros Hne. destruct (written address [s]) as [|v l] eqn:Hw.
    + rewrite app_nil_r in Hne. destruct Hf' as [_ Hk]. auto.
    + by apply Hs'.
Qed.

(** *** The reconciled read *)

Lemma orZero_id v : orZero v = v.
Proof. unfold orZero. by case_bool_decide. Qed.

Lemma analyse_answered {A} answer (doc : option A) count (acc : list Z) :
  analyse (fetched answer doc) count acc
  = acc ++ filter (λ v, v > 0) (count <$> answered answer doc).
Proof.
  unfold analyse, answered.
  destruct (fetched answer doc) as [[data|]|]; cbn; rewrite ?app_nil_r; try done.
  rewrite orZero_id. case_bool_decide; case_decide; rewrite ?app_nil_r; done.
Qed.

Lemma gathered_readings l address w :
  gathered l address w = filter (λ v, v > 0) (readings l address w).
Proof.
  unfold gathered, readings, loadPlayerDiamondsLocally.
  rewrite !analyse_answered, !filter_app. cbn [app]. rewrite <- !app_assoc.
  do 3 f_equal.
  destruct (localDiamondStorage w !! address) as [localData|]; cbn.
  - case_bool_decide; case_decide; rewrite ?app_nil_r; done.
  - rewrite bool_decide_eq_false_2 by done. by rewrite app_nil_r.
Qed.

Lemma foldl_max_ge first rest : first ≤ foldl Z.max first rest.
Proof.
  revert first. induction rest as [|v rest IH]; intros first; cbn; [lia|].
  specialize (IH (Z.max first v)). lia.
Qed.

Lemma foldl_max_elem first rest :
  foldl Z.max first rest = first ∨ foldl Z.max first rest ∈ rest.
Proof.
  revert first. induction rest as [|v rest IH]; intros first; cbn; [by left|].
  destruct (IH (Z.max first v)) as [->|Hin].
  - destruct (Z.max_spec first v) as [[_ ->]|[_ ->]]; [right; left|by left].
  - right. by right.
Qed.

Lemma foldl_max_upper first rest v : v ∈ rest → v ≤ foldl Z.max first rest.
Proof.
  revert first. induction rest as [|v' rest IH]; intros first Hv; cbn.
  - by apply elem_of_nil in Hv.
  - apply elem_of_cons in Hv as [->|Hv]; [|by apply IH].
    pose proof (foldl_max_ge (Z.max first v') rest). lia.
Qed.

Lemma maxOf_elem (counts : list Z) : counts ≠ [] → maxOf counts ∈ counts.
Proof.
  destruct counts as [|first rest]; [done|]. intros _. cbn.
  destruct (foldl_max_elem first rest) as [->|Hin]; [left|by right].
Qed.

Lemma maxOf_upper (counts : list Z) v : v ∈ counts → v ≤ maxOf counts.
Proof.
  destruct counts as [|first rest]; [by intros ?%elem_of_nil|]. cbn.
  intros [->|Hv]%elem_of_cons; [apply foldl_max_ge|by apply foldl_max_upper].
Qed.

Lemma loadPlayerDiamondsRobust_max l address w :
  let result := loadPlayerDiamondsRobust l address w in
  let positive := filter (λ v, v > 0) (readings l address w) in
  (positive = [] → result = 0)
  ∧ (positive ≠ [] → result ∈ positive ∧ ∀ v, v ∈ positive → v ≤ result).
Proof.
  cbn zeta. unfold loadPlayerDiamondsRobust. rewrite gathered_readings.
  set (positive := filter _ _). split.
  - intros ->. done.
  - intros Hne. rewrite bool_decide_eq_false_2.
    + split; [by apply maxOf_elem|apply maxOf_upper].
    + by destruct positive.
Qed.

Lemma readings_stored l address w v :
  v ∈ readings l address w → v ∈ stored address w.
Proof.
  unfold readings, stored, answered. rewrite !elem_of_app.
  destruct (getPrimary l), (getBackup l), (getGlobal l); cbn;
    rewrite ?elem_of_nil; tauto.
Qed.

(** C1, amended.  The reconciled read returns the largest of the readings
    above 0 among those obtained from the primary record, the per-player
    backup, the global index and the local cache, and 0 when there is none.
    After writes for a player carrying values [v1..vn], all above 0, and any
    drains of the retry queue, run one after the other from a world that
    stores and queues nothing for that player, the reconciled read is one of
    [v1..vn]: at most their maximum, not always equal to it. *)
Theorem reconciled_read_after_writes :
  (∀ l address w,
      let result := loadPlayerDiamondsRobust l address w in
      let positive := filter (λ v, v > 0) (readings l address w) in
      (positive = [] → result = 0)
      ∧ (positive ≠ [] → result ∈ positive ∧ ∀ v, v ∈ positive → v ≤ result))
  ∧ (∀ steps address l w0,
      stored address w0 = [] → queued address w0 = [] →
      written address steps ≠ [] →
      Forall (λ v, v > 0) (written address steps) →
      loadPlayerDiamondsRobust l address (run steps w0) ∈ written address steps).
Proof.
  split; [apply loadPlayerDiamondsRobust_max|].
  intros steps address l w0 Hstored Hqueued Hne Hpos.
  destruct (follows_run steps w0 address) as [[Hin _] Hlocal].
  rewrite Hstored, Hqueued in Hin. specialize (Hlocal Hne).
  set (w := run steps w0) in *.
  assert (∀ v, v ∈ stored address w → v ∈ written address steps) as Hsub.
  { intros v Hv. destruct (Hin v) as [[]%elem_of_nil|]; [|done].
    apply elem_of_app. by left. }
  destruct (loadPlayerDiamondsRobust_max l address w) as [_ Hmax].
  destruct Hmax as [Hres _].
  - destruct Hlocal as [localData Hlocal].
    assert (l_diamonds localData ∈ readings l address w) as Hr.
    { unfold readings. rewrite Hlocal, !elem_of_app. cbn. do 3 right. left. }
    assert (l_diamonds localData > 0) as Hgt.
    { eapply (proj1 (Forall_forall _ _) Hpos). apply Hsub. unfold stored.
      rewrite Hlocal, !elem_of_app. cbn. do 3 right. left. }
    intros Hnil.
    assert (l_diamonds localData ∈ filter (λ v, v > 0) (readings l address w)) as Hf
      by (by apply list_elem_of_filter).
    rewrite Hnil in Hf. by apply elem_of_nil in Hf.
  - apply list_elem_of_filter in Hres as [_ Hres].
    by apply Hsub, (readings_stored l).
Qed.

Lemma reconciled_read_after_writes_witness :
  loadPlayerDiamondsRobust calmLoad "0xabc" (run twoWrites emptyWorld)
  ∈ written "0xabc" twoWrites.
Proof.
  apply (proj2 reconciled_read_after_writes twoWrites "0xabc" calmLoad emptyWorld).
  - reflexivity.
  - reflexivity.
  - discriminate.
  - repeat constructor.
Defined.

(** C1 as stated fails: after a write of 5 and then a write of 3, both
    accepted by every replica, all four sources hold 3 and the reconciled
    read returns 3, not [max(5, 3)].  Also, readings that are not zero but
    below it are left out: when every source holds -2 the read returns 0. *)
Lemma reconciled_read_below_max :
  (written "0xabc" twoWrites = [5; 3]
   ∧ loadPlayerDiamondsRobust calmLoad "0xabc" (run twoWrites emptyWorld) = 3
   ∧ loadPlayerDiamondsRobust calmLoad "0xabc" (run twoWrites emptyWorld)
     ≠ Z.max 5 3)
  ∧ (readings calmLoad "0xabc" holdingMinus2 = [-2; -2; -2; -2]
     ∧ loadPlayerDiamondsRobust calmLoad "0xabc" holdingMinus2 = 0).
Proof. vm_compute. repeat split; discriminate. Qed.

(** *** The caller's view of the coordinated write *)

(** C3.  Whatever the network answers, [savePlayerDiamondsRobust] returns
    [true] and does not throw.  It passes through a world [w6] in which the
    local cache holds the value under the address ([localBackupsUsed]
    counted once more) and ends in [w6], in [w6] with the write queued, or
    in that world after a drain of the queue; in each the local cache has
    an entry for the address. *)
Theorem savePlayerDiamondsRobust_always_true e d address name diamonds w :
  let '(w', outcome) := savePlayerDiamondsRobust e d address name diamonds w in
  outcome = Return true
  ∧ is_Some (localDiamondStorage w' !! address)
  ∧ ∃ w6,
      localDiamondStorage w6 !! address
      = Some (mkLocalDiamondData address name diamonds (save_now e) 2)
      ∧ localBackupsUsed (saveMetrics w6) = S (localBackupsUsed (saveMetrics w))
      ∧ (w' = w6
         ∨ w' = enqueue e address name diamonds w6
         ∨ w' = (processFailedSavesQueue d (enqueue e address name diamonds w6)).1).
Proof.
  pose proof (follows_savePlayerDiamondsRobust e d address name diamonds w address)
    as [_ Hlocal].
  unfold savePlayerDiamondsRobust in *.
  destruct (saveWith_spec e address name diamonds w)
    as (w6 & failedAll & Hsaved & _ & Heq).
  rewrite Heq in *. cbn [fst] in Hlocal.
  split; [done|]. split; [by apply Hlocal|].
  exists w6. split.
  { rewrite (saved_local _ _ _ _ _ _ Hsaved). apply lookup_insert_eq. }
  split; [apply (saved_used _ _ _ _ _ _ Hsaved)|].
  destruct failedAll; [|by left].
  destruct (negb (isProcessingQueue w6)); auto.
Qed.

Lemma savePlayerDiamondsRobust_always_true_witness :
  (savePlayerDiamondsRobust (down 1000) (downDrain 1000) "0xabc" "Ann" 5 emptyWorld).2
  = Return true
  ∧ is_Some (localDiamondStorage
               (savePlayerDiamondsRobust (down 1000) (downDrain 1000) "0xabc" "Ann" 5
                  emptyWorld).1 !! "0xabc").
Proof.
  pose proof (savePlayerDiamondsRobust_always_true (down 1000) (downDrain 1000)
                "0xabc" "Ann" 5 emptyWorld) as H.
  destruct (savePlayerDiamondsRobust _ _ _ _ _ _) as [w' outcome].
  destruct H as (Hout & Hlocal & _). split; [exact Hout|exact Hlocal].
Defined.

(** *** The integrity check *)

(** C9, amended.  [verifyDiamondIntegrity] returns the higher of the
    in-memory value and the reconciled read.  When the reconciled read is
    the higher one, the world is the one left by a coordinated write of it
    ([savePlayerDiamondsRobust], which addresses every replica and the
    local cache); when the in-memory value is the higher one, or the two
    agree, nothing is written. *)
Theorem verifyDiamondIntegrity_higher_wins l e d address name currentDiamonds w :
  let verified := loadPlayerDiamondsRobust l address w in
  let '(w', outcome) := verifyDiamondIntegrity l e d address name currentDiamonds w in
  outcome = Return (Z.max currentDiamonds verified)
  ∧ (verified > currentDiamonds →
       w' = (savePlayerDiamondsRobust e d address name verified w).1)
  ∧ (verified ≤ currentDiamonds → w' = w).
Proof.
  cbn zeta. unfold verifyDiamondIntegrity.
  set (verified := loadPlayerDiamondsRobust l address w).
  case_bool_decide as Hne.
  - case_bool_decide as Hgt.
    + replace (Z.max currentDiamonds verified) with verified by lia.
      pose proof (saveWith_returns (λ s, (processFailedSavesQueue d s).1) e address
                    name verified w) as Hret.
      unfold savePlayerDiamondsRobust.
      destruct (saveWith _ e address name verified w) as [w1 outcome].
      cbn in Hret. subst outcome. split; [done|]. split; [done|]. intros; lia.
    + split; [f_equal; lia|]. split; [intros; lia|done].
  - split; [f_equal; lia|]. split; [intros; lia|done].
Qed.

Lemma verifyDiamondIntegrity_higher_wins_witness :
  (verifyDiamondIntegrity calmLoad (calm 9000) (calmDrain 9000) "0xabc" "Ann" 2 holding3).2
  = Return 3
  ∧ (verifyDiamondIntegrity calmLoad (calm 9000) (calmDrain 9000) "0xabc" "Ann" 2
       holding3).1
    = (savePlayerDiamondsRobust (calm 9000) (calmDrain 9000) "0xabc" "Ann" 3 holding3).1.
Proof.
  pose proof (verifyDiamondIntegrity_higher_wins calmLoad (calm 9000) (calmDrain 9000)
                "0xabc" "Ann" 2 holding3) as H.
  destruct (verifyDiamondIntegrity _ _ _ _ _ _ _) as [w' outcome].
  destruct H as (Hout & Hwrite & _). split; [exact Hout|].
  apply Hwrite. reflexivity.
Defined.

(** C9 as stated fails: with 5 in memory and 3 in every source, the check
    returns 5 and leaves the world as it was; the sources still hold 3. *)
Lemma verifyDiamondIntegrity_no_write_back :
  loadPlayerDiamondsRobust calmLoad "0xabc" holding3 = 3
  ∧ verifyDiamondIntegrity calmLoad (calm 9000) (calmDrain 9000) "0xabc" "Ann" 5 holding3
    = (holding3, Return 5)
  ∧ stored "0xabc" holding3 = [3; 3; 3; 3].
Proof. vm_compute. done. Qed.

(** *** The retry queue *)

(** C2: what the code does.  A write of 5 made while the backend is down is
    queued with [attempts = 0].  The first drain re-attempts it, fails, and
    still removes the entry: [savePlayerDiamondsRobust] returned [true].
    The failed re-attempt has queued the payload again with [attempts = 0],
    so after four drains the write has been re-attempted four times and is
    still queued; the branch on [MAX_RETRY_ATTEMPTS] is never reached. *)
Theorem retry_queue_forgets_attempts :
  failedSavesQueue (run outage emptyWorld) = [mkFailedSave "0xabc" "Ann" 5 0 1000]
  ∧ failedSavesQueue (run (outage ++ take 1 fourDrains) emptyWorld)
    = [mkFailedSave "0xabc" "Ann" 5 0 7000]
  ∧ failedSavesQueue (run (outage ++ fourDrains) emptyWorld)
    = [mkFailedSave "0xabc" "Ann" 5 0 25000]
  ∧ retryAttempts (saveMetrics (run (outage ++ fourDrains) emptyWorld)) = 4%nat.
Proof. vm_compute. done. Qed.
End robust_facts.

(** * The rest of ghost-positions-persistence.ts *)

Section ghost_module_facts.
Import Ghost.
Implicit Types (p : GhostProcess) (r : GhostRemote) (positions : list Vector3).
Local Open Scope nat_scope.

Lemma ghostKey_inj i j : ghostKey i = ghostKey j → i = j.
Proof. unfold ghostKey. cbn. intros H. simplify_eq. by apply (inj pretty). Qed.

Lemma assign_app (m : gmap string GhostPosition) l1 l2 :
  assign m (l1 ++ l2) = assign (assign m l1) l2.
Proof. apply foldl_app. Qed.

Lemma assign_notin (m : gmap string GhostPosition) body k :
  k ∉ keys body → assign m body !! k = m !! k.
Proof.
  revert m. induction body as [|[k1 v1] body IH]; intros m Hk; [done|].
  cbn in *. apply not_elem_of_cons in Hk as [Hne Hk].
  unfold assign in IH. rewrite IH by done. by rewrite lookup_insert_ne.
Qed.

Lemma assign_in (m : gmap string GhostPosition) body k v :
  NoDup (keys body) → (k, v) ∈ body → assign m body !! k = Some v.
Proof.
  revert m. induction body as [|[k1 v1] body IH]; intros m Hnd Hin.
  - by apply elem_of_nil in Hin.
  - cbn in Hnd. apply NoDup_cons in Hnd as [Hk1 Hnd].
    apply elem_of_cons in Hin as [Heq|Hin].
    + simplify_eq. cbn. 
      pose proof (assign_notin (<[k1:=v1]> m) body k1 Hk1) as Hn. unfold assign in Hn.
      rewrite Hn. apply lookup_insert_eq.
    + cbn. by apply (IH (<[k1:=v1]> m)).
Qed.

Lemma buildBatch_app now positions start mid end_ :
  start ≤ mid → mid ≤ end_ →
  buildBatch now positions start end_
  = buildBatch now positions start mid ++ buildBatch now positions mid end_.
Proof.
  intros H1 H2. unfold buildBatch.
  replace (end_ - start) with ((mid - start) + (end_ - mid)) by lia.
  rewrite seq_app, omap_app. do 3 f_equal. lia.
Qed.

(** The batches of a collection, one after the other, are the entries of
    the whole collection. *)
Lemma batches_concat now positions k :
  length positions ≤ BATCH_SIZE * k →
  concat (batchOf now positions <$> seq 0 k) = allEntries now positions.
Proof.
  unfold allEntries. set (n := length positions).
  assert (∀ k, concat (batchOf now positions <$> seq 0 k)
               = buildBatch now positions 0 (Nat.min (BATCH_SIZE * k) n)) as Hgen.
  { clear k. intros k. induction k as [|k IH]; [done|].
    rewrite seq_S, fmap_app, concat_app, IH. cbn [fmap list_fmap concat].
    rewrite app_nil_r. unfold batchOf. fold n. cbn [Nat.add].
    unfold BATCH_SIZE in *.
    destruct (decide (n ≤ 50 * k)).
    - replace (Nat.min (50 * S k) n) with (Nat.min (50 * k) n) by lia.
      unfold buildBatch at 2.
      replace (Nat.min (k * 50 + 50) n - k * 50) with 0 by lia.
      cbn. by rewrite app_nil_r.
    - rewrite (buildBatch_app now positions 0 (Nat.min (50 * k) n) (Nat.min (50 * S k) n))
        by lia.
      f_equal. f_equal; lia. }
  intros Hk. rewrite Hgen. f_equal. lia.
Qed.

Lemma saveBatches_accepted e positions batches p r :
  (∀ b, b ∈ batches → accepted (patch e b) = true) →
  saveBatches e positions batches p r
  = (with_positions
       (assign (ghostPositionsData p) (concat (batchOf (batch_now e) positions <$> batches))) p,
     mkGhostRemote
       (assign (ghostPositions r) (concat (batchOf (batch_now e) positions <$> batches)))
       (ghostSaveLeader r)
       (sent r ++ (PatchPositions <$> (batchOf (batch_now e) positions <$> batches))),
     true).
Proof.
  revert p r. induction batches as [|b rest IH]; intros p r Hacc.
  - cbn. rewrite app_nil_r. by destruct p, r.
  - cbn [saveBatches]. pose proof (Hacc b ltac:(left)) as Hb.
    destruct (patch e b) as [err|[] status text]; try discriminate Hb.
    fold (batchOf (batch_now e) positions b).
    rewrite IH by (intros b' Hb'; apply Hacc; by right).
    cbn [fmap list_fmap concat]. rewrite !assign_app. cbn.
    by rewrite <- app_assoc.
Qed.

Lemma allEntries_keys now positions :
  keys (allEntries now positions) = ghostKey <$> seq 0 (length positions).
Proof.
  unfold allEntries, keys. rewrite buildBatch_keys by done. by rewrite Nat.sub_0_r.
Qed.

Lemma allEntries_NoDup now positions : NoDup (keys (allEntries now positions)).
Proof.
  rewrite allEntries_keys. apply NoDup_fmap_2; [|apply NoDup_seq].
  intros i j. apply ghostKey_inj.
Qed.

Lemma allEntries_elem now positions i pos :
  positions !! i = Some pos →
  (ghostKey i, mkGhostPosition (x pos) (y pos) (z pos) now) ∈ allEntries now positions.
Proof.
  intros Hpos. unfold allEntries, buildBatch. apply list_elem_of_omap.
  exists i. split.
  - apply elem_of_seq. apply lookup_lt_Some in Hpos. lia.
  - by rewrite Hpos.
Qed.

Lemma allEntries_beyond now positions i :
  length positions ≤ i → ghostKey i ∉ keys (allEntries now positions).
Proof.
  intros Hi. rewrite allEntries_keys. intros [j [Heq Hj]]%list_elem_of_fmap.
  apply ghostKey_inj in Heq as <-. apply elem_of_seq in Hj. lia.
Qed.

(** X1.  A save by the leader, read back.  When every PATCH of the save is
    accepted, the memory and the backend are each the collection they held
    overlaid with one entry per position saved (key [ghost_i], stamped with
    the time of the save).  [getGhostPosition i] then returns the [i]-th
    position that was saved and [hasGhostPosition i] is true; an index at or
    past the number of positions reads as it did before the save. *)
Theorem saveGhostPositions_round_trip (e : BatchEnv) positions p r :
  isLeader p = true →
  (∀ b, b < ceilDiv (length positions) BATCH_SIZE → accepted (patch e b) = true) →
  let '(p', r') := saveGhostPositions e positions p r in
  ghostPositionsData p'
  = assign (ghostPositionsData p) (allEntries (batch_now e) positions)
  ∧ ghostPositions r' = assign (ghostPositions r) (allEntries (batch_now e) positions)
  ∧ (∀ i pos, positions !! i = Some pos →
       getGhostPosition i p' = Some pos
       ∧ hasGhostPosition i p' = true
       ∧ lastSaved <$> ghostPositionsData p' !! ghostKey i = Some (batch_now e))
  ∧ (∀ i, length positions ≤ i → getGhostPosition i p' = getGhostPosition i p).
Proof.
  intros Hlead Hacc. unfold saveGhostPositions. rewrite Hlead. cbn [negb].
  rewrite saveBatches_accepted
    by (intros b Hb%elem_of_seq; apply Hacc; lia).
  rewrite batches_concat by apply ceilDiv_spec. cbn.
  split; [done|]. split; [done|]. split.
  - intros i pos Hpos.
    pose proof (assign_in (ghostPositionsData p) _ _ _
                  (allEntries_NoDup (batch_now e) positions)
                  (allEntries_elem (batch_now e) positions i pos Hpos)) as Hin.
    unfold getGhostPosition, hasGhostPosition. cbn. rewrite Hin. cbn.
    by destruct pos.
  - intros i Hi. unfold getGhostPosition. cbn.
    by rewrite (assign_notin _ _ _ (allEntries_beyond (batch_now e) positions i Hi)).
Qed.

Lemma saveGhostPositions_round_trip_witness :
  getGhostPosition 1 (saveGhostPositions (online 7000) ghosts3 leading noRemote).1
  = Some (mkVector3 (Qc_of_Z 3) 0 (Qc_of_Z 4))
  ∧ getGhostPosition 3 (saveGhostPositions (online 7000) ghosts3 leading noRemote).1 = None.
Proof.
  pose proof (saveGhostPositions_round_trip (online 7000) ghosts3 leading noRemote
                eq_refl (λ _ _, eq_refl)) as H.
  destruct (saveGhostPositions _ _ _ _) as [p' r'].
  destruct H as (_ & _ & Hin & Hout). split.
  - exact (proj1 (Hin 1 _ eq_refl)).
  - cbn [fst]. rewrite (Hout 3); [reflexivity|]. cbn. lia.
Defined.

(** Memory and backend move together. *)
Lemma saveBatches_mirror e positions batches p r :
  ghostPositionsData p = ghostPositions r →
  ghostPositionsData (saveBatches e positions batches p r).1.1
  = ghostPositions (saveBatches e positions batches p r).1.2.
Proof.
  revert p r. induction batches as [|b rest IH]; intros p r Heq; [done|].
  cbn [saveBatches]. destruct (patch e b) as [err|[] status text]; [done| |].
  - apply IH. cbn. by rewrite Heq.
  - by apply IH.
Qed.

Lemma saveBatches_flags e positions batches p r :
  isLeader (saveBatches e positions batches p r).1.1 = isLeader p
  ∧ isInitialized (saveBatches e positions batches p r).1.1 = isInitialized p
  ∧ ghostSaveLeader (saveBatches e positions batches p r).1.2 = ghostSaveLeader r.
Proof.
  revert p r. induction batches as [|b rest IH]; intros p r; [done|].
  cbn [saveBatches]. destruct (patch e b) as [err|[] status text]; [done| |].
  - destruct (IH (with_positions (assign (ghostPositionsData p)
                     (buildBatch (batch_now e) positions (b * BATCH_SIZE)
                        (Nat.min (b * BATCH_SIZE + BATCH_SIZE) (length positions)))) p)
                (patchPositions (buildBatch (batch_now e) positions (b * BATCH_SIZE)
                        (Nat.min (b * BATCH_SIZE + BATCH_SIZE) (length positions)))
                   (send (PatchPositions (buildBatch (batch_now e) positions (b * BATCH_SIZE)
                        (Nat.min (b * BATCH_SIZE + BATCH_SIZE) (length positions)))) r)))
      as (-> & -> & ->). done.
  - destruct (IH p (send (PatchPositions (buildBatch (batch_now e) positions (b * BATCH_SIZE)
                        (Nat.min (b * BATCH_SIZE + BATCH_SIZE) (length positions)))) r))
      as (-> & -> & ->). done.
Qed.

Lemma saveGhostPositions_flags (e : BatchEnv) positions p r :
  isLeader (saveGhostPositions e positions p r).1 = isLeader p
  ∧ isInitialized (saveGhostPositions e positions p r).1 = isInitialized p
  ∧ ghostSaveLeader (saveGhostPositions e positions p r).2 = ghostSaveLeader r.
Proof.
  unfold saveGhostPositions. destruct (isLeader p) eqn:Hlead; cbn [negb]; [|done].
  pose proof (saveBatches_flags e positions (seq 0 (ceilDiv (length positions) BATCH_SIZE))
                p r) as H.
  destruct (saveBatches _ _ _ _ _) as [[p1 r1] []]; cbn in *; by rewrite <- Hlead.
Qed.

Lemma saveGhostPositions_mirror (e : BatchEnv) positions p r :
  ghostPositionsData p = ghostPositions r →
  ghostPositionsData (saveGhostPositions e positions p r).1
  = ghostPositions (saveGhostPositions e positions p r).2.
Proof.
  intros Heq. unfold saveGhostPositions.
  destruct (isLeader p); cbn [negb]; [|done].
  pose proof (saveBatches_mirror e positions (seq 0 (ceilDiv (length positions) BATCH_SIZE))
                p r Heq) as H.
  destruct (saveBatches _ _ _ _ _) as [[p1 r1] []]; done.
Qed.

(** What [becomeLeader] leaves alone and what it may set. *)
Lemma becomeLeader_frame (e : AcquireEnv) p r :
  ghostPositionsData (becomeLeader e p r).1.1 = ghostPositionsData p
  ∧ ghostPositions (becomeLeader e p r).1.2 = ghostPositions r
  ∧ isInitialized (becomeLeader e p r).1.1 = isInitialized p
  ∧ (isLeader p = true → isLeader (becomeLeader e p r).1.1 = true).
Proof.
  unfold becomeLeader. destruct (fetched _ _) as [currentLeader|]; [|done].
  destruct (stillLeading _ _); [done|].
  by destruct (writeLeader e) as [err|[] status text].
Qed.

Lemma checkAndRenewLeadership_frame (e : RenewEnv) p r :
  ghostPositionsData (checkAndRenewLeadership e p r).1 = ghostPositionsData p
  ∧ ghostPositions (checkAndRenewLeadership e p r).2 = ghostPositions r
  ∧ isInitialized (checkAndRenewLeadership e p r).1 = isInitialized p
  ∧ isLeader (checkAndRenewLeadership e p r).1 = isLeader p.
Proof.
  unfold checkAndRenewLeadership. destruct (isLeader p) eqn:Hlead; cbn [negb]; [|done].
  case_bool_decide; [|done]. by destruct (accepted _).
Qed.

(** The three facts every call keeps: the memory mirrors the backend once
    it does, a leader stays a leader, an initialized module stays so. *)
Lemma ghostCall_keeps c p r :
  let '(p', r') := ghostCall c (p, r) in
  (ghostPositionsData p = ghostPositions r → ghostPositionsData p' = ghostPositions r')
  ∧ (isLeader p = true → isLeader p' = true)
  ∧ (isInitialized p = true → isInitialized p' = true).
Proof.
  destruct c as [answer|e positions|e|e|answer e|e|t]; cbn.
  - by destruct answer.
  - pose proof (saveGhostPositions_flags e positions p r) as (Hl & Hi & _).
    pose proof (saveGhostPositions_mirror e positions p r) as Hm.
    destruct (saveGhostPositions e positions p r) as [p' r']. cbn in *.
    rewrite Hl, Hi. auto.
  - pose proof (becomeLeader_frame e p r) as (Hd & Hr & Hi & Hl).
    destruct (becomeLeader e p r) as [[p' r'] won]. cbn in *.
    rewrite Hd, Hr, Hi. auto.
  - unfold checkLeaderStatus.
    destruct (negb (isLeader p) && negb (isInitialized p)) eqn:Hc; [|done].
    pose proof (becomeLeader_frame e (with_isInitialized true p) r) as (Hd & Hr & Hi & Hl).
    destruct (becomeLeader e _ r) as [[p' r'] won]. cbn in *.
    rewrite Hd, Hr, Hi. auto.
  - unfold initializeGhostPersistence. destruct (isInitialized p) eqn:Hinit; [done|].
    destruct (loadGhostPositions answer (with_isInitialized true p) r) as [p2 data] eqn:Hload.
    pose proof (becomeLeader_frame e p2 r) as (Hd & Hr & Hi & Hl).
    destruct (becomeLeader e p2 r) as [[p' r'] won]. cbn in *.
    rewrite Hd, Hr, Hi.
    destruct answer; cbn in Hload; simplify_eq; cbn; auto.
  - pose proof (checkAndRenewLeadership_frame e p r) as (Hd & Hr & Hi & Hl).
    destruct (checkAndRenewLeadership e p r) as [p' r']. cbn in *.
    rewrite Hd, Hr, Hi, Hl. auto.
  - done.
Qed.

Lemma ghostCalls_keeps cs p r :
  let '(p', r') := ghostCalls cs (p, r) in
  (ghostPositionsData p = ghostPositions r → ghostPositionsData p' = ghostPositions r')
  ∧ (isLeader p = true → isLeader p' = true)
  ∧ (isInitialized p = true → isInitialized p' = true).
Proof.
  induction cs as [|c cs IH] using rev_ind; [done|].
  unfold ghostCalls in *. rewrite foldl_app. cbn [foldl].
  destruct (foldl _ (p, r) cs) as [p1 r1].
  pose proof (ghostCall_keeps c p1 r1) as H.
  destruct (ghostCall c (p1, r1)) as [p' r'].
  destruct IH as (Hm & Hl & Hi). destruct H as (Hm' & Hl' & Hi'). auto.
Qed.

(** X2.  No operation of the module clears [isLeader]: a process that is
    the leader is still the leader after any sequence of loads, saves,
    takeover attempts, status checks, initializations, renewals and
    [markSaved], whatever the network answers (a failed renewal included). *)
Theorem leadership_never_revoked cs p r :
  isLeader p = true → isLeader (ghostCalls cs (p, r)).1 = true.
Proof.
  intros Hlead. pose proof (ghostCalls_keeps cs p r) as H.
  destruct (ghostCalls cs (p, r)) as [p' r']. by apply H.
Qed.

Lemma leadership_never_revoked_witness :
  isLeader (ghostCalls [CallRenew failedRenewal; CallSave (cutOff 30000) ghosts3;
                        CallBecomeLeader (attemptAt 31000)] (leading, heldRemote)).1
  = true.
Proof. apply leadership_never_revoked. reflexivity. Defined.

(** X3.  A load that is answered ok makes the collection in memory equal
    to the one on the backend, and once the two are equal every operation of
    the module keeps them so, whatever the network answers: a batch is
    assigned to the memory exactly when its PATCH is merged by the backend
    (this process being the only writer). *)
Theorem memory_mirrors_backend cs p r :
  ghostPositionsData (loadGhostPositions ROk p r).1 = ghostPositions r
  ∧ (ghostPositionsData p = ghostPositions r →
     ghostPositionsData (ghostCalls cs (p, r)).1 = ghostPositions (ghostCalls cs (p, r)).2).
Proof.
  split; [done|]. intros Heq. pose proof (ghostCalls_keeps cs p r) as H.
  destruct (ghostCalls cs (p, r)) as [p' r']. by apply H.
Qed.

Lemma memory_mirrors_backend_witness :
  ghostPositionsData
    (ghostCalls [CallBecomeLeader (attemptAt 1000); CallSave (online 2000) ghosts3]
       (following, noRemote)).1
  = ghostPositions
      (ghostCalls [CallBecomeLeader (attemptAt 1000); CallSave (online 2000) ghosts3]
         (following, noRemote)).2.
Proof.
  apply (proj2 (memory_mirrors_backend
                  [CallBecomeLeader (attemptAt 1000); CallSave (online 2000) ghosts3]
                  following noRemote)).
  reflexivity.
Defined.

(** X4.  [checkLeaderStatus] starts at most one takeover attempt.  After
    a first call, and whatever operations follow it, a call only returns
    [isLeader]: it sends nothing and changes nothing. *)
Theorem checkLeaderStatus_attempts_once (e1 e2 : AcquireEnv) cs p r :
  let '(p', r') := ghostCalls cs (checkLeaderStatus e1 p r).1 in
  checkLeaderStatus e2 p' r' = (p', r', isLeader p').
Proof.
  assert (isLeader (checkLeaderStatus e1 p r).1.1 = true
          ∨ isInitialized (checkLeaderStatus e1 p r).1.1 = true) as Hone.
  { unfold checkLeaderStatus.
    destruct (isLeader p) eqn:Hl; cbn; [by left|].
    destruct (isInitialized p) eqn:Hi; cbn; [by right|].
    pose proof (becomeLeader_frame e1 (with_isInitialized true p) r) as (_ & _ & Hinit & _).
    destruct (becomeLeader e1 _ r) as [[p2 r2] won]. cbn in *. by right. }
  destruct (checkLeaderStatus e1 p r) as [[p1 r1] status]. cbn [fst snd] in *.
  pose proof (ghostCalls_keeps cs p1 r1) as H.
  destruct (ghostCalls cs (p1, r1)) as [p' r']. destruct H as (_ & Hl & Hi).
  unfold checkLeaderStatus.
  destruct Hone as [Hone|Hone]; [rewrite (Hl Hone)|rewrite (Hi Hone)];
    by rewrite ?andb_false_r.
Qed.

(** X5.  After [initializeGhostPersistence], and whatever operations
    follow it, a second initialization does nothing (no load, no takeover
    attempt), and [checkLeaderStatus] only reads the flag. *)
Theorem initializeGhostPersistence_once answer1 answer2 (e1 e2 : AcquireEnv) cs p r :
  let '(p', r') := ghostCalls cs (initializeGhostPersistence answer1 e1 p r) in
  initializeGhostPersistence answer2 e2 p' r' = (p', r')
  ∧ checkLeaderStatus e2 p' r' = (p', r', isLeader p').
Proof.
  assert (isInitialized (initializeGhostPersistence answer1 e1 p r).1 = true) as Hone.
  { unfold initializeGhostPersistence. destruct (isInitialized p) eqn:Hi; [done|].
    destruct (loadGhostPositions answer1 (with_isInitialized true p) r) as [p2 data] eqn:Hload.
    pose proof (becomeLeader_frame e1 p2 r) as (_ & _ & Hinit & _).
    destruct (becomeLeader e1 p2 r) as [[p3 r3] won]. cbn in *. rewrite Hinit.
    destruct answer1; cbn in Hload; by simplify_eq. }
  destruct (initializeGhostPersistence answer1 e1 p r) as [p1 r1]. cbn [fst] in *.
  pose proof (ghostCalls_keeps cs p1 r1) as H.
  destruct (ghostCalls cs (p1, r1)) as [p' r']. destruct H as (_ & _ & Hi).
  unfold initializeGhostPersistence, checkLeaderStatus. rewrite (Hi Hone).
  by rewrite andb_false_r.
Qed.

(** X6.  The outcomes of [becomeLeader].  When it returns [false] the
    process and the token on the backend are as they were.  When it returns
    [true] its PUT was accepted, the process is the leader with
    [lastLeaderCheckTime] at the reading of the clock, and the backend holds
    the token it sent.  A GET that is rejected, or whose body does not
    parse, gives [false] without any PUT; in every case at most one PUT is
    sent. *)
Theorem becomeLeader_outcomes (e : AcquireEnv) p r :
  let '(p', r', won) := becomeLeader e p r in
  (won = false → p' = p ∧ ghostSaveLeader r' = ghostSaveLeader r)
  ∧ (won = true →
       accepted (writeLeader e) = true ∧ isLeader p' = true
       ∧ lastLeaderCheckTime p' = now_check e
       ∧ ghostSaveLeader r' = Some (mkLeaderToken (now_id e) (Some (now_timestamp e))))
  ∧ (fetched (readLeader e) (ghostSaveLeader r) = None → won = false ∧ leaderPuts (sent r') = leaderPuts (sent r))
  ∧ (length (leaderPuts (sent r')) ≤ S (length (leaderPuts (sent r)))).
Proof.
  unfold becomeLeader. destruct (fetched _ _) as [currentLeader|] eqn:Hread;
    [destruct (stillLeading _ _);
     [|destruct (writeLeader e) as [err|[] status text]]|];
    cbn; rewrite !leaderPuts_app; cbn; rewrite ?app_nil_r, ?length_app; cbn;
    repeat split; intros; simplify_eq; try done; lia.
Qed.

Lemma becomeLeader_outcomes_witness :
  (becomeLeader (attemptAt 5000) following heldRemote).1.1 = following.
Proof.
  pose proof (becomeLeader_outcomes (attemptAt 5000) following heldRemote) as H.
  assert ((becomeLeader (attemptAt 5000) following heldRemote).2 = false) as Hwon
    by reflexivity.
  destruct (becomeLeader (attemptAt 5000) following heldRemote) as [[p' r'] won].
  cbn [fst snd] in *. destruct H as (Hlost & _). exact (proj1 (Hlost Hwon)).
Defined.

Lemma saveBatches_lastSaveTime e positions batches p r :
  lastSaveTime (saveBatches e positions batches p r).1.1 = lastSaveTime p.
Proof.
  revert p r. induction batches as [|b rest IH]; intros p r; [done|].
  cbn [saveBatches]. destruct (patch e b) as [err|[] status text]; [done| |];
    by rewrite IH.
Qed.

Lemma saveBatches_rejected e positions batches p r b err :
  b ∈ batches → patch e b = WRejected err →
  (saveBatches e positions batches p r).2 = false.
Proof.
  revert p r. induction batches as [|b' rest IH]; intros p r Hb Hrej.
  - by apply elem_of_nil in Hb.
  - cbn [saveBatches]. destruct (decide (b' = b)) as [->|Hne].
    + by rewrite Hrej.
    + apply elem_of_cons in Hb as [?|Hb]; [congruence|].
      destruct (patch e b') as [err'|[] status text]; [done| |]; by apply IH.
Qed.

(** X7.  [lastSaveTime] follows the loop of the save.  For the leader,
    when no PATCH of the save is rejected (whatever the statuses)
    [lastSaveTime] becomes the time of the save, so [shouldSavePositions] is
    false until [SAVE_INTERVAL] later; when some PATCH is rejected the save
    is abandoned with [lastSaveTime] as it was, and [shouldSavePositions]
    answers as before the save. *)
Theorem save_is_marked_only_when_complete (e : BatchEnv) positions p r :
  isLeader p = true →
  let p' := (saveGhostPositions e positions p r).1 in
  ((∀ b err, b < ceilDiv (length positions) BATCH_SIZE → patch e b ≠ WRejected err) →
     ∀ currentTime,
       shouldSavePositions currentTime p'
       = bool_decide (currentTime - batch_now e >= SAVE_INTERVAL)%Z)
  ∧ (∀ b err, b < ceilDiv (length positions) BATCH_SIZE → patch e b = WRejected err →
     ∀ currentTime,
       shouldSavePositions currentTime p' = shouldSavePositions currentTime p).
Proof.
  intros Hlead p'. subst p'. unfold saveGhostPositions. rewrite Hlead. cbn [negb].
  split.
  - intros Hans currentTime.
    destruct (saveBatches_sent e positions (seq 0 (ceilDiv (length positions) BATCH_SIZE)) p r)
      as (p1 & r1 & -> & Hl & _).
    { intros b err Hb%elem_of_seq. apply Hans. lia. }
    unfold shouldSavePositions. cbn. by rewrite Hl, Hlead.
  - intros b err Hb Hrej currentTime.
    assert (b ∈ seq 0 (ceilDiv (length positions) BATCH_SIZE)) as Hin
      by (apply elem_of_seq; lia).
    pose proof (saveBatches_rejected e positions _ p r b err Hin Hrej) as Hfalse.
    pose proof (saveBatches_lastSaveTime e positions
                  (seq 0 (ceilDiv (length positions) BATCH_SIZE)) p r) as Htime.
    pose proof (saveBatches_flags e positions
                  (seq 0 (ceilDiv (length positions) BATCH_SIZE)) p r) as (Hl & _).
    destruct (saveBatches _ _ _ _ _) as [[p1 r1] done_]. cbn in *. subst done_.
    unfold shouldSavePositions. cbn. by rewrite Hl, Htime.
Qed.

Lemma save_is_marked_only_when_complete_witness :
  shouldSavePositions 16999 (saveGhostPositions (online 7000) ghosts3 leading noRemote).1
  = false
  ∧ shouldSavePositions 16999 (saveGhostPositions (cutOff 7000) ghosts3 leading noRemote).1
    = true.
Proof.
  destruct (save_is_marked_only_when_complete (online 7000) ghosts3 leading noRemote eq_refl)
    as [Hdone _].
  destruct (save_is_marked_only_when_complete (cutOff 7000) ghosts3 leading noRemote eq_refl)
    as [_ Hcut].
  split.
  - rewrite Hdone; [reflexivity|]. intros b err _. discriminate.
  - rewrite (Hcut 0 (ErrorObj "Failed to fetch")); [reflexivity|cbn; lia|reflexivity].
Defined.

(** X8.  A leader whose last check is more than 5 s old sends one renewal
    PUT, carrying the time of the check, whether or not it is accepted; a
    further call no more than 5 s after that check sends nothing and changes
    nothing. *)
Theorem renewal_is_throttled (e1 e2 : RenewEnv) p r :
  isLeader p = true →
  (renew_now e1 - lastLeaderCheckTime p > 5000)%Z →
  (renew_now e2 - renew_now e1 <= 5000)%Z →
  let '(p1, r1) := checkAndRenewLeadership e1 p r in
  leaderPuts (sent r1)
  = leaderPuts (sent r) ++ [mkLeaderToken (renew_id e1) (Some (renew_now e1))]
  ∧ checkAndRenewLeadership e2 p1 r1 = (p1, r1).
Proof.
  intros Hlead Hdue Hsoon. unfold checkAndRenewLeadership. rewrite Hlead. cbn [negb].
  rewrite bool_decide_eq_true_2 by done.
  destruct (accepted (renewPut e1)); cbn; rewrite Hlead; cbn;
    rewrite leaderPuts_app, bool_decide_eq_false_2 by lia; done.
Qed.

Lemma renewal_is_throttled_witness :
  checkAndRenewLeadership (mkRenewEnv 24000 24000 (WStatus true 200 "OK"))
    (checkAndRenewLeadership failedRenewal leading heldRemote).1
    (checkAndRenewLeadership failedRenewal leading heldRemote).2
  = checkAndRenewLeadership failedRenewal leading heldRemote.
Proof.
  pose proof (renewal_is_throttled failedRenewal
                (mkRenewEnv 24000 24000 (WStatus true 200 "OK")) leading heldRemote
                eq_refl) as H.
  destruct (checkAndRenewLeadership failedRenewal leading heldRemote) as [p1 r1].
  apply H; cbn; lia.
Defined.

End ghost_module_facts.

(** * The rest of the diamond states module *)

Section diamond_module_facts.
Import DiamondStates.
Implicit Types (p : StatesProcess) (r : StatesRemote) (e : PutEnv).

Lemma diamondKey_inj i j : diamondKey i = diamondKey j → i = j.
Proof. unfold diamondKey. cbn. intros H. simplify_eq. by apply (inj pretty). Qed.

Lemma saveDiamondState_process e index newState data p r playerId :
  playerSet p = Some playerId →
  (saveDiamondState e index newState data p r).1.1
  = mkStatesProcess
      (<[diamondKey index :=
           merge (default (defaultState (now_spawned e) (now_expires e))
                    (getDiamondState index p)) data newState]> (playerDiamondStates p))
      (playerDiamondStatesLoaded p) (currentPlayerId p).
Proof.
  intros Hplayer. unfold saveDiamondState. rewrite Hplayer.
  by destruct (put e) as [err|ok status text].
Qed.

Lemma saveDiamondState_playerSet e index newState data p r :
  playerSet (saveDiamondState e index newState data p r).1.1 = playerSet p.
Proof.
  destruct (playerSet p) as [playerId|] eqn:Hplayer.
  - rewrite (saveDiamondState_process _ _ _ _ _ _ _ Hplayer). done.
  - unfold saveDiamondState. by rewrite Hplayer.
Qed.

Lemma saveDiamondState_other e index newState data p r other :
  other ≠ index →
  getDiamondState other (saveDiamondState e index newState data p r).1.1
  = getDiamondState other p.
Proof.
  intros Hother. destruct (playerSet p) as [playerId|] eqn:Hplayer.
  - rewrite (saveDiamondState_process _ _ _ _ _ _ _ Hplayer). unfold getDiamondState. cbn.
    apply lookup_insert_ne. intros Heq. by apply diamondKey_inj in Heq.
  - unfold saveDiamondState. by rewrite Hplayer.
Qed.

(** X9.  What [saveDiamondState] leaves alone.  A save for [index] keeps
    the documents of every other index in memory, [currentPlayerId] and the
    loaded flag; on the backend it touches no path other than one with the
    key of this diamond.  With no current player it changes nothing and
    returns [false]. *)
Theorem saveDiamondState_frame e index newState data p r :
  let '(p', r', ok) := saveDiamondState e index newState data p r in
  (∀ other, other ≠ index → getDiamondState other p' = getDiamondState other p)
  ∧ currentPlayerId p' = currentPlayerId p
  ∧ playerDiamondStatesLoaded p' = playerDiamondStatesLoaded p
  ∧ (playerSet p = None → p' = p ∧ r' = r ∧ ok = false)
  ∧ (∀ path, path.2 ≠ diamondKey index → diamonds r' !! path = diamonds r !! path).
Proof.
  unfold saveDiamondState. destruct (playerSet p) as [playerId|] eqn:Hplayer; [|done].
  assert (∀ other (m : gmap string DiamondState) v, other ≠ index →
            <[diamondKey index := v]> m !! diamondKey other = m !! diamondKey other) as Hne.
  { intros other m v Hother. apply lookup_insert_ne. intros Heq.
    by apply diamondKey_inj in Heq. }
  destruct (put e) as [err|[] status text]; cbn; unfold getDiamondState; cbn;
    repeat split; try done; try (intros; by apply Hne).
  intros [pid key] Hkey. cbn in Hkey. apply lookup_insert_ne. congruence.
Qed.

Lemma saveDiamondState_frame_witness :
  getDiamondState 1
    (saveDiamondState (agreed 9000) 0 hidden noFields timedPlayer noDocuments).1.1 = None
  ∧ getDiamondState 0
      (saveDiamondState (agreed 9000) 1 hidden noFields timedPlayer noDocuments).1.1
    = Some timedDocument.
Proof.
  pose proof (saveDiamondState_frame (agreed 9000) 0 hidden noFields timedPlayer noDocuments)
    as H0.
  pose proof (saveDiamondState_frame (agreed 9000) 1 hidden noFields timedPlayer noDocuments)
    as H1.
  destruct (saveDiamondState (agreed 9000) 0 _ _ _ _) as [[p0 r0] ok0].
  destruct (saveDiamondState (agreed 9000) 1 _ _ _ _) as [[p1 r1] ok1].
  destruct H0 as (H0 & _). destruct H1 as (H1 & _). cbn [fst]. split.
  - rewrite (H0 1); [reflexivity|discriminate].
  - rewrite (H1 0); [reflexivity|discriminate].
Defined.

(** The document with its timer fields replaced. *)
Lemma merge_timerFields doc timer startedAt newState :
  merge doc (timerFields timer startedAt) newState
  = mkDiamondState newState (collectedBy doc) (collectedAt doc) (spawnPosition doc)
      (spawnedAt doc) (dropPosition doc) (droppedAt doc) (droppedBy doc) timer startedAt
      (expiresAt doc) (respawnCount doc).
Proof. done. Qed.

(** X10.  For a diamond that has a document, [updateDiamondCollectTimer]
    and [stopDiamondCollectTimer] keep the state and every field other than
    the timer pair: the update sets the pair to the timer and the start
    given, the stop sets it to 0 and [null], after which
    [getDiamondCollectTimer] is 0 at any time. *)
Theorem timer_updates_keep_the_phase e index p r doc playerId :
  playerSet p = Some playerId →
  getDiamondState index p = Some doc →
  (∀ timer startedAt,
      getDiamondState index (updateDiamondCollectTimer e index timer startedAt p r).1
      = Some (mkDiamondState (state doc) (collectedBy doc) (collectedAt doc)
                (spawnPosition doc) (spawnedAt doc) (dropPosition doc) (droppedAt doc)
                (droppedBy doc) timer (Some startedAt) (expiresAt doc) (respawnCount doc)))
  ∧ getDiamondState index (stopDiamondCollectTimer e index p r).1
    = Some (mkDiamondState (state doc) (collectedBy doc) (collectedAt doc)
              (spawnPosition doc) (spawnedAt doc) (dropPosition doc) (droppedAt doc)
              (droppedBy doc) 0%float None (expiresAt doc) (respawnCount doc))
  ∧ ∀ now, getDiamondCollectTimer now index (stopDiamondCollectTimer e index p r).1 = 0%float.
Proof.
  intros Hplayer Hdoc.
  assert (getDiamondState index (stopDiamondCollectTimer e index p r).1
          = Some (mkDiamondState (state doc) (collectedBy doc) (collectedAt doc)
              (spawnPosition doc) (spawnedAt doc) (dropPosition doc) (droppedAt doc)
              (droppedBy doc) 0%float None (expiresAt doc) (respawnCount doc))) as Hstop.
  { unfold stopDiamondCollectTimer. rewrite Hdoc.
    rewrite (saveDiamondState_memory _ _ _ _ _ _ _ Hplayer), Hdoc. done. }
  split; [|split; [done|]].
  - intros timer startedAt. unfold updateDiamondCollectTimer. rewrite Hdoc.
    rewrite (saveDiamondState_memory _ _ _ _ _ _ _ Hplayer), Hdoc. done.
  - intros now. unfold getDiamondCollectTimer. by rewrite Hstop.
Qed.

Lemma timer_updates_keep_the_phase_witness :
  state <$> getDiamondState 0 (stopDiamondCollectTimer (agreed 9000) 0 timedPlayer noDocuments).1
  = Some collectible
  ∧ getDiamondCollectTimer 9500 0
      (stopDiamondCollectTimer (agreed 9000) 0 timedPlayer noDocuments).1 = 0%float.
Proof.
  destruct (timer_updates_keep_the_phase (agreed 9000) 0 timedPlayer noDocuments
              timedDocument "0xabc" eq_refl eq_refl) as (_ & Hstop & Hzero).
  split; [by rewrite Hstop|apply Hzero].
Defined.

Lemma phase_eqb_eq a b : phase_eqb a b = true ↔ a = b.
Proof. destruct a, b; cbn; split; congruence. Qed.

(** X12.  The marks and the predicates, in memory and whatever the PUT
    answers.  No diamond is at once available and collected, available and
    dropped, or collected and dropped.  After [markDiamondCollected] the
    diamond is collected, not dropped and not available at any time, carries
    the collector and the time, and keeps the spawn position it had.  After
    [updateDiamondDropPosition] it is dropped, not collected, and its drop
    position reads back.  After [markDiamondHidden] it is none of the
    three. *)
Theorem marks_and_predicates e index p r playerId :
  playerSet p = Some playerId →
  (∀ now, ¬ (isDiamondAvailable now index p = true ∧ isDiamondCollected index p = true)
          ∧ ¬ (isDiamondAvailable now index p = true ∧ isDiamondDropped index p = true)
          ∧ ¬ (isDiamondCollected index p = true ∧ isDiamondDropped index p = true))
  ∧ (∀ now by_,
       let p' := (markDiamondCollected e now index by_ p r).1.1 in
       isDiamondCollected index p' = true
       ∧ isDiamondDropped index p' = false
       ∧ (∀ t, isDiamondAvailable t index p' = false)
       ∧ (collectedBy <$> getDiamondState index p') = Some (Some by_)
       ∧ (collectedAt <$> getDiamondState index p') = Some (Some now)
       ∧ (is_Some (getDiamondState index p) →
          getDiamondSpawnPosition index p' = getDiamondSpawnPosition index p))
  ∧ (∀ now position by_,
       let p' := (updateDiamondDropPosition e now index position by_ p r).1.1 in
       isDiamondDropped index p' = true
       ∧ isDiamondCollected index p' = false
       ∧ getDiamondDropPosition index p' = Some position)
  ∧ (let p' := (markDiamondHidden e index p r).1.1 in
     isDiamondCollected index p' = false ∧ isDiamondDropped index p' = false
     ∧ ∀ t, isDiamondAvailable t index p' = false).
Proof.
  intros Hplayer. split; [|split; [|split]].
  - intros now. unfold isDiamondAvailable, isDiamondCollected, isDiamondDropped.
    destruct (getDiamondState index p) as [st|];
      [|repeat split; intros [? ?]; discriminate].
    case_bool_decide; destruct (state st); cbn;
      repeat split; intros [? ?]; discriminate.
  - intros now by_ p'. subst p'.
    unfold markDiamondCollected, isDiamondCollected, isDiamondDropped, isDiamondAvailable,
      getDiamondSpawnPosition.
    rewrite (saveDiamondState_memory _ _ _ _ _ _ _ Hplayer). cbn.
    repeat split; try done.
    + intros t. by case_bool_decide.
    + intros [doc ->]. done.
  - intros now position by_ p'. subst p'.
    unfold updateDiamondDropPosition, isDiamondCollected, isDiamondDropped,
      getDiamondDropPosition.
    by rewrite (saveDiamondState_memory _ _ _ _ _ _ _ Hplayer).
  - cbn zeta. unfold markDiamondHidden, isDiamondCollected, isDiamondDropped,
      isDiamondAvailable.
    rewrite (saveDiamondState_memory _ _ _ _ _ _ _ Hplayer). cbn.
    repeat split; try done. intros t. by case_bool_decide.
Qed.

Lemma marks_and_predicates_witness :
  isDiamondCollected 0 (markDiamondCollected (refused 9000) 9000 0 "0xabc" timedPlayer
                          noDocuments).1.1 = true
  ∧ getDiamondSpawnPosition 0 (markDiamondCollected (refused 9000) 9000 0 "0xabc"
                                 timedPlayer noDocuments).1.1
    = Some (mkVector3 0 0 0).
Proof.
  destruct (marks_and_predicates (refused 9000) 0 timedPlayer noDocuments "0xabc" eq_refl)
    as (_ & Hmark & _).
  destruct (Hmark 9000 "0xabc") as (Hc & _ & _ & _ & _ & Hs).
  split; [exact Hc|]. rewrite Hs; [reflexivity|]. by eexists.
Defined.

(** X13.  After [updateDiamondSpawnPosition] the diamond reads back the
    position and the time of spawn, and [isDiamondAvailable] at a time [t]
    holds exactly when [t] is no later than ten minutes after the (second)
    reading of the clock. *)
Theorem spawn_opens_a_ten_minute_window e now1 now2 index position p r playerId :
  playerSet p = Some playerId →
  let p' := (updateDiamondSpawnPosition e now1 now2 index position p r).1.1 in
  getDiamondSpawnPosition index p' = Some position
  ∧ (spawnedAt <$> getDiamondState index p') = Some now1
  ∧ ∀ t, isDiamondAvailable t index p' = bool_decide (t ≤ now2 + 600000).
Proof.
  intros Hplayer p'. subst p'.
  unfold updateDiamondSpawnPosition, getDiamondSpawnPosition, isDiamondAvailable.
  rewrite (saveDiamondState_memory _ _ _ _ _ _ _ Hplayer). cbn.
  repeat split. intros t. repeat case_bool_decide; try done; lia.
Qed.

Lemma spawn_opens_a_ten_minute_window_witness :
  isDiamondAvailable 609000 0
    (updateDiamondSpawnPosition (agreed 9000) 9000 9000 0 (mkVector3 0 0 0) newPlayer
       noDocuments).1.1 = true
  ∧ isDiamondAvailable 609001 0
      (updateDiamondSpawnPosition (agreed 9000) 9000 9000 0 (mkVector3 0 0 0) newPlayer
         noDocuments).1.1 = false.
Proof.
  destruct (spawn_opens_a_ten_minute_window (agreed 9000) 9000 9000 0 (mkVector3 0 0 0)
              newPlayer noDocuments "0xabc" eq_refl) as (_ & _ & H).
  by rewrite !H.
Defined.

(** *** Reading the documents back *)

Lemma lookup_docsOf (playerId : string) (m : gmap (string * string) DiamondState)
    (key : string) :
  docsOf playerId m !! key = m !! (playerId, key).
Proof.
  unfold docsOf. rewrite <- lookup_map_curry.
  destruct (map_curry m !! playerId) as [docs|]; [done|]. cbn. apply lookup_empty.
Qed.

(** X14.  A process that loads the documents of the player after a save
    (another session, or a new player id set before).  It ends loaded, with
    the player as current.  When its GET is answered ok and the PUT of the
    save was accepted, it reads the merged document of the save; when the
    PUT was not accepted it reads what the backend held before, so the save
    is seen by the saving process only; when the GET fails it starts from an
    empty map. *)
Theorem reconnect_reads_back e index newState data p r playerId answer p0 :
  playerSet p = Some playerId →
  (currentPlayerId p0 ≠ Some playerId ∨ playerDiamondStatesLoaded p0 = false) →
  let merged :=
    merge (default (defaultState (now_spawned e) (now_expires e))
             (getDiamondState index p)) data newState in
  let r' := (saveDiamondState e index newState data p r).1.2 in
  let p1 := initPlayerDiamondStates answer playerId p0 r' in
  playerSet p1 = playerSet (mkStatesProcess ∅ true (Some playerId))
  ∧ playerDiamondStatesLoaded p1 = true
  ∧ (answer = ROk → accepted (put e) = true → getDiamondState index p1 = Some merged)
  ∧ (answer = ROk → accepted (put e) = false →
       getDiamondState index p1 = diamonds r !! (playerId, diamondKey index))
  ∧ (answer ≠ ROk → ∀ other, getDiamondState other p1 = None).
Proof.
  intros Hplayer Hfresh merged r' p1. subst r' p1. unfold initPlayerDiamondStates.
  assert (bool_decide (currentPlayerId p0 = Some playerId) && playerDiamondStatesLoaded p0
          = false) as ->.
  { destruct Hfresh as [Hne| ->]; [by rewrite bool_decide_eq_false_2|apply andb_false_r]. }
  unfold saveDiamondState. rewrite Hplayer.
  destruct answer; (split; [done|]); (split; [done|]);
    (split; [intros ? Hput|split; [intros ? Hput|intros Hne]]); try done.
  - destruct (put e) as [err|[] status text]; try discriminate Hput.
    unfold getDiamondState. cbn. rewrite lookup_docsOf. apply lookup_insert_eq.
  - unfold getDiamondState. cbn. rewrite lookup_docsOf.
    by destruct (put e) as [err|[] status text].
Qed.

Lemma reconnect_reads_back_witness :
  getDiamondState 0
    (initPlayerDiamondStates ROk "0xabc" blankProcess
       (saveDiamondState (agreed 9000) 0 carried noFields timedPlayer noDocuments).1.2)
  = Some (merge timedDocument noFields carried).
Proof.
  destruct (reconnect_reads_back (agreed 9000) 0 carried noFields timedPlayer noDocuments
              "0xabc" ROk blankProcess eq_refl ltac:(by right)) as (_ & _ & H & _).
  exact (H eq_refl eq_refl).
Defined.

(** *** The first diamonds and the clean-up *)

Lemma createOne_process create now1 now2 i p r :
  (createOne create now1 now2 i (p, r)).1
  = (saveDiamondState (create i) (Z.of_nat i) emerging
       (mkPartialState None None None (Some (mkVector3 0 0 0)) (Some (now1 i)) None None
          None (Some 0%float) (Some None) (Some (now2 i + 5 * 60 * 1000)) None) p r).1.1.
Proof. done. Qed.

Lemma createAll create now1 now2 (l : list nat) p r playerId :
  playerSet p = Some playerId → NoDup l →
  (∀ i, i ∈ l → getDiamondState (Z.of_nat i) p = None) →
  let p' := (foldl (λ pr i, createOne create now1 now2 i pr) (p, r) l).1 in
  playerSet p' = Some playerId
  ∧ (∀ i, i ∈ l →
       getDiamondState (Z.of_nat i) p'
       = Some (mkDiamondState emerging None None (mkVector3 0 0 0) (now1 i) None None None
                 0%float None (now2 i + 300000) None))
  ∧ (∀ j, (∀ i, i ∈ l → j ≠ Z.of_nat i) → getDiamondState j p' = getDiamondState j p).
Proof.
  revert p r. induction l as [|i l IH]; intros p r Hplayer Hnd Hnone; cbn zeta.
  - repeat split; [done|by intros i ?%elem_of_nil].
  - apply NoDup_cons in Hnd as [Hi Hnd]. cbn [foldl].
    pose proof (createOne_process create now1 now2 i p r) as Hone.
    destruct (createOne create now1 now2 i (p, r)) as [p1 r1]. cbn [fst] in Hone.
    assert (playerSet p1 = Some playerId) as Hplayer1.
    { rewrite Hone, saveDiamondState_playerSet. done. }
    assert (getDiamondState (Z.of_nat i) p1
            = Some (mkDiamondState emerging None None (mkVector3 0 0 0) (now1 i) None None
                      None 0%float None (now2 i + 300000) None)) as Hdoc.
    { rewrite Hone, (saveDiamondState_memory _ _ _ _ _ _ _ Hplayer).
      rewrite (Hnone i) by left. done. }
    assert (∀ j, j ≠ Z.of_nat i → getDiamondState j p1 = getDiamondState j p) as Hother.
    { intros j Hj. rewrite Hone. by apply saveDiamondState_other. }
    destruct (IH p1 r1 Hplayer1 Hnd) as (Hp & Hin & Hout).
    { intros i' Hi'. rewrite Hother; [apply Hnone; by right|].
      intros Heq%(inj Z.of_nat). by subst. }
    split; [done|]. split.
    + intros i' [->|Hi']%elem_of_cons; [|by apply Hin].
      rewrite Hout; [done|]. intros i' Hi' Heq%(inj Z.of_nat). by subst.
    + intros j Hj. rewrite Hout by (intros i' Hi'; apply Hj; by right).
      apply Hother, Hj. left.
Qed.

(** X15.  [createInitialDiamondsIfNeeded].  With a current player and no
    document in memory it creates the documents 0 to 4, each in state
    [emerging] at the origin, timer 0 and not started, expiring five minutes
    after its reading of the clock, and no other document; the collect timer
    of each reads 0; a further call changes nothing and sends nothing.  With
    any document in memory the call changes nothing. *)
Theorem initial_diamonds create now1 now2 p r playerId :
  playerSet p = Some playerId →
  (playerDiamondStates p = ∅ →
     let '(p', r') := createInitialDiamondsIfNeeded create now1 now2 p r in
     (∀ i, (i < 5)%nat →
        getDiamondState (Z.of_nat i) p'
        = Some (mkDiamondState emerging None None (mkVector3 0 0 0) (now1 i) None None None
                  0%float None (now2 i + 300000) None)
        ∧ ∀ now, getDiamondCollectTimer now (Z.of_nat i) p' = 0%float)
     ∧ (∀ j, (j < 0 ∨ 5 ≤ j) → getDiamondState j p' = None)
     ∧ ∀ create' now1' now2',
         createInitialDiamondsIfNeeded create' now1' now2' p' r' = (p', r'))
  ∧ (playerDiamondStates p ≠ ∅ →
     createInitialDiamondsIfNeeded create now1 now2 p r = (p, r)).
Proof.
  intros Hplayer. unfold createInitialDiamondsIfNeeded at 1 3. rewrite Hplayer. split.
  - intros Hempty. rewrite Hempty, map_size_empty. cbn [negb bool_decide].
    rewrite bool_decide_eq_false_2 by lia. cbn [negb].
    destruct (createAll create now1 now2 (seq 0 5) p r playerId Hplayer (NoDup_seq 0 5))
      as (Hp & Hin & Hout).
    { intros i _. unfold getDiamondState. by rewrite Hempty. }
    destruct (foldl _ (p, r) (seq 0 5)) as [p' r']. cbn [fst] in *.
    assert (∀ i, (i < 5)%nat → getDiamondState (Z.of_nat i) p'
            = Some (mkDiamondState emerging None None (mkVector3 0 0 0) (now1 i) None None
                      None 0%float None (now2 i + 300000) None)) as Hdocs.
    { intros i Hi. apply Hin, elem_of_seq. lia. }
    split; [|split].
    + intros i Hi. split; [by apply Hdocs|].
      intros now. unfold getDiamondCollectTimer. by rewrite Hdocs.
    + intros j Hj. rewrite Hout.
      * unfold getDiamondState. by rewrite Hempty.
      * intros i Hi%elem_of_seq. lia.
    + intros create' now1' now2'. unfold createInitialDiamondsIfNeeded. rewrite Hp.
      rewrite bool_decide_eq_true_2; [done|].
      assert (size (playerDiamondStates p') ≠ 0%nat); [|lia].
      apply (map_size_ne_0_lookup_2 _ (diamondKey 0)).
      specialize (Hdocs 0%nat ltac:(lia)). unfold getDiamondState in Hdocs.
      change (Z.of_nat 0) with 0 in Hdocs. by rewrite Hdocs.
  - intros Hne. rewrite bool_decide_eq_true_2; [done|].
    apply map_size_non_empty_iff in Hne. lia.
Qed.

Lemma initial_diamonds_witness :
  state <$> getDiamondState 4
    (createInitialDiamondsIfNeeded (λ _, refused 9000) (λ _, 9000) (λ _, 9000)
       newPlayer noDocuments).1
  = Some emerging
  ∧ createInitialDiamondsIfNeeded (λ _, refused 9000) (λ _, 9000) (λ _, 9000)
      timedPlayer noDocuments = (timedPlayer, noDocuments).
Proof.
  destruct (initial_diamonds (λ _, refused 9000) (λ _, 9000) (λ _, 9000)
              newPlayer noDocuments "0xabc" eq_refl) as [Hnew _].
  destruct (initial_diamonds (λ _, refused 9000) (λ _, 9000) (λ _, 9000)
              timedPlayer noDocuments "0xabc" eq_refl) as [_ Hold].
  specialize (Hnew eq_refl).
  destruct (createInitialDiamondsIfNeeded _ _ _ newPlayer _) as [p' r'].
  destruct Hnew as (Hdocs & _). split.
  - destruct (Hdocs 4%nat ltac:(lia)) as [Hdoc _]. cbn [fst].
    change (Z.of_nat 4) with 4 in Hdoc. by rewrite Hdoc.
  - apply Hold. intros Hempty. apply (f_equal (λ m, m !! diamondKey 0)) in Hempty.
    cbn in Hempty. rewrite lookup_singleton_eq, lookup_empty in Hempty. discriminate.
Defined.

Lemma cleanupOne_young (clean : nat → PutEnv) now i p r :
  (∀ st, getDiamondState (Z.of_nat i) p = Some st → now - spawnedAt st ≤ 86400000) →
  cleanupOne clean now i (p, r) = (p, r).
Proof.
  intros Hyoung. unfold cleanupOne. fold (getDiamondState (Z.of_nat i) p).
  destruct (getDiamondState (Z.of_nat i) p) as [st|]; [|done].
  rewrite bool_decide_eq_false_2; [done|]. specialize (Hyoung st eq_refl). lia.
Qed.

Lemma cleanupOne_old (clean : nat → PutEnv) now i p r st :
  getDiamondState (Z.of_nat i) p = Some st → now - spawnedAt st > 86400000 →
  (cleanupOne clean now i (p, r)).1
  = (saveDiamondState (clean i) (Z.of_nat i) available
       (mkPartialState None (Some None) (Some None) (Some (spawnPosition st))
          (Some now) (Some None) (Some None) (Some None) None None
          (Some (now + 10 * 60 * 1000)) None) p r).1.1.
Proof.
  intros Hst Hold. unfold cleanupOne. fold (getDiamondState (Z.of_nat i) p).
  rewrite Hst, bool_decide_eq_true_2; done.
Qed.

Lemma cleanupAll_young (clean : nat → PutEnv) now (l : list nat) p r :
  (∀ i st, i ∈ l → getDiamondState (Z.of_nat i) p = Some st →
     now - spawnedAt st ≤ 86400000) →
  foldl (λ pr i, cleanupOne clean now i pr) (p, r) l = (p, r).
Proof.
  induction l as [|i l IH]; intros Hyoung; [done|]. cbn [foldl].
  rewrite cleanupOne_young by (intros st; apply Hyoung; left).
  apply IH. intros i' st Hi'. apply Hyoung. by right.
Qed.

Lemma cleanupAll (clean : nat → PutEnv) now (l : list nat) p r playerId :
  playerSet p = Some playerId → NoDup l →
  let p' := (foldl (λ pr i, cleanupOne clean now i pr) (p, r) l).1 in
  playerSet p' = Some playerId
  ∧ (∀ i st, i ∈ l → getDiamondState (Z.of_nat i) p = Some st →
       now - spawnedAt st > 86400000 →
       getDiamondState (Z.of_nat i) p'
       = Some (mkDiamondState available None None (spawnPosition st) now None None None
                 (collectTimer st) (collectTimerStartedAt st) (now + 600000)
                 (respawnCount st)))
  ∧ (∀ j, (∀ i st, i ∈ l → j = Z.of_nat i → getDiamondState j p = Some st →
             now - spawnedAt st ≤ 86400000) →
       getDiamondState j p' = getDiamondState j p).
Proof.
  revert p r. induction l as [|i l IH]; intros p r Hplayer Hnd; cbn zeta.
  - repeat split; [done|by intros i st ?%elem_of_nil].
  - apply NoDup_cons in Hnd as [Hi Hnd]. cbn [foldl].
    assert (∃ p1 r1, cleanupOne clean now i (p, r) = (p1, r1)
              ∧ playerSet p1 = Some playerId
              ∧ (∀ j, j ≠ Z.of_nat i → getDiamondState j p1 = getDiamondState j p)
              ∧ (∀ st, getDiamondState (Z.of_nat i) p = Some st →
                   now - spawnedAt st > 86400000 →
                   getDiamondState (Z.of_nat i) p1
                   = Some (mkDiamondState available None None (spawnPosition st) now None
                             None None (collectTimer st) (collectTimerStartedAt st)
                             (now + 600000) (respawnCount st)))
              ∧ ((∀ st, getDiamondState (Z.of_nat i) p = Some st →
                    now - spawnedAt st ≤ 86400000) → p1 = p))
      as (p1 & r1 & Hone & Hplayer1 & Hother & Hold & Hyoung).
    { destruct (getDiamondState (Z.of_nat i) p) as [st|] eqn:Hst.
      - destruct (decide (now - spawnedAt st > 86400000)) as [Hage|Hage].
        + pose proof (cleanupOne_old clean now i p r st Hst Hage) as Hone.
          destruct (cleanupOne clean now i (p, r)) as [p1 r1]. cbn [fst] in Hone.
          exists p1, r1. split; [done|]. rewrite Hone. split; [|split; [|split]].
          * by rewrite saveDiamondState_playerSet.
          * intros j Hj. by apply saveDiamondState_other.
          * intros st' [= <-] _.
            rewrite (saveDiamondState_memory _ _ _ _ _ _ _ Hplayer), Hst. done.
          * intros Hyoung. specialize (Hyoung st eq_refl). lia.
        + exists p, r. rewrite cleanupOne_young.
          * repeat split; try done. intros st' [= <-] ?. lia.
          * rewrite Hst. intros st' [= <-]. lia.
      - exists p, r. rewrite cleanupOne_young by (by rewrite Hst). done. }
    rewrite Hone. destruct (IH p1 r1 Hplayer1 Hnd) as (Hp & Hin & Hout).
    split; [done|]. split.
    + intros i' st [->|Hi']%elem_of_cons Hst Hage.
      * rewrite Hout; [by apply Hold|].
        intros i' st' Hi' Heq%(inj Z.of_nat). by subst.
      * apply Hin; [done| |done]. rewrite Hother; [done|].
        intros Heq%(inj Z.of_nat). by subst.
    + intros j Hj. destruct (decide (j = Z.of_nat i)) as [->|Hne].
      * rewrite Hout.
        -- rewrite Hyoung; [done|]. intros st Hst. apply (Hj i st); [left|done|done].
        -- intros i' st' Hi' Heq%(inj Z.of_nat). by subst.
      * rewrite Hout, Hother; [done|done|].
        intros i' st Hi' Heq Hst. rewrite Hother in Hst by done.
        apply (Hj i' st); [by right|done|done].
Qed.

(** X16.  [cleanupOldDiamondStates] resets the old documents and nothing
    else.  A document of an index 0 to 4 spawned more than 24 h before [now]
    becomes [available] with its spawn position, timer fields and respawn
    count kept, its collection and drop fields cleared, spawned at [now] and
    expiring ten minutes later, hence available at [now].  Every other
    document, and every absent one, is as before.  A second clean-up at the
    same instant changes nothing and sends nothing. *)
Theorem cleanup_resets_only_old_diamonds (clean : nat → PutEnv) now p r playerId :
  playerSet p = Some playerId →
  let '(p', r') := cleanupOldDiamondStates clean now p r in
  (∀ i st, (i < 5)%nat → getDiamondState (Z.of_nat i) p = Some st →
     now - spawnedAt st > 86400000 →
     getDiamondState (Z.of_nat i) p'
     = Some (mkDiamondState available None None (spawnPosition st) now None None None
               (collectTimer st) (collectTimerStartedAt st) (now + 600000)
               (respawnCount st))
     ∧ isDiamondAvailable now (Z.of_nat i) p' = true)
  ∧ (∀ j, (∀ st, 0 ≤ j < 5 → getDiamondState j p = Some st →
             now - spawnedAt st ≤ 86400000) →
       getDiamondState j p' = getDiamondState j p)
  ∧ ∀ clean' : nat → PutEnv, cleanupOldDiamondStates clean' now p' r' = (p', r').
Proof.
  intros Hplayer. unfold cleanupOldDiamondStates at 1. rewrite Hplayer.
  destruct (cleanupAll clean now (seq 0 5) p r playerId Hplayer (NoDup_seq 0 5))
    as (Hp & Hin & Hout).
  destruct (foldl _ (p, r) (seq 0 5)) as [p' r']. cbn [fst] in *.
  assert (∀ i st, (i < 5)%nat → getDiamondState (Z.of_nat i) p = Some st →
            now - spawnedAt st > 86400000 →
            getDiamondState (Z.of_nat i) p'
            = Some (mkDiamondState available None None (spawnPosition st) now None None None
                      (collectTimer st) (collectTimerStartedAt st) (now + 600000)
                      (respawnCount st))) as Hreset.
  { intros i st Hi. apply Hin, elem_of_seq. lia. }
  assert (∀ j, (∀ st, 0 ≤ j < 5 → getDiamondState j p = Some st →
                  now - spawnedAt st ≤ 86400000) →
            getDiamondState j p' = getDiamondState j p) as Hkept.
  { intros j Hj. apply Hout. intros i st Hi%elem_of_seq -> Hst.
    apply (Hj st); [lia|done]. }
  split; [|split; [done|]].
  - intros i st Hi Hst Hage. split; [by apply Hreset|].
    unfold isDiamondAvailable. rewrite (Hreset i st Hi Hst Hage). cbn.
    rewrite bool_decide_eq_false_2 by lia. done.
  - intros clean'. unfold cleanupOldDiamondStates. rewrite Hp.
    apply cleanupAll_young. intros i st' Hi%elem_of_seq Hst'.
    destruct (getDiamondState (Z.of_nat i) p) as [st|] eqn:Hst.
    + destruct (decide (now - spawnedAt st > 86400000)) as [Hage|Hage].
      * rewrite (Hreset i st ltac:(lia) Hst Hage) in Hst'. injection Hst' as <-. cbn. lia.
      * rewrite Hkept, Hst in Hst'.
        -- injection Hst' as <-. lia.
        -- rewrite Hst. intros st0 _ [= <-]. lia.
    + rewrite Hkept, Hst in Hst'; [done|]. rewrite Hst. done.
Qed.

Lemma cleanup_resets_only_old_diamonds_witness :
  state <$> getDiamondState 0 (cleanupOldDiamondStates (λ _, agreed 90000000) 90000000 timedPlayer noDocuments).1
  = Some available.
Proof.
  pose proof (cleanup_resets_only_old_diamonds (λ _, agreed 90000000) 90000000 timedPlayer noDocuments
                "0xabc" eq_refl) as H.
  destruct (cleanupOldDiamondStates (λ _, agreed 90000000) 90000000 timedPlayer noDocuments) as [p' r'].
  destruct H as (Hreset & _).
  destruct (Hreset 0%nat timedDocument ltac:(lia) eq_refl) as [Hdoc _].
  - vm_compute. done.
  - cbn [fst]. change (Z.of_nat 0) with 0 in Hdoc. by rewrite Hdoc.
Defined.
End diamond_module_facts.

(** * The rest of robust-diamond-persistence.ts *)

Section robust_module_facts.
Import Retry Robust.
Implicit Types (w : World) (e : SaveEnv) (d : DrainEnv) (l : LoadEnv).
Implicit Types (address name : string) (diamonds : Z).

(** X17.  [limitPlayerBackups] never changes anything: it collects at
    most one copy from each of three sources, so the sorted list never has
    more than [MAX_BACKUPS_PER_PLAYER] = 3 elements and the list to delete
    is empty, whatever the three GETs answer. *)
Theorem limitPlayerBackups_never_deletes e address w :
  limitPlayerBackups e address w = w
  ∧ ∀ fromPrimary fromBackup fromGlobal,
      collect (limitPrimary e) (primary w !! address) SrcPrimary pd_timestamp
        = Some fromPrimary →
      collect (limitBackup e) (diamondBackups w !! address) SrcBackup b_timestamp
        = Some fromBackup →
      collect (limitGlobal e) (globalDiamondBackup w !! address) SrcGlobal g_timestamp
        = Some fromGlobal →
      drop MAX_BACKUPS_PER_PLAYER
        (merge_sort newerFirst (fromPrimary ++ fromBackup ++ fromGlobal)) = [].
Proof.
  split; [apply limitPlayerBackups_noop|].
  intros l1 l2 l3 H1%collect_length H2%collect_length H3%collect_length.
  apply drop_ge.
  rewrite (Permutation_length (merge_sort_Permutation newerFirst _)).
  rewrite !length_app. unfold MAX_BACKUPS_PER_PLAYER. lia.
Qed.

Lemma limitPlayerBackups_never_deletes_witness :
  limitPlayerBackups (calm 1000) "0xabc" holding3 = holding3.
Proof.
  exact (proj1 (limitPlayerBackups_never_deletes (calm 1000) "0xabc" holding3)).
Defined.

(** X18.  [recoverPlayerDiamonds] and [verifyDiamondIntegrity] are the
    same function: in every world and whatever the network answers, they
    leave the same world and return the same value. *)
Theorem recover_is_verify l e d address name currentDiamonds w :
  recoverPlayerDiamonds l e d address name currentDiamonds w
  = verifyDiamondIntegrity l e d address name currentDiamonds w.
Proof.
  unfold recoverPlayerDiamonds, verifyDiamondIntegrity.
  set (read := loadPlayerDiamondsRobust l address w).
  destruct (decide (read > currentDiamonds)) as [Hgt|Hle].
  - rewrite !bool_decide_eq_true_2 by lia.
    by replace (Z.max currentDiamonds read) with read by lia.
  - rewrite (bool_decide_eq_false_2 (read > currentDiamonds)) by done.
    case_bool_decide; [|done]. rewrite bool_decide_eq_false_2 by lia. done.
Qed.


(** *** The coordinated write, field by field *)

Lemma savePlayerDiamondsPrimary_held e address name diamonds w :
  writeMutex w = true → savePlayerDiamondsPrimary e address name diamonds w = (w, false).
Proof. intros Hheld. unfold savePlayerDiamondsPrimary. by rewrite Hheld. Qed.

Lemma savePlayerDiamondsPrimary_accepted e address name diamonds w :
  writeMutex w = false → accepted (primaryPut e 1) = true →
  savePlayerDiamondsPrimary e address name diamonds w
  = (with_primary
       (<[address := mkPlayerDiamondData name diamonds (save_now e) 2
                       (Some (mkDiamondBackup diamonds (save_now e) 2 "backup1"))
                       (Some (mkDiamondBackup diamonds (save_now e) 2 "backup2"))]>
          (primary w)) w, true).
Proof.
  intros Hfree Hok. unfold savePlayerDiamondsPrimary. rewrite Hfree.
  unfold retryWithBackoff, MAX_RETRY_ATTEMPTS. cbn [retryLoop]. unfold putPrimary.
  destruct (primaryPut e 1) as [err|[] status text]; try done.
  cbn. f_equal. destruct w; cbn in *; by subst.
Qed.

Lemma saveWith_fields e address name diamonds w :
  ∃ w6 (failedAll : bool),
    Saved (save_now e) address name diamonds w w6
    ∧ writeMutex w6 = writeMutex w
    ∧ saveMetrics w6
      = mkSaveMetrics (S (totalAttempts (saveMetrics w)))
          (if failedAll then successfulSaves (saveMetrics w)
           else S (successfulSaves (saveMetrics w)))
          (if failedAll then S (failedSaves (saveMetrics w))
           else failedSaves (saveMetrics w))
          (retryAttempts (saveMetrics w)) (S (localBackupsUsed (saveMetrics w)))
          (save_now e)
    ∧ (writeMutex w = true → primary w6 = primary w)
    ∧ (writeMutex w = false → accepted (primaryPut e 1) = true →
       failedAll = false
       ∧ primary w6
         = <[address := mkPlayerDiamondData name diamonds (save_now e) 2
                          (Some (mkDiamondBackup diamonds (save_now e) 2 "backup1"))
                          (Some (mkDiamondBackup diamonds (save_now e) 2 "backup2"))]>
             (primary w))
    ∧ (failedAll = true →
       primary w6 = primary w ∧ diamondBackups w6 = diamondBackups w
       ∧ globalDiamondBackup w6 = globalDiamondBackup w)
    ∧ ∀ process, saveWith process e address name diamonds w
      = (if failedAll then
           if negb (isProcessingQueue w6) then process (enqueue e address name diamonds w6)
           else enqueue e address name diamonds w6
         else w6, Return true).
Proof.
  unfold saveWith.
  pose proof (savePlayerDiamondsPrimary_held e address name diamonds
                (countAttempt (save_now e) w)) as Hheld.
  pose proof (savePlayerDiamondsPrimary_accepted e address name diamonds
                (countAttempt (save_now e) w)) as Hacc.
  destruct (savePlayerDiamondsPrimary_spec e address name diamonds
              (countAttempt (save_now e) w)) as (w1 & r1 & Heq1 & Ht1 & Hf1 & Hw1).
  rewrite Heq1 in Hheld, Hacc |- *.
  destruct (savePlayerDiamondsBackup_spec e address name diamonds w1)
    as (w2 & r2 & -> & Ht2 & Hf2 & Hw2).
  destruct (saveGlobalDiamondBackup_spec e address name diamonds w2)
    as (w3 & r3 & -> & Ht3 & Hf3 & Hw3).
  rewrite limitPlayerBackups_noop.
  set (successCount := length (filter (λ r, r = true) [r1; r2; r3])).
  set (w6 := savePlayerDiamondsLocally _ _ _ _ _).
  exists w6, (bool_decide (successCount = 0%nat)).
  pose proof (f_equal diamondBackups Hw1) as Hb1.
  pose proof (f_equal globalDiamondBackup Hw1) as Hg1.
  pose proof (f_equal primary Hw2) as Hp2.
  pose proof (f_equal globalDiamondBackup Hw2) as Hg2.
  pose proof (f_equal primary Hw3) as Hp3.
  pose proof (f_equal diamondBackups Hw3) as Hb3.
  cbn in Hb1, Hg1, Hp2, Hg2, Hp3, Hb3.
  assert (primary w6 = primary w1) as Hp6 by (subst w6; cbn; by rewrite Hp3, Hp2).
  split; [|split; [|split; [|split; [|split; [|split]]]]].
  - subst w6. constructor; cbn.
    + by rewrite Hw3, Hw2, Hw1.
    + by rewrite Hp3, Hp2.
    + by rewrite Hb3, <- Hb1.
    + by rewrite <- Hg1, <- Hg2.
    + by rewrite Hw3, Hw2, Hw1.
    + by rewrite Hw3, Hw2, Hw1.
    + rewrite Hw3, Hw2, Hw1. cbn. by case_bool_decide.
  - subst w6. cbn. by rewrite Hw3, Hw2, Hw1.
  - subst w6. cbn. rewrite Hw3, Hw2, Hw1. cbn.
    destruct r1, r2, r3; cbn; done.
  - intros Hm. rewrite Hp6. specialize (Hheld Hm). by simplify_eq.
  - intros Hm Hok. specialize (Hacc Hm Hok). simplify_eq. split; [done|].
    rewrite Hp6. done.
  - intros Hall%bool_decide_eq_true.
    assert (r1 = false ∧ r2 = false ∧ r3 = false) as (-> & -> & ->).
    { subst successCount. destruct r1, r2, r3; cbn in Hall; try done. }
    subst w6. cbn. rewrite Hp3, Hp2, Hf1, Hb3, Hf2, Hb1, Hf3, Hg2, Hg1 by done.
    done.
  - intros process. case_bool_decide; [|done]. cbn zeta.
    change (isProcessingQueue (with_queue _ w6)) with (isProcessingQueue w6).
    done.
Qed.


(** *** One turn of the drain *)

Lemma delete_insert_app {A} (q tail : list A) (i : nat) (x : A) :
  (i < length q)%nat → delete i (<[i := x]> q ++ tail) = delete i q ++ tail.
Proof.
  revert i. induction q as [|y q IH]; intros [|i] Hi; cbn in *; try lia; [done|].
  f_equal. apply IH. lia.
Qed.

Lemma retryEntry_skip d i w fs :
  failedSavesQueue w !! i = Some fs → drain_now d - lastAttempt fs < 5000 →
  retryEntry d i w = (w, Return ()).
Proof.
  intros Hi Hearly. unfold retryEntry. rewrite Hi. by rewrite bool_decide_eq_true_2.
Qed.

Lemma retryEntry_due d i w fs :
  failedSavesQueue w !! i = Some fs → ¬ drain_now d - lastAttempt fs < 5000 →
  isProcessingQueue w = true →
  ∃ w' (tail : list FailedSave),
    retryEntry d i w = (w', Return ())
    ∧ isProcessingQueue w' = true
    ∧ writeMutex w' = writeMutex w
    ∧ failedSavesQueue w' = delete i (failedSavesQueue w) ++ tail
    ∧ (tail = []
       ∨ tail = [mkFailedSave (fs_address fs) (fs_name fs) (fs_diamonds fs) 0
                   (save_now (retryEnv d i))])
    ∧ localDiamondStorage w'
      = <[fs_address fs :=
            mkLocalDiamondData (fs_address fs) (fs_name fs) (fs_diamonds fs)
              (save_now (retryEnv d i)) 2]> (localDiamondStorage w)
    ∧ totalAttempts (saveMetrics w') = S (totalAttempts (saveMetrics w))
    ∧ (successfulSaves (saveMetrics w') + failedSaves (saveMetrics w')
       = S (successfulSaves (saveMetrics w) + failedSaves (saveMetrics w)))%nat
    ∧ retryAttempts (saveMetrics w') = S (retryAttempts (saveMetrics w))
    ∧ localBackupsUsed (saveMetrics w') = S (localBackupsUsed (saveMetrics w))
    ∧ (writeMutex w = true → primary w' = primary w).
Proof.
  intros Hi Hdue Hflag. unfold retryEntry. rewrite Hi.
  rewrite bool_decide_eq_false_2 by done.
  set (retried := mkFailedSave _ _ _ _ _).
  set (w2 := countRetry _).
  destruct (saveWith_fields (retryEnv d i) (fs_address retried) (fs_name retried)
              (fs_diamonds retried) w2)
    as (w6 & failedAll & Hsaved & Hmutex & Hmetrics & Hheld & _ & _ & Heq).
  rewrite Heq. destruct Hsaved as [Hlocal _ _ _ Hqueue Hproc _].
  assert (isProcessingQueue w6 = true) as Hflag6 by (by rewrite Hproc).
  rewrite Hflag6. cbn [negb].
  assert (i < length (failedSavesQueue w))%nat as Hlen by (by eapply lookup_lt_Some).
  eexists _, (if failedAll then [_] else []). split; [reflexivity|].
  destruct failedAll; cbn; rewrite ?Hqueue, ?Hlocal, ?Hmetrics, ?Hmutex, ?Hflag6; cbn.
  - rewrite (delete_insert_app _ _ _ _ Hlen). repeat split; try done; auto with lia.
  - rewrite <- (app_nil_r (<[i := retried]> _)), (delete_insert_app _ _ _ _ Hlen).
    repeat split; try done; auto with lia.
Qed.

(** *** Invariants of a drain and of a write *)

Lemma retryEntry_returns d i w :
  (i < length (failedSavesQueue w))%nat → isProcessingQueue w = true →
  ∃ w', retryEntry d i w = (w', Return ())
        ∧ isProcessingQueue w' = true
        ∧ (i ≤ length (failedSavesQueue w'))%nat.
Proof.
  intros Hi Hflag. destruct (lookup_lt_is_Some_2 _ _ Hi) as [fs Hfs].
  destruct (decide (drain_now d - lastAttempt fs < 5000)) as [Hearly|Hdue].
  - exists w. rewrite (retryEntry_skip d i w fs Hfs Hearly). auto with lia.
  - destruct (retryEntry_due d i w fs Hfs Hdue Hflag)
      as (w' & tail & Heq & Hflag' & _ & Hqueue & _).
    exists w'. split; [done|]. split; [done|].
    rewrite Hqueue, length_app, length_delete by eauto. lia.
Qed.

Lemma drainFrom_invariant (P : World → Prop) d k w :
  (∀ i s, P s → isProcessingQueue s = true →
          (i < length (failedSavesQueue s))%nat → P (retryEntry d i s).1) →
  (k ≤ length (failedSavesQueue w))%nat → isProcessingQueue w = true → P w →
  ∃ w', drainFrom d k w = (w', Return ()) ∧ isProcessingQueue w' = true ∧ P w'.
Proof.
  intros Hturn. revert w. induction k as [|i IH]; intros w Hk Hflag HP; [by exists w|].
  cbn [drainFrom].
  destruct (retryEntry_returns d i w) as (w1 & Heq & Hflag1 & Hlen1); [lia|done|].
  pose proof (Hturn i w HP Hflag ltac:(lia)) as HP1.
  rewrite Heq in HP1 |- *. by apply IH.
Qed.

Lemma processFailedSavesQueue_invariant (P : World → Prop) d w :
  (∀ i s, P s → isProcessingQueue s = true →
          (i < length (failedSavesQueue s))%nat → P (retryEntry d i s).1) →
  (∀ b s, P s → P (with_isProcessingQueue b s)) →
  P w → P (processFailedSavesQueue d w).1
        ∧ isProcessingQueue (processFailedSavesQueue d w).1 = isProcessingQueue w.
Proof.
  intros Hturn Hflag HP. unfold processFailedSavesQueue.
  destruct (isProcessingQueue w) eqn:Hw; [done|]. cbn [orb].
  case_bool_decide; [done|]. cbn zeta.
  destruct (drainFrom_invariant P d
              (length (failedSavesQueue (with_isProcessingQueue true w)))
              (with_isProcessingQueue true w) Hturn) as (w2 & -> & _ & HP2); auto.
  cbn [fst]. split; [by apply Hflag|done].
Qed.

Lemma savePlayerDiamondsRobust_invariant (P : World → Prop) e d address name diamonds w :
  (∀ i s, P s → isProcessingQueue s = true →
          (i < length (failedSavesQueue s))%nat → P (retryEntry d i s).1) →
  (∀ b s, P s → P (with_isProcessingQueue b s)) →
  P (saveWith (λ s, s) e address name diamonds w).1 →
  P (savePlayerDiamondsRobust e d address name diamonds w).1
  ∧ isProcessingQueue (savePlayerDiamondsRobust e d address name diamonds w).1
    = isProcessingQueue w.
Proof.
  intros Hturn Hflag. unfold savePlayerDiamondsRobust.
  destruct (saveWith_fields e address name diamonds w)
    as (w6 & failedAll & Hsaved & _ & _ & _ & _ & _ & Heq).
  rewrite !Heq. cbn [fst].
  pose proof (saved_processing _ _ _ _ _ _ Hsaved) as Hproc.
  destruct failedAll; [|done].
  destruct (isProcessingQueue w6) eqn:H6; cbn [negb]; [by rewrite <- Hproc|].
  intros HP.
  destruct (processFailedSavesQueue_invariant P d (enqueue e address name diamonds w6)
              Hturn Hflag HP) as [HP' Hflag'].
  split; [done|]. rewrite Hflag'. cbn. congruence.
Qed.

Lemma step_invariant (P : World → Prop) s w :
  (∀ d i s, P s → isProcessingQueue s = true →
            (i < length (failedSavesQueue s))%nat → P (retryEntry d i s).1) →
  (∀ b s, P s → P (with_isProcessingQueue b s)) →
  (∀ e address name diamonds s, P s → P (saveWith (λ s, s) e address name diamonds s).1) →
  P w → P (step s w) ∧ isProcessingQueue (step s w) = isProcessingQueue w.
Proof.
  intros Hturn Hflag Hbody HP. destruct s as [e d address name diamonds|d]; cbn [step].
  - apply savePlayerDiamondsRobust_invariant; auto.
  - apply processFailedSavesQueue_invariant; auto.
Qed.

Lemma run_invariant (P : World → Prop) steps w :
  (∀ d i s, P s → isProcessingQueue s = true →
            (i < length (failedSavesQueue s))%nat → P (retryEntry d i s).1) →
  (∀ b s, P s → P (with_isProcessingQueue b s)) →
  (∀ e address name diamonds s, P s → P (saveWith (λ s, s) e address name diamonds s).1) →
  P w → P (run steps w) ∧ isProcessingQueue (run steps w) = isProcessingQueue w.
Proof.
  intros Hturn Hflag Hbody. revert w. unfold run.
  induction steps as [|s steps IH]; intros w HP; [done|]. cbn [foldl].
  destruct (step_invariant P s w Hturn Hflag Hbody HP) as [HP1 Hflag1].
  destruct (IH _ HP1) as [HP2 Hflag2]. split; [done|congruence].
Qed.

(** The mutex is free and no queued entry has been re-attempted. *)
Lemma fresh_turn d i s :
  writeMutex s = false ∧ Forall (λ fs, attempts fs = 0%nat) (failedSavesQueue s) →
  isProcessingQueue s = true → (i < length (failedSavesQueue s))%nat →
  writeMutex (retryEntry d i s).1 = false
  ∧ Forall (λ fs, attempts fs = 0%nat) (failedSavesQueue (retryEntry d i s).1).
Proof.
  intros [Hmutex Hfresh] Hflag Hi. destruct (lookup_lt_is_Some_2 _ _ Hi) as [fs Hfs].
  destruct (decide (drain_now d - lastAttempt fs < 5000)) as [Hearly|Hdue].
  - by rewrite (retryEntry_skip d i s fs Hfs Hearly).
  - destruct (retryEntry_due d i s fs Hfs Hdue Hflag)
      as (w' & tail & -> & _ & Hmutex' & Hqueue & Htail & _).
    cbn [fst]. split; [congruence|]. rewrite Hqueue. apply Forall_app. split.
    + by apply Forall_delete.
    + destruct Htail as [->| ->]; repeat constructor.
Qed.

Lemma fresh_body e address name diamonds s :
  writeMutex s = false ∧ Forall (λ fs, attempts fs = 0%nat) (failedSavesQueue s) →
  writeMutex (saveWith (λ s, s) e address name diamonds s).1 = false
  ∧ Forall (λ fs, attempts fs = 0%nat)
      (failedSavesQueue (saveWith (λ s, s) e address name diamonds s).1).
Proof.
  intros [Hmutex Hfresh].
  destruct (saveWith_fields e address name diamonds s)
    as (w6 & failedAll & Hsaved & Hmutex6 & _ & _ & _ & _ & ->).
  pose proof (saved_queue _ _ _ _ _ _ Hsaved) as Hqueue.
  destruct failedAll; cbn [fst].
  - replace (if negb (isProcessingQueue w6) then enqueue e address name diamonds w6
             else enqueue e address name diamonds w6)
      with (enqueue e address name diamonds w6) by (by destruct (negb _)).
    cbn. rewrite Hqueue. split; [congruence|].
    apply Forall_app. split; [done|]. repeat constructor.
  - rewrite Hqueue. split; [congruence|done].
Qed.

(** *** The world when a write returns *)

Lemma drainFrom_noneDue d k w :
  noneDue (drain_now d) w → (k ≤ length (failedSavesQueue w))%nat →
  drainFrom d k w = (w, Return ()).
Proof.
  intros Hnone. induction k as [|i IH]; intros Hk; [done|]. cbn [drainFrom].
  destruct (lookup_lt_is_Some_2 (failedSavesQueue w) i) as [fs Hfs]; [lia|].
  rewrite (retryEntry_skip d i w fs Hfs).
  - apply IH. lia.
  - apply (proj1 (Forall_forall _ _) Hnone). apply list_elem_of_lookup. eauto.
Qed.

Lemma startDrainFrom_cases d k w :
  (k ≤ length (failedSavesQueue w))%nat →
  (startDrainFrom d k w = (w, Return false)
   ∧ ∀ i fs, (i < k)%nat → failedSavesQueue w !! i = Some fs →
             drain_now d - lastAttempt fs < 5000)
  ∨ ∃ i fs,
      failedSavesQueue w !! i = Some fs
      ∧ ¬ drain_now d - lastAttempt fs < 5000
      ∧ startDrainFrom d k w
        = (with_writeMutex true
             (countAttempt (save_now (retryEnv d i))
                (countRetry
                   (with_queue
                      (<[i := mkFailedSave (fs_address fs) (fs_name fs) (fs_diamonds fs)
                               (S (attempts fs)) (drain_now d)]> (failedSavesQueue w))
                      w))),
           Return true).
Proof.
  induction k as [|k IH]; intros Hk.
  - left. split; [done|]. intros i fs Hi. lia.
  - cbn [startDrainFrom].
    destruct (lookup_lt_is_Some_2 (failedSavesQueue w) k) as [fs Hfs]; [lia|].
    rewrite Hfs. case_bool_decide as Hearly.
    + destruct IH as [[Heq Hall]|Hdue]; [lia| |by right].
      left. split; [done|]. intros i fs' Hi Hfs'.
      destruct (decide (i = k)) as [->|Hne]; [by simplify_eq|].
      apply (Hall i fs'); [lia|done].
    + right. by exists k, fs.
Qed.

Lemma with_isProcessingQueue_same w :
  with_isProcessingQueue (isProcessingQueue w) w = w.
Proof. by destruct w. Qed.

Lemma processFailedSavesQueue_noneDue d w :
  isProcessingQueue w = false → noneDue (drain_now d) w →
  (processFailedSavesQueue d w).1 = w.
Proof.
  intros Hflag Hnone. unfold processFailedSavesQueue. rewrite Hflag. cbn [orb].
  case_bool_decide as Hlen; [done|]. cbn zeta.
  rewrite drainFrom_noneDue; [|done|done]. cbn [fst].
  rewrite <- Hflag at 1. destruct w; cbn in *; by subst.
Qed.

Lemma startDrain_cases d w :
  isProcessingQueue w = false →
  (noneDue (drain_now d) w ∧ startDrain d w = w)
  ∨ ∃ i fs,
      failedSavesQueue w !! i = Some fs
      ∧ ¬ drain_now d - lastAttempt fs < 5000
      ∧ startDrain d w
        = with_writeMutex true
            (countAttempt (save_now (retryEnv d i))
               (countRetry
                  (with_queue
                     (<[i := mkFailedSave (fs_address fs) (fs_name fs) (fs_diamonds fs)
                              (S (attempts fs)) (drain_now d)]> (failedSavesQueue w))
                     (with_isProcessingQueue true w)))).
Proof.
  intros Hflag. unfold startDrain. rewrite Hflag. cbn [orb].
  case_bool_decide as Hlen.
  { left. split; [|done]. unfold noneDue.
    destruct (failedSavesQueue w); [constructor|done]. }
  cbn zeta.
  destruct (startDrainFrom_cases d (length (failedSavesQueue (with_isProcessingQueue true w)))
              (with_isProcessingQueue true w)) as [[-> Hall]|(i & fs & Hfs & Hdue & ->)];
    [done| |].
  - left. split.
    + apply Forall_forall. intros fs [i Hfs]%list_elem_of_lookup.
      apply (Hall i fs); [|done]. by eapply lookup_lt_Some.
    + rewrite <- Hflag. destruct w; cbn in *; by subst.
  - right. by exists i, fs.
Qed.

Lemma savePlayerDiamondsRobustReturns_cases e d address name v w :
  savePlayerDiamondsRobustReturns e d address name v w
  = (savePlayerDiamondsRobust e d address name v w).1
  ∨ ∃ i fs,
      let w' := (saveWith (λ s, s) e address name v w).1 in
      isProcessingQueue w' = false
      ∧ failedSavesQueue w' !! i = Some fs
      ∧ ¬ drain_now d - lastAttempt fs < 5000
      ∧ savePlayerDiamondsRobustReturns e d address name v w
        = with_writeMutex true
            (countAttempt (save_now (retryEnv d i))
               (countRetry
                  (with_queue
                     (<[i := mkFailedSave (fs_address fs) (fs_name fs) (fs_diamonds fs)
                              (S (attempts fs)) (drain_now d)]> (failedSavesQueue w'))
                     (with_isProcessingQueue true w')))).
Proof.
  unfold savePlayerDiamondsRobustReturns, savePlayerDiamondsRobust.
  destruct (saveWith_fields e address name v w)
    as (w6 & failedAll & _ & _ & _ & _ & _ & _ & Heq).
  rewrite !Heq. cbn [fst].
  destruct failedAll; [|by left].
  destruct (isProcessingQueue w6) eqn:Hflag; cbn [negb]; [by left|].
  assert (isProcessingQueue (enqueue e address name v w6) = false) as Hflag' by done.
  destruct (startDrain_cases d (enqueue e address name v w6) Hflag')
    as [[Hnone ->]|(i & fs & Hfs & Hdue & ->)].
  - left. by rewrite processFailedSavesQueue_noneDue.
  - right. by exists i, fs.
Qed.

Lemma returns_draining e d address name v w :
  Forall (λ fs, attempts fs = 0%nat) (failedSavesQueue w) →
  savePlayerDiamondsRobustReturns e d address name v w
  = (savePlayerDiamondsRobust e d address name v w).1
  ∨ draining (savePlayerDiamondsRobustReturns e d address name v w).
Proof.
  intros Hfresh.
  destruct (savePlayerDiamondsRobustReturns_cases e d address name v w)
    as [Heq|(i & fs & Hflag & Hfs & Hdue & ->)]; [by left|right].
  cbn zeta in *.
  assert (Forall (λ fs, attempts fs = 0%nat)
            (failedSavesQueue (saveWith (λ s, s) e address name v w).1)) as Hfresh'.
  { destruct (saveWith_fields e address name v w)
      as (w6 & failedAll & Hsaved & _ & _ & _ & _ & _ & ->).
    pose proof (saved_queue _ _ _ _ _ _ Hsaved) as Hqueue.
    destruct failedAll; [destruct (negb (isProcessingQueue w6))|]; cbn;
      rewrite Hqueue; try done;
      (apply Forall_app; split; [done|repeat constructor]). }
  set (w' := (saveWith (λ s, s) e address name v w).1) in *.
  assert (i < length (failedSavesQueue w'))%nat as Hi by (by eapply lookup_lt_Some).
  split; [done|]. split; [done|]. cbn.
  eexists i, _. split; [by apply list_lookup_insert_eq|]. split.
  - cbn. f_equal. apply (proj1 (Forall_forall _ _) Hfresh' fs).
    apply list_elem_of_lookup. eauto.
  - intros j other Hj Hother. rewrite list_lookup_insert_ne in Hother by done.
    apply (proj1 (Forall_forall _ _) Hfresh' other). apply list_elem_of_lookup. eauto.
Qed.

Lemma returns_counters e d address name v w :
  accounted (saveMetrics (saveWith (λ s, s) e address name v w).1) →
  savePlayerDiamondsRobustReturns e d address name v w
  = (savePlayerDiamondsRobust e d address name v w).1
  ∨ accountedInFlight
      (saveMetrics (savePlayerDiamondsRobustReturns e d address name v w)).
Proof.
  intros Hacc.
  destruct (savePlayerDiamondsRobustReturns_cases e d address name v w)
    as [Heq|(i & fs & Hflag & Hfs & Hdue & ->)]; [by left|right].
  unfold accounted, accountedInFlight in *. cbn. lia.
Qed.

(** X19.  The module is settled whenever no drain is in flight.  From a
    world where the write mutex and the drain flag are free and no queued
    entry has been re-attempted, the same holds after any sequence of
    coordinated writes and drains that do not overlap, each taken with the
    drain it starts run to its end, whatever the network answers.  A drain
    started there goes through the whole queue without throwing: removing
    entries while counting down never makes it read past the end.  At the
    moment a write made there returns, either the world is already the one
    at the end of the call, or the drain the write started is in flight:
    the drain flag and the write mutex are held and one queued entry, the
    one being re-attempted, has [attempts = 1]. *)
Theorem run_stays_settled steps w :
  settled w →
  settled (run steps w)
  ∧ (∀ d, ∃ w',
      drainFrom d (length (failedSavesQueue (run steps w)))
        (with_isProcessingQueue true (run steps w)) = (w', Return ()))
  ∧ ∀ e d address name v,
      savePlayerDiamondsRobustReturns e d address name v (run steps w)
      = (savePlayerDiamondsRobust e d address name v (run steps w)).1
      ∨ draining (savePlayerDiamondsRobustReturns e d address name v (run steps w)).
Proof.
  intros (Hmutex & Hflag & Hfresh).
  destruct (run_invariant
              (λ s, writeMutex s = false
                    ∧ Forall (λ fs, attempts fs = 0%nat) (failedSavesQueue s))
              steps w) as [[Hmutex' Hfresh'] Hflag']; auto.
  - intros d. apply fresh_turn.
  - intros e address name diamonds. apply fresh_body.
  - split; [split; [done|split; [congruence|done]]|]. split.
    + intros d.
      destruct (drainFrom_invariant (λ _, True) d
                  (length (failedSavesQueue (with_isProcessingQueue true (run steps w))))
                  (with_isProcessingQueue true (run steps w))) as (w' & Heq & _); eauto.
    + intros e d address name v. by apply returns_draining.
Qed.

Lemma run_stays_settled_witness :
  settled (run (outage ++ fourDrains) emptyWorld)
  ∧ draining (savePlayerDiamondsRobustReturns (down 7000) (downDrain 7000) "0xabc" "Ann" 4
                (run [WriteStep (down 1000) (downDrain 1000) "0xabc" "Ann" 3] emptyWorld)).
Proof.
  split.
  - apply (run_stays_settled (outage ++ fourDrains) emptyWorld).
    repeat split; constructor.
  - destruct (run_stays_settled [WriteStep (down 1000) (downDrain 1000) "0xabc" "Ann" 3]
                emptyWorld) as (_ & _ & Hreturn).
    { repeat split; constructor. }
    destruct (Hreturn (down 7000) (downDrain 7000) "0xabc" "Ann" 4) as [Heq|Hdraining];
      [|exact Hdraining].
    apply (f_equal isProcessingQueue) in Heq. vm_compute in Heq. discriminate.
Defined.

(** *** The counters *)

Lemma accounted_turn d i s :
  accounted (saveMetrics s) → isProcessingQueue s = true →
  (i < length (failedSavesQueue s))%nat → accounted (saveMetrics (retryEntry d i s).1).
Proof.
  intros Hacc Hflag Hi. destruct (lookup_lt_is_Some_2 _ _ Hi) as [fs Hfs].
  destruct (decide (drain_now d - lastAttempt fs < 5000)) as [Hearly|Hdue].
  - by rewrite (retryEntry_skip d i s fs Hfs Hearly).
  - destruct (retryEntry_due d i s fs Hfs Hdue Hflag)
      as (w' & tail & -> & _ & _ & _ & _ & _ & Htotal & Hsum & Hretry & Hlocal & _).
    cbn [fst]. unfold accounted in *. lia.
Qed.

Lemma accounted_body e address name diamonds s :
  accounted (saveMetrics s) →
  accounted (saveMetrics (saveWith (λ s, s) e address name diamonds s).1).
Proof.
  intros Hacc.
  destruct (saveWith_fields e address name diamonds s)
    as (w6 & failedAll & _ & _ & Hmetrics & _ & _ & _ & ->).
  assert (accounted (saveMetrics w6)) as H6.
  { rewrite Hmetrics. unfold accounted in *. destruct failedAll; cbn; lia. }
  by destruct failedAll, (negb (isProcessingQueue w6)).
Qed.

(** X20.  The counters add up after [resetSaveMetrics], and once they do
    they still do after any sequence of coordinated writes and drains that
    do not overlap, each taken with the drain it starts run to its end:
    [totalAttempts = successfulSaves + failedSaves] and
    [retryAttempts <= totalAttempts <= localBackupsUsed].  At the moment a
    write made there returns, either the world is the one at the end of the
    call, or the re-attempt started by its drain is in flight and is
    counted as an attempt only:
    [totalAttempts = successfulSaves + failedSaves + 1] and
    [retryAttempts <= totalAttempts <= localBackupsUsed + 1]. *)
Theorem counters_add_up steps w :
  accounted (saveMetrics (resetSaveMetrics w))
  ∧ (accounted (saveMetrics w) →
     accounted (saveMetrics (run steps w))
     ∧ ∀ e d address name v,
         savePlayerDiamondsRobustReturns e d address name v (run steps w)
         = (savePlayerDiamondsRobust e d address name v (run steps w)).1
         ∨ accountedInFlight
             (saveMetrics
                (savePlayerDiamondsRobustReturns e d address name v (run steps w)))).
Proof.
  split; [unfold accounted; cbn; lia|]. intros Hacc.
  destruct (run_invariant (λ s, accounted (saveMetrics s)) steps w) as [H _]; auto.
  - intros d. apply accounted_turn.
  - intros e address name diamonds. apply accounted_body.
  - split; [done|]. intros e d address name v.
    apply returns_counters. by apply accounted_body.
Qed.

Lemma counters_add_up_witness :
  accounted (saveMetrics (run (outage ++ fourDrains) (resetSaveMetrics emptyWorld)))
  ∧ accountedInFlight
      (saveMetrics
         (savePlayerDiamondsRobustReturns (down 7000) (downDrain 7000) "0xabc" "Ann" 4
            (run [WriteStep (down 1000) (downDrain 1000) "0xabc" "Ann" 3]
               (resetSaveMetrics emptyWorld)))).
Proof.
  assert (accounted (saveMetrics (resetSaveMetrics emptyWorld))) as Hzero
    by (unfold accounted; cbn; lia).
  split.
  - apply (counters_add_up (outage ++ fourDrains) (resetSaveMetrics emptyWorld)), Hzero.
  - destruct (proj2 (counters_add_up
                       [WriteStep (down 1000) (downDrain 1000) "0xabc" "Ann" 3]
                       (resetSaveMetrics emptyWorld)) Hzero) as [_ Hreturn].
    destruct (Hreturn (down 7000) (downDrain 7000) "0xabc" "Ann" 4) as [Heq|Hflight];
      [|exact Hflight].
    apply (f_equal isProcessingQueue) in Heq. vm_compute in Heq. discriminate.
Defined.

(** *** A read after a write *)

(** The local cache holds [v] for [address], and so does every entry
    queued for it. *)
Lemma kept_turn address v d i s :
  (∃ data, localDiamondStorage s !! address = Some data ∧ l_diamonds data = v)
  ∧ (∀ fs, fs ∈ failedSavesQueue s → fs_address fs = address → fs_diamonds fs = v) →
  isProcessingQueue s = true → (i < length (failedSavesQueue s))%nat →
  (∃ data, localDiamondStorage (retryEntry d i s).1 !! address = Some data
           ∧ l_diamonds data = v)
  ∧ (∀ fs, fs ∈ failedSavesQueue (retryEntry d i s).1 →
           fs_address fs = address → fs_diamonds fs = v).
Proof.
  intros [Hlocal Hqueue] Hflag Hi. destruct (lookup_lt_is_Some_2 _ _ Hi) as [fs Hfs].
  destruct (decide (drain_now d - lastAttempt fs < 5000)) as [Hearly|Hdue].
  - by rewrite (retryEntry_skip d i s fs Hfs Hearly).
  - destruct (retryEntry_due d i s fs Hfs Hdue Hflag)
      as (w' & tail & -> & _ & _ & Hqueue' & Htail & Hlocal' & _).
    cbn [fst]. assert (fs ∈ failedSavesQueue s) as Hin
      by (apply list_elem_of_lookup; eauto).
    split.
    + rewrite Hlocal'. destruct (decide (fs_address fs = address)) as [Ha|Ha].
      * rewrite Ha, lookup_insert_eq. eexists. split; [done|]. cbn. by apply Hqueue.
      * by rewrite lookup_insert_ne.
    + intros fs'. rewrite Hqueue', elem_of_app.
      intros [Hfs'%list_elem_of_delete_inv|Hfs'] Ha; [by apply Hqueue|].
      destruct Htail as [->| ->]; [by apply elem_of_nil in Hfs'|].
      apply list_elem_of_singleton in Hfs' as ->. cbn in *. by apply Hqueue.
Qed.

(** X21.  A read after a write.  When the retry queue holds nothing for
    the player, then after a coordinated write of [v > 0], whatever the
    network answers to the write, to the drain it may start and to the read,
    the local cache holds [v] and the reconciled read returns at least
    [v]. *)
Theorem read_after_write e d l address name v w :
  queued address w = [] → v > 0 →
  let w' := (savePlayerDiamondsRobust e d address name v w).1 in
  loadPlayerDiamondsLocally address w' = v
  ∧ v ≤ loadPlayerDiamondsRobust l address w'.
Proof.
  intros Hqueued Hv. cbn zeta.
  destruct (savePlayerDiamondsRobust_invariant
              (λ s, (∃ data, localDiamondStorage s !! address = Some data
                             ∧ l_diamonds data = v)
                    ∧ (∀ fs, fs ∈ failedSavesQueue s → fs_address fs = address →
                             fs_diamonds fs = v))
              e d address name v w) as [[(data & Hlocal & Hdata) _] _].
  - intros i s. apply kept_turn.
  - auto.
  - destruct (saveWith_fields e address name v w)
      as (w6 & failedAll & Hsaved & _ & _ & _ & _ & _ & ->).
    pose proof (saved_local _ _ _ _ _ _ Hsaved) as Hlocal.
    pose proof (saved_queue _ _ _ _ _ _ Hsaved) as Hqueue.
    assert (∀ fs, fs ∈ failedSavesQueue w → fs_address fs = address →
                  fs_diamonds fs = v) as Hnone.
    { intros fs Hin Ha. assert (fs_diamonds fs ∈ queued address w) as Hq
        by (apply queued_elem; eauto).
      rewrite Hqueued in Hq. by apply elem_of_nil in Hq. }
    destruct failedAll; [destruct (negb (isProcessingQueue w6))|];
      cbn [fst]; cbn; rewrite Hlocal, Hqueue, lookup_insert_eq;
      (split; [eauto|]); try done;
      (intros fs [Hin|Hin%list_elem_of_singleton]%elem_of_app Ha;
       [by apply Hnone|by subst]).
  - set (w' := (savePlayerDiamondsRobust e d address name v w).1) in *.
    split; [unfold loadPlayerDiamondsLocally; by rewrite Hlocal|].
    destruct (loadPlayerDiamondsRobust_max l address w') as [_ Hmax].
    assert (v ∈ filter (λ v, v > 0) (readings l address w')) as Hin.
    { apply list_elem_of_filter. split; [done|]. unfold readings.
      rewrite Hlocal, !elem_of_app. do 3 right. cbn. rewrite Hdata. left. }
    destruct Hmax as [_ Hupper]; [intros Hnil; rewrite Hnil in Hin;
                                  by apply elem_of_nil in Hin|].
    by apply Hupper.
Qed.

Lemma read_after_write_witness :
  5 ≤ loadPlayerDiamondsRobust calmLoad "0xabc"
        (savePlayerDiamondsRobust (down 1000) (downDrain 1000) "0xabc" "Ann" 5
           emptyWorld).1.
Proof.
  apply (read_after_write (down 1000) (downDrain 1000) calmLoad "0xabc" "Ann" 5
           emptyWorld); [reflexivity|lia].
Defined.

(** *** The direct read *)

(** X22.  The reconciled read is never negative, and it is never below
    the direct read ([loadPlayerDiamondsDirect]) that meets the same answer
    for the primary record. *)
Theorem direct_read_below_reconciled l address w :
  0 ≤ loadPlayerDiamondsRobust l address w
  ∧ loadPlayerDiamondsDirect (getPrimary l) address w
    ≤ loadPlayerDiamondsRobust l address w.
Proof.
  destruct (loadPlayerDiamondsRobust_max l address w) as [Hnone Hsome].
  set (result := loadPlayerDiamondsRobust l address w) in *.
  set (positive := filter (λ v, v > 0) (readings l address w)) in *.
  assert (0 ≤ result) as Hpos.
  { destruct (decide (positive = [])) as [Hnil|Hne]; [by rewrite Hnone|].
    destruct (Hsome Hne) as [[Hgt _]%list_elem_of_filter _]. lia. }
  assert (∀ v, v ∈ readings l address w → v ≤ result) as Hupper.
  { intros v Hv. destruct (decide (v > 0)) as [Hgt|]; [|lia].
    assert (v ∈ positive) as Hin by (by apply list_elem_of_filter).
    destruct Hsome as [_ Hle]; [intros Hnil; rewrite Hnil in Hin;
                                by apply elem_of_nil in Hin|].
    by apply Hle. }
  split; [done|].
  assert (loadPlayerDiamondsLocally address w ≤ result) as Hlocal.
  { unfold loadPlayerDiamondsLocally.
    destruct (localDiamondStorage w !! address) as [localData|] eqn:Hl; [|done].
    apply Hupper. unfold readings. rewrite Hl, !elem_of_app. do 3 right. left. }
  unfold loadPlayerDiamondsDirect. destruct (getPrimary l) eqn:Hget; try done.
  destruct (primary w !! address) as [data|] eqn:Hp; [|done].
  apply Hupper. unfold readings, answered. rewrite Hget, Hp, !elem_of_app. left. left.
Qed.

(** *** A drain with nothing due *)

(** X23.  A drain that finds no entry due (each was last attempted less
    than 5 s before) changes nothing: no request, no counter, the queue as
    it was; the timer for the next drain is set exactly when the queue is
    not empty. *)
Theorem drain_with_nothing_due d w :
  isProcessingQueue w = false → noneDue (drain_now d) w →
  processFailedSavesQueue d w
  = (w, bool_decide (0 < length (failedSavesQueue w))%nat).
Proof.
  intros Hflag Hnone. unfold processFailedSavesQueue. rewrite Hflag. cbn [orb].
  case_bool_decide as Hlen.
  - rewrite bool_decide_eq_false_2 by lia. done.
  - cbn zeta. rewrite drainFrom_noneDue; [|done|done].
    f_equal. destruct w; cbn in *; by subst.
Qed.

Lemma drain_with_nothing_due_witness :
  processFailedSavesQueue (downDrain 2000) waiting3 = (waiting3, true).
Proof.
  apply (drain_with_nothing_due (downDrain 2000) waiting3).
  - reflexivity.
  - repeat constructor.
Defined.

(** *** The primary record *)

(** X24.  With the write mutex free and the first PUT of the primary
    record accepted, a coordinated write stores the record under the
    address, leaves the retry queue as it was (nothing is queued and no
    drain is started), and a direct read answered ok returns the value
    written, also when it is not above 0. *)
Theorem accepted_primary_write_reads_back e d address name v w :
  writeMutex w = false → accepted (primaryPut e 1) = true →
  let w' := (savePlayerDiamondsRobust e d address name v w).1 in
  primary w'
  = <[address := mkPlayerDiamondData name v (save_now e) 2
                   (Some (mkDiamondBackup v (save_now e) 2 "backup1"))
                   (Some (mkDiamondBackup v (save_now e) 2 "backup2"))]> (primary w)
  ∧ failedSavesQueue w' = failedSavesQueue w
  ∧ isProcessingQueue w' = isProcessingQueue w
  ∧ writeMutex w' = false
  ∧ loadPlayerDiamondsDirect ROk address w' = v.
Proof.
  intros Hfree Hok. cbn zeta. unfold savePlayerDiamondsRobust.
  destruct (saveWith_fields e address name v w)
    as (w6 & failedAll & Hsaved & Hmutex & _ & _ & Hacc & _ & ->).
  destruct (Hacc Hfree Hok) as [-> Hprimary]. cbn [fst].
  split; [done|]. split; [apply (saved_queue _ _ _ _ _ _ Hsaved)|].
  split; [apply (saved_processing _ _ _ _ _ _ Hsaved)|]. split; [congruence|].
  unfold loadPlayerDiamondsDirect. by rewrite Hprimary, lookup_insert_eq.
Qed.

Lemma accepted_primary_write_reads_back_witness :
  loadPlayerDiamondsDirect ROk "0xabc"
    (savePlayerDiamondsRobust (calm 1000) (calmDrain 1000) "0xabc" "Ann" (-2)
       emptyWorld).1 = -2.
Proof.
  apply (accepted_primary_write_reads_back (calm 1000) (calmDrain 1000) "0xabc" "Ann"
           (-2) emptyWorld); reflexivity.
Defined.

End robust_module_facts.

(** * shared-seed.ts *)

Section shared_seed_facts.
Import SharedSeed.

Lemma fraction_in_unit (s m : Z) :
  0 ≤ s < m → (0 ≤ Qc_of_Z s / Qc_of_Z m)%Qc ∧ (Qc_of_Z s / Qc_of_Z m < 1)%Qc.
Proof.
  intros [Hs Hm].
  assert (0 < Qc_of_Z m)%Qc as Hpos.
  { rewrite <- Z2Qc_inj_0. apply (proj1 (Z2Qc_inj_lt 0 m)). lia. }
  assert (0 < / Qc_of_Z m)%Qc as Hinv by (by apply Qcinv_pos).
  unfold Qcdiv. split.
  - rewrite <- (Qcmult_0_l (/ Qc_of_Z m)).
    apply Qcmult_le_mono_nonneg_r; [by apply Qclt_le_weak|].
    rewrite <- Z2Qc_inj_0. exact (proj1 (Z2Qc_inj_le 0 s) Hs).
  - rewrite <- (Qcmult_inv_r (Qc_of_Z m)).
    + apply Qcmult_lt_mono_pos_r; [done|]. exact (proj1 (Z2Qc_inj_lt s m) Hm).
    + by apply not_eq_sym, Qclt_not_eq.
Qed.

Lemma nextSeed_in_range (sharedSeed : Z) :
  0 ≤ sharedSeed < 4294967296 →
  0 ≤ sharedSeed * 1664525 + 1013904223 < 2 ^ 53
  ∧ nextSeed sharedSeed = (sharedSeed * 1664525 + 1013904223) mod 4294967296
  ∧ 0 ≤ nextSeed sharedSeed < 4294967296.
Proof.
  intros Hseed. unfold nextSeed. split; [lia|].
  rewrite Z.rem_mod_nonneg by lia. split; [done|]. apply Z.mod_pos_bound. lia.
Qed.

(** X25.  [deterministicRandom] from an integer seed in [0, 2^32).  The
    value taken modulo 2^32 is below 2^53, so it is computed exactly; the
    seed stays an integer in [0, 2^32) through any number of calls, and each
    number returned is at least 0 and below 1. *)
Theorem deterministicRandom_in_unit_interval n sharedSeed :
  0 ≤ sharedSeed < 4294967296 →
  0 ≤ sharedSeed * 1664525 + 1013904223 < 2 ^ 53
  ∧ 0 ≤ (draws n sharedSeed).1 < 4294967296
  ∧ length (draws n sharedSeed).2 = n
  ∧ Forall (λ value, (0 ≤ value)%Qc ∧ (value < 1)%Qc) (draws n sharedSeed).2.
Proof.
  intros Hseed. split; [lia|]. revert sharedSeed Hseed.
  induction n as [|n IH]; intros sharedSeed Hseed; cbn [draws].
  - cbn. split; [done|]. split; [done|]. constructor.
  - unfold deterministicRandom.
    destruct (nextSeed_in_range sharedSeed Hseed) as (_ & _ & Hnext).
    specialize (IH _ Hnext). destruct (draws n (nextSeed sharedSeed)) as [last values].
    cbn [fst snd] in *. destruct IH as (Hlast & Hlen & Hall).
    split; [done|]. split; [cbn; by rewrite Hlen|].
    constructor; [|done]. by apply fraction_in_unit.
Qed.

Lemma deterministicRandom_in_unit_interval_witness :
  0 ≤ (draws 3 123456).1 < 4294967296.
Proof.
  apply (deterministicRandom_in_unit_interval 3 123456). lia.
Defined.

End shared_seed_facts.
